(** * CharLib characterization engine: test managers

    A shallow embedding of [src/characterizer/TestManager.py]: the sweep
    configuration setters, the port wiring of a delay trial, the
    setup/hold binary search, worst-case harness selection and timing
    table assembly, together with the properties stated for them.

    Python floats are modelled as rationals ([Q]); a PySpice unit such
    as [settings.units.time] is the rational scale factor it multiplies
    by.  Where a number is only stored, compared or passed on, the
    arithmetic on it is exact.  The setup/hold binary search, whose
    number of passes depends on the rounding of its bounds, is given
    twice: in exact arithmetic, and in [Rounded] with every operation
    on the bounds rounded to binary64; what is stated of its passes is
    stated of the search in [Rounded].  The external simulator is an
    oracle, passed as a section variable. *)

From Stdlib Require Import QArith Qabs Qround Qpower ZArith Ascii String Lia Lqa.
From stdpp Require Import base option list strings gmap pretty.

Local Open Scope Q_scope.

(** ** Exceptions and results *)

(** The reason carried by a [ValueError]; the message text itself is not
    modelled. *)
Inductive value_error :=
| MustBePositive      (* '... must be greater than zero' *)
| AutoNeedsSlews      (* 'Cannot use auto for ... unless in_slews is set first!' *)
| UnmatchedPorts      (* 'Failed to match all ports identified in definition ...' *)
| NoDefinition        (* 'No cell definition found in netlist ...' *)
| NoTargetPin.        (* 'Unable to configure simulation: no target ... pin' *)

Inductive exn :=
| ValueError (why : value_error)
| TypeError
| NameError
| KeyError
| IndexError
| LookupError
| AttributeError
| UnboundLocalError.

Inductive result (A : Type) :=
| Ok (a : A)
| Raised (e : exn).
Arguments Ok {A} a.
Arguments Raised {A} e.

(** Exceptions propagate through sequencing: [x ← c; k] runs [k] only
    when [c] returned. *)
#[global] Instance result_ret : MRet result := fun _ a => Ok a.

#[global] Instance result_bind : MBind result := fun _ _ k r =>
  match r with
  | Ok a => k a
  | Raised e => Raised e
  end.

(** The error classes of the specification, as the exceptions the code
    raises for them. *)
Definition is_WiringError (e : exn) : bool :=
  match e with ValueError UnmatchedPorts => true | _ => false end.

Definition is_ConfigurationError (e : exn) : bool :=
  match e with
  | ValueError MustBePositive | ValueError AutoNeedsSlews
  | ValueError NoDefinition | TypeError => true
  | _ => false
  end.

(** ** Python values reaching the setters *)

Inductive pyval :=
| PyInt (z : Z)
| PyFloat (q : Q)
| PyStr (s : string)
| PyNone.

(** [isinstance(value, (int, float))] together with [float(value)]. *)
Definition as_number (v : pyval) : option Q :=
  match v with
  | PyInt z => Some (inject_Z z)
  | PyFloat q => Some q
  | _ => None
  end.

Definition is_auto (v : pyval) : bool :=
  match v with
  | PyStr s => bool_decide (s = "auto"%string)
  | _ => false
  end.

Definition Qltb (a b : Q) : bool := negb (Qle_bool b a).

(** [max(l)] and [min(l)] on a non-empty list: the first extremal element
    is kept. *)
Definition py_max (x : Q) (xs : list Q) : Q :=
  fold_left (fun m y => if Qltb m y then y else m) xs x.

Definition py_min (x : Q) (xs : list Q) : Q :=
  fold_left (fun m y => if Qltb y m then y else m) xs x.

(** ** Test manager state *)

(** A test vector: one symbolic value per pin. *)
Definition test_vector := list string.

Record TestManager := {
  cell_name : string;
  (* names of the input and of the output io pins, in pin order *)
  in_ports : list string;
  out_ports : list string;
  (* [self.definition().upper().split()[1:]]: the subcircuit name followed
     by its ports, or [None] when the netlist has no definition line *)
  definition : option (list string);
  _in_slews : list Q;
  _out_loads : list Q;
  _sim_timestep : Q;
  (* the value of the [test_vectors] property *)
  test_vectors : list test_vector;
}.

Definition with_in_slews (tm : TestManager) (l : list Q) : TestManager :=
  {| cell_name := cell_name tm; in_ports := in_ports tm;
     out_ports := out_ports tm; definition := definition tm;
     _in_slews := l; _out_loads := _out_loads tm;
     _sim_timestep := _sim_timestep tm; test_vectors := test_vectors tm |}.

Definition with_out_loads (tm : TestManager) (l : list Q) : TestManager :=
  {| cell_name := cell_name tm; in_ports := in_ports tm;
     out_ports := out_ports tm; definition := definition tm;
     _in_slews := _in_slews tm; _out_loads := l;
     _sim_timestep := _sim_timestep tm; test_vectors := test_vectors tm |}.

(** [add_in_slew(value: float)]: [self._in_slews.append(float(value))]. *)
Definition add_in_slew (tm : TestManager) (value : Q) : result TestManager :=
  Ok (with_in_slews tm (_in_slews tm ++ [value])).

(** [add_out_load(value: float)]: [self._out_loads.append(float(value))]. *)
Definition add_out_load (tm : TestManager) (value : Q) : result TestManager :=
  Ok (with_out_loads tm (_out_loads tm ++ [value])).

(** The sequential manager adds the clock/set/reset pins and the search
    configuration to the base manager.  [set_name] and [reset_name] are
    [None] when the cell has no such pin ([self.set] is then falsy). *)
Record SequentialTestManager := {
  base : TestManager;
  clock_name : string;
  set_name : option string;
  reset_name : option string;
  _clock_slew : Q;
  _sim_setup_highest : Q;
  _sim_setup_lowest : Q;
  _sim_setup_timestep : Q;
  _sim_hold_highest : Q;
  _sim_hold_lowest : Q;
  _sim_hold_timestep : Q;
}.

Definition in_slews (tm : SequentialTestManager) : list Q := _in_slews (base tm).
Definition out_loads (tm : SequentialTestManager) : list Q := _out_loads (base tm).
Definition sim_timestep (tm : SequentialTestManager) : Q := _sim_timestep (base tm).

(** Attribute assignments, one per field. *)
Definition with_base (tm : SequentialTestManager) (b : TestManager) :=
  {| base := b; clock_name := clock_name tm; set_name := set_name tm;
     reset_name := reset_name tm; _clock_slew := _clock_slew tm;
     _sim_setup_highest := _sim_setup_highest tm;
     _sim_setup_lowest := _sim_setup_lowest tm;
     _sim_setup_timestep := _sim_setup_timestep tm;
     _sim_hold_highest := _sim_hold_highest tm;
     _sim_hold_lowest := _sim_hold_lowest tm;
     _sim_hold_timestep := _sim_hold_timestep tm |}.

Definition with_sim_setup_highest (tm : SequentialTestManager) (x : Q) :=
  {| base := base tm; clock_name := clock_name tm; set_name := set_name tm;
     reset_name := reset_name tm; _clock_slew := _clock_slew tm;
     _sim_setup_highest := x;
     _sim_setup_lowest := _sim_setup_lowest tm;
     _sim_setup_timestep := _sim_setup_timestep tm;
     _sim_hold_highest := _sim_hold_highest tm;
     _sim_hold_lowest := _sim_hold_lowest tm;
     _sim_hold_timestep := _sim_hold_timestep tm |}.

Definition with_sim_setup_lowest (tm : SequentialTestManager) (x : Q) :=
  {| base := base tm; clock_name := clock_name tm; set_name := set_name tm;
     reset_name := reset_name tm; _clock_slew := _clock_slew tm;
     _sim_setup_highest := _sim_setup_highest tm;
     _sim_setup_lowest := x;
     _sim_setup_timestep := _sim_setup_timestep tm;
     _sim_hold_highest := _sim_hold_highest tm;
     _sim_hold_lowest := _sim_hold_lowest tm;
     _sim_hold_timestep := _sim_hold_timestep tm |}.

Definition with_sim_setup_timestep (tm : SequentialTestManager) (x : Q) :=
  {| base := base tm; clock_name := clock_name tm; set_name := set_name tm;
     reset_name := reset_name tm; _clock_slew := _clock_slew tm;
     _sim_setup_highest := _sim_setup_highest tm;
     _sim_setup_lowest := _sim_setup_lowest tm;
     _sim_setup_timestep := x;
     _sim_hold_highest := _sim_hold_highest tm;
     _sim_hold_lowest := _sim_hold_lowest tm;
     _sim_hold_timestep := _sim_hold_timestep tm |}.

Definition with_sim_hold_highest (tm : SequentialTestManager) (x : Q) :=
  {| base := base tm; clock_name := clock_name tm; set_name := set_name tm;
     reset_name := reset_name tm; _clock_slew := _clock_slew tm;
     _sim_setup_highest := _sim_setup_highest tm;
     _sim_setup_lowest := _sim_setup_lowest tm;
     _sim_setup_timestep := _sim_setup_timestep tm;
     _sim_hold_highest := x;
     _sim_hold_lowest := _sim_hold_lowest tm;
     _sim_hold_timestep := _sim_hold_timestep tm |}.

Definition with_sim_hold_lowest (tm : SequentialTestManager) (x : Q) :=
  {| base := base tm; clock_name := clock_name tm; set_name := set_name tm;
     reset_name := reset_name tm; _clock_slew := _clock_slew tm;
     _sim_setup_highest := _sim_setup_highest tm;
     _sim_setup_lowest := _sim_setup_lowest tm;
     _sim_setup_timestep := _sim_setup_timestep tm;
     _sim_hold_highest := _sim_hold_highest tm;
     _sim_hold_lowest := x;
     _sim_hold_timestep := _sim_hold_timestep tm |}.

Definition with_sim_hold_timestep (tm : SequentialTestManager) (x : Q) :=
  {| base := base tm; clock_name := clock_name tm; set_name := set_name tm;
     reset_name := reset_name tm; _clock_slew := _clock_slew tm;
     _sim_setup_highest := _sim_setup_highest tm;
     _sim_setup_lowest := _sim_setup_lowest tm;
     _sim_setup_timestep := _sim_setup_timestep tm;
     _sim_hold_highest := _sim_hold_highest tm;
     _sim_hold_lowest := _sim_hold_lowest tm;
     _sim_hold_timestep := x |}.

(** [clock_slew] property: the smallest slew stands in for an unset
    clock slew. *)
Definition clock_slew (tm : SequentialTestManager) : Q :=
  match in_slews tm with
  | s :: rest => if Qeq_bool (_clock_slew tm) 0 then py_min s rest
                 else _clock_slew tm
  | [] => _clock_slew tm
  end.

(** [sim_setup_lowest.setter] *)
Definition set_sim_setup_lowest (tm : SequentialTestManager) (value : pyval)
    : result SequentialTestManager :=
  match as_number value with
  | Some v =>
      if Qltb 0 v then Ok (with_sim_setup_lowest tm v)
      else Raised (ValueError MustBePositive)
  | None =>
      if is_auto value then
        match in_slews tm with
        | [] => Raised (ValueError AutoNeedsSlews)
        | s :: rest => Ok (with_sim_setup_lowest tm (py_max s rest * -(10)))
        end
      else Raised TypeError
  end.

(** [sim_setup_highest.setter] *)
Definition set_sim_setup_highest (tm : SequentialTestManager) (value : pyval)
    : result SequentialTestManager :=
  match as_number value with
  | Some v =>
      if Qltb 0 v then Ok (with_sim_setup_highest tm v)
      else Raised (ValueError MustBePositive)
  | None =>
      if is_auto value then
        match in_slews tm with
        | [] => Raised (ValueError AutoNeedsSlews)
        | s :: rest => Ok (with_sim_setup_highest tm (py_max s rest * 10))
        end
      else Raised TypeError
  end.

(** [sim_setup_timestep.setter] *)
Definition set_sim_setup_timestep (tm : SequentialTestManager) (value : pyval)
    : result SequentialTestManager :=
  match as_number value with
  | Some v =>
      if Qltb 0 v then Ok (with_sim_setup_timestep tm v)
      else Raised (ValueError MustBePositive)
  | None =>
      if is_auto value then
        match in_slews tm with
        | s :: rest => Ok (with_sim_setup_timestep tm (py_min s rest / 10))
        | [] => Ok (with_sim_setup_timestep tm (sim_timestep tm))
        end
      else Raised TypeError
  end.

(** [sim_hold_lowest.setter] *)
Definition set_sim_hold_lowest (tm : SequentialTestManager) (value : pyval)
    : result SequentialTestManager :=
  match as_number value with
  | Some v =>
      if Qltb 0 v then Ok (with_sim_hold_lowest tm v)
      else Raised (ValueError MustBePositive)
  | None =>
      if is_auto value then
        match in_slews tm with
        | s :: rest => Ok (with_sim_hold_lowest tm (py_min s rest * -(10)))
        | [] => Raised (ValueError AutoNeedsSlews)
        end
      else Raised TypeError
  end.

(** [sim_hold_highest.setter]; its auto branch is the assignment
    [self._sim_hold_lowest = max(self.in_slews) * 10.0]. *)
Definition set_sim_hold_highest (tm : SequentialTestManager) (value : pyval)
    : result SequentialTestManager :=
  match as_number value with
  | Some v =>
      if Qltb 0 v then Ok (with_sim_hold_highest tm v)
      else Raised (ValueError MustBePositive)
  | None =>
      if is_auto value then
        match in_slews tm with
        | s :: rest => Ok (with_sim_hold_lowest tm (py_max s rest * 10))
        | [] => Raised (ValueError AutoNeedsSlews)
        end
      else Raised TypeError
  end.

(** [sim_hold_timestep.setter] *)
Definition set_sim_hold_timestep (tm : SequentialTestManager) (value : pyval)
    : result SequentialTestManager :=
  match as_number value with
  | Some v =>
      if Qltb 0 v then Ok (with_sim_hold_timestep tm v)
      else Raised (ValueError MustBePositive)
  | None =>
      if is_auto value then
        match in_slews tm with
        | s :: rest => Ok (with_sim_hold_timestep tm (py_min s rest / 10))
        | [] => Ok (with_sim_hold_timestep tm (sim_timestep tm))
        end
      else Raised TypeError
  end.

(** One configuration call on a sequential manager. *)
Inductive setter_call :=
| SetSetupHighest (v : pyval)
| SetSetupLowest (v : pyval)
| SetSetupTimestep (v : pyval)
| SetHoldHighest (v : pyval)
| SetHoldLowest (v : pyval)
| SetHoldTimestep (v : pyval)
| AddInSlew (q : Q)
| AddOutLoad (q : Q).

Definition call_value (c : setter_call) : option pyval :=
  match c with
  | SetSetupHighest v | SetSetupLowest v | SetSetupTimestep v
  | SetHoldHighest v | SetHoldLowest v | SetHoldTimestep v => Some v
  | AddInSlew _ | AddOutLoad _ => None
  end.

(** A call that supplies its value explicitly, not as ['auto']. *)
Definition explicit_call (c : setter_call) : bool :=
  match call_value c with
  | Some v => negb (is_auto v)
  | None => true
  end.

Definition apply_call (tm : SequentialTestManager) (c : setter_call)
    : result SequentialTestManager :=
  match c with
  | SetSetupHighest v => set_sim_setup_highest tm v
  | SetSetupLowest v => set_sim_setup_lowest tm v
  | SetSetupTimestep v => set_sim_setup_timestep tm v
  | SetHoldHighest v => set_sim_hold_highest tm v
  | SetHoldLowest v => set_sim_hold_lowest tm v
  | SetHoldTimestep v => set_sim_hold_timestep tm v
  | AddInSlew q => b ← add_in_slew (base tm) q; Ok (with_base tm b)
  | AddOutLoad q => b ← add_out_load (base tm) q; Ok (with_base tm b)
  end.

(** A sequence of calls; a call that raises leaves the manager as it
    was, and the caller goes on. *)
Definition apply_calls (tm : SequentialTestManager) (cs : list setter_call)
    : SequentialTestManager :=
  fold_left (fun t c => match apply_call t c with
                        | Ok t' => t'
                        | Raised _ => t
                        end) cs tm.

(** [SequentialTestManager.__init__] before the ['simulation'] settings
    are read: the clock slew, every search bound and every search
    timestep are 0. *)
Definition init_sequential (b : TestManager) (clock : string)
    (set reset : option string) : SequentialTestManager :=
  {| base := b; clock_name := clock; set_name := set; reset_name := reset;
     _clock_slew := 0;
     _sim_setup_highest := 0; _sim_setup_lowest := 0;
     _sim_setup_timestep := 0;
     _sim_hold_highest := 0; _sim_hold_lowest := 0;
     _sim_hold_timestep := 0 |}.

(** ** Settings, harnesses and simulator requests *)

(** [LibrarySettings], as far as the test managers read it.  The four
    threshold methods are fields holding the voltages they return. *)
Record LibrarySettings := {
  vdd_name : string;
  vdd_voltage : Q;
  vss_name : string;
  vss_voltage : Q;
  units_time : Q;
  units_voltage : Q;
  units_capacitance : Q;
  simulator : string;
  use_multithreaded : bool;
  logic_low_to_high_threshold_voltage : Q;
  logic_high_to_low_threshold_voltage : Q;
  logic_threshold_low_voltage : Q;
  logic_threshold_high_voltage : Q;
}.

(** [str.upper] on ASCII letters. *)
Definition upper_ascii (c : ascii) : ascii :=
  let n := nat_of_ascii c in
  if ((97 <=? n) && (n <=? 122))%nat then ascii_of_nat (n - 32) else c.

Fixpoint upper (s : string) : string :=
  match s with
  | EmptyString => EmptyString
  | String c s' => String (upper_ascii c) (upper s')
  end.

(** What a trial stores: the two measurements read back from the
    simulator's analysis. *)
Record analysis := {
  prop_in_out : Q;
  trans_out : Q;
}.

(** A pin of the harness with its state; [pin_name] is [port.pin.name]. *)
Record HarnessPort := {
  pin_name : string;
  state : string;
}.

(** A harness.  The clock, set and reset ports and the clock timing type
    are those of a sequential harness; a combinational harness has
    none. *)
Record Harness := {
  target_in_port : HarnessPort;
  target_out_port : HarnessPort;
  in_direction : string;
  out_direction : string;
  stable_in_ports : list HarnessPort;
  nontarget_out_ports : list HarnessPort;
  clock : option HarnessPort;
  set_port : option HarnessPort;
  reset_port : option HarnessPort;
  timing_type_clock : string;
  (* slew (as string) -> load (as string) -> result of the trial *)
  results : gmap string (gmap string analysis);
}.

Definition with_results (h : Harness) (r : gmap string (gmap string analysis))
    : Harness :=
  {| target_in_port := target_in_port h; target_out_port := target_out_port h;
     in_direction := in_direction h; out_direction := out_direction h;
     stable_in_ports := stable_in_ports h;
     nontarget_out_ports := nontarget_out_ports h;
     clock := clock h; set_port := set_port h; reset_port := reset_port h;
     timing_type_clock := timing_type_clock h;
     results := r |}.

(** [harness.results[k1][k2] = a]; the inner dictionary of a slew is
    made on first use. *)
Definition store_result (h : Harness) (k1 k2 : string) (a : analysis) : Harness :=
  with_results h (<[k1 := <[k2 := a]> (default ∅ (results h !! k1))]> (results h)).

(** [harness.results[k1][k2]], [None] standing for [KeyError]. *)
Definition lookup_result (h : Harness) (k1 k2 : string) : option analysis :=
  results h !! k1 ≫= (fun inner => inner !! k2).

(** One [simulator.measure('tran', name, trig, targ)] statement. *)
Record measure := {
  meas_name : string;
  trig_node : string;
  trig_val : Q;
  trig_td : option Q;
  trig_edge : string;
  trig_count : string;
  targ_node : string;
  targ_val : Q;
  targ_edge : string;
  targ_count : string;
}.

(** The circuit and analysis handed to the simulator for one trial. *)
Record TrialRequest := {
  subcircuit : string;
  connections : list string;
  pwl_sources : list (string * list (Q * Q));
  dc_sources : list (string * Q);
  load_capacitance : Q;
  measures : list measure;
  step_time : Q;
  end_time : Q;
}.

Inductive sim_call :=
| AcSweep (target_pin : string) (subckt : string) (conns : list string)
| Transient (req : TrialRequest).

(** The external simulator.  [None] is a failed simulation, which
    PySpice reports by raising [NameError]. *)
Class Simulator := {
  transient : TrialRequest -> option analysis;
  (* the AC sweep and the linear fit of the conductance *)
  ac_capacitance : string -> string -> list string -> option Q;
}.

(** Python's [str] and [format(_, '7f')] on floats. *)
Class PyFormat := {
  str_float : Q -> string;
  format_7f : Q -> string;
}.

(** ** Computations that call the simulator

    A computation threads the log of the simulator calls made so far and
    either returns or raises. *)
Definition M (A : Type) : Type := list sim_call -> result A * list sim_call.

#[global] Instance M_ret : MRet M := fun _ a log => (Ok a, log).

#[global] Instance M_bind : MBind M := fun _ _ k m log =>
  match m log with
  | (Ok a, log') => k a log'
  | (Raised e, log') => (Raised e, log')
  end.

Definition raise {A} (e : exn) : M A := fun log => (Raised e, log).

Definition lift {A} (r : result A) : M A := fun log => (r, log).

(** [for x in l: s = body(s, x)], in any of the two monads. *)
Fixpoint for_each {m : Type -> Type} `{MBind m, MRet m} {A S : Type}
    (l : list A) (s : S) (body : S -> A -> m S) : m S :=
  match l with
  | [] => mret s
  | x :: l' => s' ← body s x; for_each l' s' body
  end.

Definition run_transient `{Simulator} (req : TrialRequest) : M analysis :=
  fun log =>
    (match transient req with
     | Some a => Ok a
     | None => Raised NameError
     end, log ++ [Transient req]).

Definition run_ac `{Simulator} (pin subckt : string) (conns : list string) : M Q :=
  fun log =>
    (match ac_capacitance pin subckt conns with
     | Some c => Ok c
     | None => Raised NameError
     end, log ++ [AcSweep pin subckt conns]).

(** [self.definition()] followed by [ports.pop(0)]: the subcircuit name
    and the ports. *)
Definition definition_ports (tm : TestManager) : result (string * list string) :=
  match definition tm with
  | None => Raised (ValueError NoDefinition)
  | Some [] => Raised IndexError
  | Some (subcircuit_name :: ports) => Ok (subcircuit_name, ports)
  end.

(** [TestManager._run_input_capacitance] *)
Definition _run_input_capacitance `{Simulator} (settings : LibrarySettings)
    (tm : TestManager) (target_pin : string) : M Q :=
  '(subcircuit_name, ports) ← lift (definition_ports tm);
  let connections :=
    map (fun port =>
           if bool_decide (port = target_pin) then "vin"%string
           else if bool_decide (port = upper (vdd_name settings)) then "vdd"%string
           else if bool_decide (port = upper (vss_name settings)) then "vss"%string
           else ("v" ++ port)%string) ports in
  run_ac target_pin subcircuit_name connections.

(** ** Wiring the device under test *)

(** The inner loop over [harness.stable_in_ports].  The [raise] of its
    last branch formats the name [state], which is bound nowhere in the
    function: evaluating the message raises [NameError]. *)
Fixpoint wire_stable_port (port : string) (stable : list HarnessPort)
    (connections : list string) : result (list string) :=
  match stable with
  | [] => Ok connections
  | stable_port :: rest =>
      if bool_decide (port = pin_name stable_port) then
        if bool_decide (state stable_port = "1"%string) then
          wire_stable_port port rest (connections ++ ["vhigh"%string])
        else if bool_decide (state stable_port = "0"%string) then
          wire_stable_port port rest (connections ++ ["vlow"%string])
        else Raised NameError
      else wire_stable_port port rest connections
  end.

(** The inner loop over [harness.nontarget_out_ports]. *)
Fixpoint wire_nontarget_port (port : string) (nontarget : list HarnessPort)
    (connections : list string) : list string :=
  match nontarget with
  | [] => connections
  | nontarget_port :: rest =>
      if bool_decide (port = pin_name nontarget_port) then
        wire_nontarget_port port rest
          (connections ++ [("wfloat" ++ state nontarget_port)%string])
      else wire_nontarget_port port rest connections
  end.

(** The two last branches of the port loop, the same in both managers. *)
Definition wire_other_port (harness : Harness) (connections : list string)
    (port : string) : result (list string) :=
  if bool_decide (port ∈ map pin_name (stable_in_ports harness)) then
    wire_stable_port port (stable_in_ports harness) connections
  else if bool_decide (port ∈ map pin_name (nontarget_out_ports harness)) then
    Ok (wire_nontarget_port port (nontarget_out_ports harness) connections)
  else Ok connections.

(** Body of the port loop of [CombinationalTestManager._run_delay_trial]. *)
Definition comb_wire_port (settings : LibrarySettings) (harness : Harness)
    (connections : list string) (port : string) : result (list string) :=
  if bool_decide (port = pin_name (target_in_port harness)) then
    Ok (connections ++ ["vin"%string])
  else if bool_decide (port = pin_name (target_out_port harness)) then
    Ok (connections ++ ["vout"%string])
  else if bool_decide (port = upper (vdd_name settings)) then
    Ok (connections ++ ["vdd_dyn"%string])
  else if bool_decide (port = upper (vss_name settings)) then
    Ok (connections ++ ["vss_dyn"%string])
  else wire_other_port harness connections port.

(** [a is not b] on two freshly computed lengths: CPython compares
    object identity, and two equal integers are one object only within
    the small-integer cache, which ends at 256. *)
Definition len_is_not (a b : nat) : bool :=
  (negb (a =? b) || (256 <? a))%nat.

(** ** Combinational delay trial *)

Definition is_rise (direction : string) : bool :=
  bool_decide (direction = "rise"%string).

(** The two [simulator.measure] statements of
    [CombinationalTestManager._run_delay_trial], with the thresholds its
    [if]/[else] chains select. *)
Definition comb_measures (settings : LibrarySettings) (harness : Harness)
    : list measure :=
  let v_prop_start :=
    if is_rise (in_direction harness)
    then logic_low_to_high_threshold_voltage settings
    else logic_high_to_low_threshold_voltage settings in
  let '(v_prop_end, v_trans_start, v_trans_end) :=
    if is_rise (out_direction harness)
    then (logic_low_to_high_threshold_voltage settings,
          logic_threshold_low_voltage settings,
          logic_threshold_high_voltage settings)
    else (logic_low_to_high_threshold_voltage settings,
          logic_threshold_high_voltage settings,
          logic_threshold_low_voltage settings) in
  [ {| meas_name := "prop_in_out";
       trig_node := "vin"; trig_val := v_prop_start; trig_td := None;
       trig_edge := in_direction harness; trig_count := "1";
       targ_node := "vout"; targ_val := v_prop_end;
       targ_edge := out_direction harness; targ_count := "1" |};
    {| meas_name := "trans_out";
       trig_node := "vout"; trig_val := v_trans_start; trig_td := None;
       trig_edge := out_direction harness; trig_count := "1";
       targ_node := "vout"; targ_val := v_trans_end;
       targ_edge := out_direction harness; targ_count := "1" |} ].

(** [CombinationalTestManager._run_delay_trial] *)
Definition comb_run_delay_trial `{Simulator} (settings : LibrarySettings)
    (tm : TestManager) (harness : Harness) (slew load : Q) : M analysis :=
  let data_slew := slew * units_time settings in
  let t_start := data_slew in
  let t_end := t_start + data_slew in
  let t_simend := 1000 * data_slew in
  let vdd := vdd_voltage settings * units_voltage settings in
  let vss := vss_voltage settings * units_voltage settings in
  let '(v_start, v_end) :=
    if is_rise (in_direction harness) then (vss, vdd) else (vdd, vss) in
  let pwl_values :=
    [(0, v_start); (t_start, v_start); (t_end, v_end); (t_simend, v_end)] in
  '(subcircuit_name, ports) ← lift (definition_ports tm);
  connections ← lift (for_each ports [] (comb_wire_port settings harness));
  if len_is_not (length connections) (length ports) then
    raise (ValueError UnmatchedPorts)
  else
    run_transient
      {| subcircuit := subcircuit_name;
         connections := connections;
         pwl_sources := [("vin"%string, pwl_values)];
         dc_sources := [("vhigh"%string, vdd); ("vlow"%string, vss);
                        ("vdd_dyn"%string, vdd); ("vss_dyn"%string, vss)];
         load_capacitance := load * units_capacitance settings;
         measures := comb_measures settings harness;
         step_time := _sim_timestep tm * units_time settings;
         end_time := t_simend |}.

(** [CombinationalTestManager._run_delay] *)
Definition comb_run_delay `{Simulator} `{PyFormat} (settings : LibrarySettings)
    (tm : TestManager) (harness : Harness) (slew load : Q) : M Harness :=
  a ← comb_run_delay_trial settings tm harness slew load;
  mret (store_result harness (str_float slew) (str_float load) a).

(** ** Sequential delay trial *)

(** [harness.clock.pin.name] and the like on a port that may be absent. *)
Definition port_name (p : option HarnessPort) : result string :=
  match p with
  | Some port => Ok (pin_name port)
  | None => Raised AttributeError
  end.

(** Body of the port loop of [SequentialTestManager._wire_subcircuit]. *)
Definition seq_wire_port (settings : LibrarySettings)
    (tm : SequentialTestManager) (harness : Harness)
    (connections : list string) (port : string) : result (list string) :=
  if bool_decide (port = pin_name (target_in_port harness)) then
    Ok (connections ++ ["vin"%string])
  else if bool_decide (port = pin_name (target_out_port harness)) then
    Ok (connections ++ ["vout"%string])
  else if bool_decide (port = upper (vdd_name settings)) then
    Ok (connections ++ ["vdd_dyn"%string])
  else if bool_decide (port = upper (vss_name settings)) then
    Ok (connections ++ ["vss_dyn"%string])
  else
    clock_pin ← port_name (clock harness);
    if bool_decide (port = clock_pin) then Ok (connections ++ ["vcin"%string])
    else
      is_reset ← match reset_name tm with
                 | Some _ => reset_pin ← port_name (reset_port harness);
                             Ok (bool_decide (port = reset_pin))
                 | None => Ok false
                 end;
      if is_reset : bool then Ok (connections ++ ["vrin"%string])
      else
        is_set ← match set_name tm with
                 | Some _ => set_pin ← port_name (set_port harness);
                             Ok (bool_decide (port = set_pin))
                 | None => Ok false
                 end;
        if is_set : bool then Ok (connections ++ ["vsin"%string])
        else wire_other_port harness connections port.

(** [SequentialTestManager._wire_subcircuit]: the subcircuit name
    followed by one node per port. *)
Definition _wire_subcircuit (settings : LibrarySettings)
    (tm : SequentialTestManager) (harness : Harness) : result (list string) :=
  '(subcircuit_name, ports) ← definition_ports (base tm);
  connections ← for_each ports [subcircuit_name]
                  (seq_wire_port settings tm harness);
  if len_is_not (length connections) (length ports + 1) then
    Raised (ValueError UnmatchedPorts)
  else Ok connections.

Definition _flip_direction (direction : string) : string :=
  if is_rise direction then "fall"%string else "rise"%string.

(** The four [simulator.measure] statements of
    [SequentialTestManager._run_delay_trial]. *)
Definition seq_measures (settings : LibrarySettings) (harness : Harness)
    (t_removal : Q) : result (list measure) :=
  '(v_prop_start, v_trans_start) ←
    (if is_rise (in_direction harness) then
       Ok (logic_low_to_high_threshold_voltage settings,
           logic_threshold_low_voltage settings)
     else if bool_decide (in_direction harness = "fall"%string) then
       Ok (logic_high_to_low_threshold_voltage settings,
           logic_threshold_high_voltage settings)
     else Raised (ValueError NoTargetPin));
  '(v_trans_end, v_prop_end) ←
    (if is_rise (out_direction harness) then
       Ok (logic_threshold_low_voltage settings,
           logic_low_to_high_threshold_voltage settings)
     else if bool_decide (out_direction harness = "fall"%string) then
       Ok (logic_threshold_high_voltage settings,
           logic_high_to_low_threshold_voltage settings)
     else Raised (ValueError NoTargetPin));
  let '(clk_direction, v_clk_transition) :=
    if bool_decide (timing_type_clock harness = "rising_edge"%string)
    then ("rise"%string, logic_low_to_high_threshold_voltage settings)
    else ("fall"%string, logic_high_to_low_threshold_voltage settings) in
  Ok [ {| meas_name := "prop_in_out";
          trig_node := "vin"; trig_val := v_prop_start;
          trig_td := Some t_removal;
          trig_edge := in_direction harness; trig_count := "1";
          targ_node := "vout"; targ_val := v_prop_end;
          targ_edge := out_direction harness; targ_count := "LAST" |};
       {| meas_name := "trans_out";
          trig_node := "vin"; trig_val := v_trans_start;
          trig_td := Some t_removal;
          trig_edge := in_direction harness; trig_count := "1";
          targ_node := "vout"; targ_val := v_trans_end;
          targ_edge := out_direction harness; targ_count := "1" |};
       {| meas_name := "t_setup";
          trig_node := "vin"; trig_val := v_prop_start;
          trig_td := Some t_removal;
          trig_edge := in_direction harness; trig_count := "1";
          targ_node := "vcin"; targ_val := v_clk_transition;
          targ_edge := clk_direction; targ_count := "1" |};
       {| meas_name := "t_hold";
          trig_node := "vcin"; trig_val := v_clk_transition;
          trig_td := Some t_removal;
          trig_edge := _flip_direction clk_direction; trig_count := "last";
          targ_node := "vin"; targ_val := v_prop_end;
          targ_edge := _flip_direction (in_direction harness);
          targ_count := "1" |} ].

(** A fixed rail for the set or reset node, when the harness has one. *)
Definition rail_source (node : string) (p : option HarnessPort) (vdd vss : Q)
    : list (string * Q) :=
  match p with
  | Some port =>
      [(node, if bool_decide (state port = "1"%string) then vdd else vss)]
  | None => []
  end.

(** [SequentialTestManager._run_delay_trial] *)
Definition seq_run_delay_trial `{Simulator} (settings : LibrarySettings)
    (tm : SequentialTestManager) (harness : Harness) (slew load : Q)
    (t_setup t_hold : Q) : M analysis :=
  let clk_slew := clock_slew tm * units_time settings in
  let data_slew := slew * units_time settings in
  let vdd := vdd_voltage settings * units_voltage settings in
  let vss := vss_voltage settings * units_voltage settings in
  let t_stabilizing := 100 * data_slew in
  let t_clk_edge_1_start := data_slew + t_setup in
  let t_clk_edge_1_end := t_clk_edge_1_start + clk_slew in
  let t_clk_edge_2_start := t_clk_edge_1_end + t_hold in
  let t_clk_edge_2_end := t_clk_edge_2_start + clk_slew in
  let t_removal := t_clk_edge_2_end + t_hold in
  let t_data_edge_1_start := t_removal + t_stabilizing in
  let t_data_edge_1_end := t_data_edge_1_start + data_slew in
  let t_clk_edge_3_start := t_data_edge_1_end + t_setup in
  let t_clk_edge_3_end := t_clk_edge_3_start + clk_slew in
  let t_data_edge_2_start := t_clk_edge_3_end + t_hold in
  let t_data_edge_2_end := t_data_edge_2_start + data_slew in
  let t_sim_end := t_data_edge_2_end + t_stabilizing in
  let '(c0, c1) :=
    if bool_decide (timing_type_clock harness = "falling_edge"%string)
    then (vss, vdd) else (vdd, vss) in
  let clock_values :=
    [(0, c0); (t_clk_edge_1_start, c0); (t_clk_edge_1_end, c1);
     (t_clk_edge_2_start, c1); (t_clk_edge_2_end, c0);
     (t_clk_edge_3_start, c0); (t_clk_edge_3_end, c1); (t_sim_end, c1)] in
  let '(v0, v1) :=
    if is_rise (in_direction harness) then (vss, vdd) else (vdd, vss) in
  let data_values :=
    [(0, v0); (t_data_edge_1_start, v0); (t_data_edge_1_end, v1);
     (t_data_edge_2_start, v1); (t_data_edge_2_end, v0); (t_sim_end, v0)] in
  connections ← lift (_wire_subcircuit settings tm harness);
  meas ← lift (seq_measures settings harness t_removal);
  run_transient
    {| subcircuit := hd ""%string connections;
       connections := tl connections;
       pwl_sources := [("vcin"%string, clock_values);
                       ("vin"%string, data_values)];
       dc_sources := [("vhigh"%string, vdd); ("vlow"%string, vss);
                      ("vdd_dyn"%string, vdd); ("vss_dyn"%string, vss)]
                     ++ rail_source "vrin" (reset_port harness) vdd vss
                     ++ rail_source "vsin" (set_port harness) vdd vss;
       load_capacitance := load * units_capacitance settings;
       measures := meas;
       step_time := sim_timestep tm * units_time settings;
       end_time := t_sim_end |}.

(** ** Setup and hold binary search *)

(** [except NameError] also catches its subclass [UnboundLocalError]. *)
Definition is_NameError (e : exn) : bool :=
  match e with NameError | UnboundLocalError => true | _ => false end.

(** The variables of the [while] loop.  [t_found] is the local
    [t_setup] (or [t_hold]), unbound until the first iteration;
    [iterations] counts the loop bodies entered and is not a variable of
    the source. *)
Record search_state := {
  t_min : Q;
  t_max : Q;
  prev_t_prop : Q;
  t_found : option Q;
  harness_now : Harness;
  iterations : nat;
}.

(** The [try]/[except NameError] around the trial: the result is stored
    on the harness, or [failed] is set. *)
Definition try_trial (trial : Q -> M analysis) (k1 k2 : string)
    (harness : Harness) (t : Q) : M (bool * Harness) :=
  fun log =>
    match trial t log with
    | (Ok a, log') => (Ok (false, store_result harness k1 k2 a), log')
    | (Raised e, log') =>
        if is_NameError e then (Ok (true, harness), log')
        else (Raised e, log')
    end.

(** One pass through the body of the [while] loop; the boolean is [true]
    when the body ends in [break]. *)
Definition search_step (trial : Q -> M analysis) (timestep : Q)
    (k1 k2 : string) (st : search_state) : M (search_state * bool) :=
  let t := (t_max st + t_min st) / 2 in
  '(failed, harness) ← try_trial trial k1 k2 (harness_now st) t;
  (* failed or harness.results[..][..]['prop_in_out'] > prev_t_prop *)
  worse ← (if failed : bool then mret true
           else match lookup_result harness k1 k2 with
                | Some a => mret (Qltb (prev_t_prop st) (prop_in_out a))
                | None => raise KeyError
                end);
  let '(t_min', t_max') :=
    if worse : bool then (t, t_max st) else (t_min st, t) in
  if negb (Qltb timestep (Qabs (t - (t_max' + t_min') / 2))) then
    mret ({| t_min := t_min'; t_max := t_max';
             prev_t_prop := prev_t_prop st; t_found := Some t;
             harness_now := harness;
             iterations := S (iterations st) |}, true)
  else
    let prev :=
      match lookup_result harness k1 k2 with
      | Some a => prop_in_out a
      | None => prev_t_prop st      (* except KeyError: pass *)
      end in
    mret ({| t_min := t_min'; t_max := t_max';
             prev_t_prop := prev; t_found := Some t;
             harness_now := harness;
             iterations := S (iterations st) |}, false).

(** Computations that may also run out of fuel: [None]. *)
Definition MF (A : Type) : Type := M (option A).

#[global] Instance MF_ret : MRet MF := fun _ a => mret (M := M) (Some a).

#[global] Instance MF_bind : MBind MF := fun _ _ k m =>
  mbind (M := M) (fun r => match r with
                           | Some a => k a
                           | None => mret (M := M) None
                           end) m.

(** The [while t_min <= t_max] loop, run for at most [fuel] iterations;
    [None] when the fuel runs out before the loop ends. *)
Fixpoint search_loop (fuel : nat) (trial : Q -> M analysis) (timestep : Q)
    (k1 k2 : string) (st : search_state) : MF search_state :=
  if Qle_bool (t_min st) (t_max st) then
    match fuel with
    | O => mret None
    | S fuel' =>
        '(st', stop) ← search_step trial timestep k1 k2 st;
        if stop : bool then mret (Some st')
        else search_loop fuel' trial timestep k1 k2 st'
    end
  else mret (Some st).

(** What a search hands back: the returned time, the harness with the
    results stored on it, and the number of iterations made. *)
Record search_result := {
  found : Q;
  harness_after : Harness;
  trials : nat;
}.

(** The assignments before the loop: the bounds widened by one timestep
    and [prev_t_prop = 1.0  # Set a very large value]. *)
Definition initial_state (highest lowest timestep units : Q)
    (harness : Harness) : search_state :=
  {| t_max := (highest + timestep) * units;
     t_min := (lowest - timestep) * units;
     prev_t_prop := 1;
     t_found := None;
     harness_now := harness;
     iterations := O |}.

(** The search common to [_find_setup_time] and [_find_hold_time]:
    the initial assignments, the loop, and [return t]. *)
Definition binary_search (fuel : nat) (trial : Q -> M analysis)
    (highest lowest timestep units : Q) (k1 k2 : string) (harness : Harness)
    : MF search_result :=
  r ← search_loop fuel trial (timestep * units) k1 k2
        (initial_state highest lowest timestep units harness);
  match r with
  | None => mret None
  | Some st =>
      match t_found st with
      | Some t => mret (Some {| found := t; harness_after := harness_now st;
                                trials := iterations st |})
      | None => raise UnboundLocalError
      end
  end.

(** [SequentialTestManager._find_setup_time] *)
Definition _find_setup_time `{Simulator} `{PyFormat} (fuel : nat)
    (settings : LibrarySettings) (tm : SequentialTestManager)
    (harness : Harness) (slew load t_hold : Q) : MF search_result :=
  binary_search fuel
    (fun t_setup => seq_run_delay_trial settings tm harness slew load t_setup t_hold)
    (_sim_setup_highest tm) (_sim_setup_lowest tm) (_sim_setup_timestep tm)
    (units_time settings) (str_float slew) (str_float load) harness.

(** [SequentialTestManager._find_hold_time] *)
Definition _find_hold_time `{Simulator} `{PyFormat} (fuel : nat)
    (settings : LibrarySettings) (tm : SequentialTestManager)
    (harness : Harness) (slew load t_setup : Q) : MF search_result :=
  binary_search fuel
    (fun t_hold => seq_run_delay_trial settings tm harness slew load t_setup t_hold)
    (_sim_hold_highest tm) (_sim_hold_lowest tm) (_sim_hold_timestep tm)
    (units_time settings) (str_float slew) (str_float load) harness.

(** [SequentialTestManager._run_delay]: the setup search, then the hold
    search at the setup time found. *)
Definition seq_run_delay `{Simulator} `{PyFormat} (fuel : nat)
    (settings : LibrarySettings) (tm : SequentialTestManager)
    (harness : Harness) (slew load : Q) : MF Harness :=
  setup ← _find_setup_time fuel settings tm harness slew load
            (_sim_hold_highest tm * units_time settings);
  hold ← _find_hold_time fuel settings tm (harness_after setup) slew load
           (found setup);
  mret (harness_after hold).

(** [ceil(log2(r))], taken as 0 when it would be negative: the least
    [n] with [r <= 2^n]. *)
Definition ceil_log2 (r : Q) : nat := Z.to_nat (Z.log2_up (Qceiling r)).

Definition iteration_bound (highest lowest timestep : Q) : nat :=
  ceil_log2 ((highest - lowest) / timestep).

Definition pow2 (n : nat) : Q := inject_Z (2 ^ Z.of_nat n).

(** ** Worst-case selection *)

(** The Harness module, which the test managers import: the two
    constructors from a test vector, and the average propagation delay of
    a harness over its results. *)
Class HarnessModule := {
  CombinationalHarness : TestManager -> test_vector -> Harness;
  SequentialHarness : SequentialTestManager -> test_vector -> Harness;
  average_propagation_delay : Harness -> Q;
}.

(** Modelled from the spec: [filter_harnesses_by_ports] of the Harness
    module keeps, in order, the harnesses whose target input and target
    output ports are the given pins. *)
Definition filter_harnesses_by_ports (harness_list : list Harness)
    (in_port out_port : string) : list Harness :=
  filter (fun h => pin_name (target_in_port h) = in_port
                   ∧ pin_name (target_out_port h) = out_port) harness_list.

(** Modelled from the spec: [find_harness_by_arc] of the Harness module
    identifies the harness of an arc and direction; [LookupError] when
    there is none. *)
Definition find_harness_by_arc (harness_list : list Harness)
    (in_port out_port direction : string) : result Harness :=
  match filter (fun h => out_direction h = direction)
          (filter_harnesses_by_ports harness_list in_port out_port) with
  | h :: _ => Ok h
  | [] => Raised LookupError
  end.

(** The list comprehension of [characterize]: the harnesses of an arc
    with the given output direction. *)
Definition matching_harnesses (unsorted_harnesses : list Harness)
    (in_port out_port direction : string) : list Harness :=
  filter (fun h => out_direction h = direction)
    (filter_harnesses_by_ports unsorted_harnesses in_port out_port).

(** The body of the loop over the matching harnesses: the harness is
    taken when its average delay is larger. *)
Definition keep_worse `{HarnessModule} (worst harness : Harness) : Harness :=
  if Qltb (average_propagation_delay worst) (average_propagation_delay harness)
  then harness   (* This harness is worse *)
  else worst.

(** [worst_case_harness = matching_harnesses[0]] and the loop over the
    matching harnesses. *)
Definition worst_case_harness `{HarnessModule} (matching : list Harness)
    : result Harness :=
  match matching with
  | [] => Raised IndexError
  | first :: _ => Ok (fold_left keep_worse matching first)
  end.

(** The three nested [for] loops over output ports, input ports and
    directions, as the list of their iterations in order. *)
Definition arcs (outs ins : list string) : list (string * string * string) :=
  out_port ← outs; in_port ← ins;
  direction ← ["rise"%string; "fall"%string];
  [(out_port, in_port, direction)].

Definition select_worst_case `{HarnessModule} (outs ins : list string)
    (unsorted_harnesses : list Harness) : result (list Harness) :=
  for_each (arcs outs ins) []
    (fun harnesses '(out_port, in_port, direction) =>
       worst ← worst_case_harness
                 (matching_harnesses unsorted_harnesses in_port out_port direction);
       Ok (harnesses ++ [worst])).

(** ** Timing tables *)

(** The arguments of one [add_table] call. *)
Record Table := {
  table_name : string;
  template : string;
  values : list string;
  index_1 : list string;
  index_2 : list string;
}.

(** The cell model, as far as [characterize] writes it: pin
    capacitances, the [add_timing] calls (pin, related pin) and the
    [add_table] calls (pin, related pin, table), in call order. *)
Record Cell := {
  capacitance : gmap string Q;
  timing : list (string * string);
  tables : list (string * string * Table);
}.

Definition set_capacitance (cell : Cell) (pin : string) (c : Q) : Cell :=
  {| capacitance := <[pin := c]> (capacitance cell);
     timing := timing cell; tables := tables cell |}.

Definition add_timing (cell : Cell) (pin related : string) : Cell :=
  {| capacitance := capacitance cell;
     timing := timing cell ++ [(pin, related)]; tables := tables cell |}.

Definition add_table (cell : Cell) (pin related : string) (t : Table) : Cell :=
  {| capacitance := capacitance cell;
     timing := timing cell; tables := tables cell ++ [(pin, related, t)] |}.

(** A measurement in seconds, converted to the time unit of the library
    and formatted with ['7f']. *)
Definition show_prop `{PyFormat} (settings : LibrarySettings) (r : analysis)
    : string :=
  format_7f (prop_in_out r / units_time settings).

Definition show_tran `{PyFormat} (settings : LibrarySettings) (r : analysis)
    : string :=
  format_7f (trans_out r / units_time settings).

(** The body of the inner loop: the result of (slew, load) is looked up
    and appended to both value lists. *)
Definition table_cell `{PyFormat} (settings : LibrarySettings)
    (harness : Harness) (slew : string)
    (acc : list string * list string) (load : string)
    : result (list string * list string) :=
  let '(prop_values, tran_values) := acc in
  match lookup_result harness slew load with
  | None => Raised KeyError
  | Some r => Ok (prop_values ++ [show_prop settings r],
                  tran_values ++ [show_tran settings r])
  end.

(** The two nested loops filling [prop_values] and [tran_values]. *)
Definition table_values `{PyFormat} (settings : LibrarySettings)
    (harness : Harness) (index_1 index_2 : list string)
    : result (list string * list string) :=
  for_each index_1 ([], [])
    (fun acc slew => for_each index_2 acc (table_cell settings harness slew)).

(** The body of the direction loop: the two tables of one arc and
    direction. *)
Definition arc_tables `{PyFormat} (settings : LibrarySettings)
    (slews loads : list Q) (harness : Harness) (direction : string)
    : result (Table * Table) :=
  let index_1 := map str_float slews in
  let index_2 := map str_float loads in
  '(prop_values, tran_values) ← table_values settings harness index_1 index_2;
  let template := ("delay_template_" ++ pretty (length index_1) ++ "x"
                   ++ pretty (length index_2))%string in
  Ok ({| table_name := ("cell_" ++ direction)%string; template := template;
         values := prop_values; index_1 := index_1; index_2 := index_2 |},
      {| table_name := (direction ++ "_transition")%string;
         template := template;
         values := tran_values; index_1 := index_1; index_2 := index_2 |}).

(** The body of the direction loop: the harness of the arc is found and
    its two tables are added to the timing of the output pin. *)
Definition store_arc_tables `{PyFormat} (settings : LibrarySettings)
    (slews loads : list Q) (harnesses : list Harness)
    (out_port in_port : string) (cell : Cell) (direction : string)
    : result Cell :=
  harness ← find_harness_by_arc harnesses in_port out_port direction;
  '(cell_table, transition_table) ←
    arc_tables settings slews loads harness direction;
  Ok (add_table (add_table cell out_port in_port cell_table)
        out_port in_port transition_table).

(** "Store propagation and transport delay in pin timing tables": the
    loops over output ports, input ports and directions, the same in
    both managers. *)
Definition store_timing_tables `{PyFormat} (settings : LibrarySettings)
    (slews loads : list Q) (outs ins : list string)
    (harnesses : list Harness) (cell : Cell) : result Cell :=
  for_each outs cell (fun cell out_port =>
    for_each ins cell (fun cell in_port =>
      for_each ["rise"%string; "fall"%string]
        (add_timing cell out_port in_port)
        (store_arc_tables settings slews loads harnesses out_port in_port))).

(** ** Characterization *)

(** [for slew in slews: for load in loads: body] *)
Definition sweep {m : Type -> Type} `{MBind m, MRet m} {S : Type}
    (slews loads : list Q) (s : S) (body : S -> Q -> Q -> m S) : m S :=
  for_each slews s (fun s slew =>
    for_each loads s (fun s load => body s slew load)).

(** A job run in a thread of its own: an exception ends the thread and
    does not reach [characterize].  The threads are taken to run to
    completion one after the other, in the order they are started. *)
Definition in_thread (job : M Harness) (harness : Harness) : M Harness :=
  fun log =>
    match job log with
    | (Ok h, log') => (Ok h, log')
    | (Raised _, log') => (Ok harness, log')
    end.

(** The capacitance loop at the head of both [characterize] methods. *)
Definition measure_capacitances `{Simulator} (settings : LibrarySettings)
    (tm : TestManager) (pins : list string) (cell : Cell) : M Cell :=
  for_each pins cell (fun cell pin =>
    c ← _run_input_capacitance settings tm pin;
    mret (set_capacitance cell pin (c / units_capacitance settings))).

(** "Run delay simulation for all test vectors": one harness per test
    vector, swept over every slew and load, in threads or in turn. *)
Definition comb_run_all_delays `{Simulator} `{PyFormat} `{HarnessModule}
    (settings : LibrarySettings) (tm : TestManager) : M (list Harness) :=
  for_each (test_vectors tm) [] (fun unsorted test_vector =>
    let harness := CombinationalHarness tm test_vector in
    harness ←
      (if use_multithreaded settings
          && negb (bool_decide (simulator settings = "ngspice-shared"%string))
       then sweep (_in_slews tm) (_out_loads tm) harness
              (fun h slew load =>
                 in_thread (comb_run_delay settings tm h slew load) h)
       else sweep (_in_slews tm) (_out_loads tm) harness
              (fun h slew load => comb_run_delay settings tm h slew load));
    mret (unsorted ++ [harness])).

(** [CombinationalTestManager.characterize], plots apart. *)
Definition comb_characterize `{Simulator} `{PyFormat} `{HarnessModule}
    (settings : LibrarySettings) (tm : TestManager) (cell : Cell) : M Cell :=
  cell ← measure_capacitances settings tm (in_ports tm) cell;
  unsorted_harnesses ← comb_run_all_delays settings tm;
  harnesses ← lift (select_worst_case (out_ports tm) (in_ports tm)
                      unsorted_harnesses);
  lift (store_timing_tables settings (_in_slews tm) (_out_loads tm)
          (out_ports tm) (in_ports tm) harnesses cell).

Definition lift_fuel {A} (c : M A) : MF A :=
  a ← c; mret (M := M) (Some a).

(** "Generate harnesses": one harness per test vector, with the setup
    and hold searches run for every slew and load. *)
Definition seq_run_all_delays `{Simulator} `{PyFormat} `{HarnessModule}
    (fuel : nat) (settings : LibrarySettings) (tm : SequentialTestManager)
    : MF (list Harness) :=
  for_each (test_vectors (base tm)) [] (fun harnesses test_vector =>
    let harness := SequentialHarness tm test_vector in
    harness ← sweep (in_slews tm) (out_loads tm) harness
                (fun h slew load => seq_run_delay fuel settings tm h slew load);
    mret (harnesses ++ [harness])).

(** [SequentialTestManager.characterize], plots apart. *)
Definition seq_characterize `{Simulator} `{PyFormat} `{HarnessModule}
    (fuel : nat) (settings : LibrarySettings) (tm : SequentialTestManager)
    (cell : Cell) : MF Cell :=
  let in_cap_pins :=
    in_ports (base tm) ++ [clock_name tm]
    ++ option_list (set_name tm) ++ option_list (reset_name tm) in
  cell ← lift_fuel (measure_capacitances settings (base tm) in_cap_pins cell);
  harnesses ← seq_run_all_delays fuel settings tm;
  let cell :=
    fold_left (fun cell in_port =>
                 fold_left (fun cell _ => add_timing cell in_port (clock_name tm))
                   ["rise"%string; "fall"%string] cell)
      (in_ports (base tm)) cell in
  lift_fuel (lift (store_timing_tables settings (in_slews tm) (out_loads tm)
                     (out_ports (base tm)) (in_ports (base tm)) harnesses cell)).

(** ** Spec-level notions used in the statements *)

(** Modelled from the spec: the average propagation delay of a harness
    "across the full sweep grid", the mean of [prop_in_out] over every
    stored (slew, load) result. *)
Definition grid_average (h : Harness) : Q :=
  let cells :=
    '(_, inner) ← map_to_list (results h); snd <$> map_to_list inner in
  fold_right (fun a acc => prop_in_out a + acc) 0 cells
  / inject_Z (Z.of_nat (length cells)).

(** A harness as the constructors make it: pin names are unique among the
    stable inputs and among the non-target outputs, and a stable input is
    held at '0' or '1'. *)
Definition harness_ok (h : Harness) : Prop :=
  NoDup (map pin_name (stable_in_ports h))
  ∧ NoDup (map pin_name (nontarget_out_ports h))
  ∧ Forall (fun p => state p = "0"%string ∨ state p = "1"%string)
      (stable_in_ports h).

(** A sequential harness has a clock port, and a set or reset port when
    the manager has the pin. *)
Definition seq_harness_ok (tm : SequentialTestManager) (h : Harness) : Prop :=
  harness_ok h
  ∧ is_Some (clock h)
  ∧ (is_Some (reset_name tm) → is_Some (reset_port h))
  ∧ (is_Some (set_name tm) → is_Some (set_port h)).

(** The port names the combinational wiring recognises: target input,
    target output, the two supplies, stable inputs, non-target outputs. *)
Definition comb_roles (settings : LibrarySettings) (h : Harness) : list string :=
  [pin_name (target_in_port h); pin_name (target_out_port h);
   upper (vdd_name settings); upper (vss_name settings)]
  ++ map pin_name (stable_in_ports h)
  ++ map pin_name (nontarget_out_ports h).

(** The sequential wiring also recognises the clock, and the reset and
    set pins when the manager has them. *)
Definition seq_roles (settings : LibrarySettings)
    (tm : SequentialTestManager) (h : Harness) : list string :=
  comb_roles settings h
  ++ option_list (pin_name <$> clock h)
  ++ match reset_name tm with
     | Some _ => option_list (pin_name <$> reset_port h)
     | None => []
     end
  ++ match set_name tm with
     | Some _ => option_list (pin_name <$> set_port h)
     | None => []
     end.

(** [vals] is the [m]x[n] grid of [h]'s results in row-major order, slew
    outer and load inner, each result shown by [show]. *)
Definition row_major `{PyFormat} (h : Harness) (show : analysis -> string)
    (slews loads : list Q) (vals : list string) : Prop :=
  length vals = (length slews * length loads)%nat
  ∧ ∀ (i j : nat) (s l : Q),
      slews !! i = Some s → loads !! j = Some l →
      ∃ r, lookup_result h (str_float s) (str_float l) = Some r
           ∧ vals !! (i * length loads + j)%nat = Some (show r).

(** The two [add_table] calls of one arc and direction. *)
Definition arc_entries `{PyFormat} (settings : LibrarySettings)
    (slews loads : list Q) (harnesses : list Harness)
    (arc : string * string * string)
    (entries : list (string * string * Table)) : Prop :=
  let '(out_port, in_port, direction) := arc in
  ∃ (h : Harness) (delay transition : Table),
    entries = [(out_port, in_port, delay); (out_port, in_port, transition)]
    ∧ find_harness_by_arc harnesses in_port out_port direction = Ok h
    ∧ table_name delay = ("cell_" ++ direction)%string
    ∧ table_name transition = (direction ++ "_transition")%string
    ∧ index_1 delay = map str_float slews
    ∧ index_2 delay = map str_float loads
    ∧ index_1 transition = map str_float slews
    ∧ index_2 transition = map str_float loads
    ∧ row_major h (show_prop settings) slews loads (values delay)
    ∧ row_major h (show_tran settings) slews loads (values transition).

(** The tables added by one run of the table loops: two per arc and
    direction, arcs in loop order. *)
Definition tables_of_arcs `{PyFormat} (settings : LibrarySettings)
    (slews loads : list Q) (outs ins : list string)
    (harnesses : list Harness) (added : list (string * string * Table)) : Prop :=
  ∃ per_arc : list (list (string * string * Table)),
    added = concat per_arc
    ∧ Forall2 (arc_entries settings slews loads harnesses)
        (arcs outs ins) per_arc.

(** [worst] sits in [matching] after [before] and ahead of [after]; it
    has a larger average delay than every harness before it and at least
    the average delay of every harness after it: the largest average,
    and on a tie the first harness met. *)
Definition first_largest `{HarnessModule} (matching before : list Harness)
    (worst : Harness) (after : list Harness) : Prop :=
  matching = before ++ worst :: after
  ∧ Forall (fun h => average_propagation_delay h
                     < average_propagation_delay worst) before
  ∧ Forall (fun h => average_propagation_delay h
                     <= average_propagation_delay worst) after.

(** Neither lower search bound is negative. *)
Definition lower_bounds_nonneg (tm : SequentialTestManager) : Prop :=
  0 <= _sim_setup_lowest tm ∧ 0 <= _sim_hold_lowest tm.

(** How a search may end: it does not run out of fuel; when it returns,
    it made between one and [bound] iterations and the time returned
    lies in [[low, high]]; when it raises, the exception is not one of
    the [NameError] family, which the loop catches. *)
Definition ends_within (bound : nat) (low high : Q)
    (r : result (option search_result) * list sim_call) : Prop :=
  match r with
  | (Ok None, _) => False
  | (Ok (Some res), _) =>
      (1 <= trials res)%nat ∧ (trials res <= bound)%nat
      ∧ low <= found res ∧ found res <= high
  | (Raised e, _) => is_NameError e = false
  end.

Definition is_ac_sweep (c : sim_call) : bool :=
  match c with AcSweep _ _ _ => true | Transient _ => false end.

(** ** Example cells *)

Definition ex_str (q : Q) : string :=
  let r := Qred q in
  (pretty (Qnum r) ++ "/" ++ pretty (Zpos (Qden r)))%string.

Definition ex_format : PyFormat :=
  {| str_float := ex_str; format_7f := ex_str |}.

(** A simulator that always converges: the delay it reports is the load
    of the trial. *)
Definition ex_simulator : Simulator :=
  {| transient := fun req =>
       Some {| prop_in_out := load_capacitance req; trans_out := 1 # 100 |};
     ac_capacitance := fun _ _ _ => Some (1 # 1000) |}.

(** A simulator that never converges. *)
Definition ex_failing_simulator : Simulator :=
  {| transient := fun _ => None;
     ac_capacitance := fun _ _ _ => Some (1 # 1000) |}.

Definition ex_settings : LibrarySettings :=
  {| vdd_name := "vdd"; vdd_voltage := 1; vss_name := "vss"; vss_voltage := 0;
     units_time := 1; units_voltage := 1; units_capacitance := 1;
     simulator := "ngspice-shared"; use_multithreaded := false;
     logic_low_to_high_threshold_voltage := 6 # 10;
     logic_high_to_low_threshold_voltage := 4 # 10;
     logic_threshold_low_voltage := 2 # 10;
     logic_threshold_high_voltage := 8 # 10 |}.

Definition ex_port (name st : string) : HarnessPort :=
  {| pin_name := name; state := st |}.

Definition ex_direction (code : string) : string :=
  if bool_decide (code = "01"%string) then "rise"%string else "fall"%string.

(** Harness of a one-input one-output cell for the vector
    [[input code; output code]]. *)
Definition ex_comb_harness (tm : TestManager) (v : test_vector) : Harness :=
  {| target_in_port := ex_port (hd ""%string (in_ports tm)) (nth 0 v ""%string);
     target_out_port := ex_port (hd ""%string (out_ports tm)) (nth 1 v ""%string);
     in_direction := ex_direction (nth 0 v ""%string);
     out_direction := ex_direction (nth 1 v ""%string);
     stable_in_ports := []; nontarget_out_ports := [];
     clock := None; set_port := None; reset_port := None;
     timing_type_clock := ""; results := ∅ |}.

(** Harness of a D flip-flop for the vector
    [[clock code; input code; output code]]. *)
Definition ex_seq_harness (tm : SequentialTestManager) (v : test_vector)
    : Harness :=
  {| target_in_port :=
       ex_port (hd ""%string (in_ports (base tm))) (nth 1 v ""%string);
     target_out_port :=
       ex_port (hd ""%string (out_ports (base tm))) (nth 2 v ""%string);
     in_direction := ex_direction (nth 1 v ""%string);
     out_direction := ex_direction (nth 2 v ""%string);
     stable_in_ports := []; nontarget_out_ports := [];
     clock := Some (ex_port (clock_name tm) (nth 0 v ""%string));
     set_port := None; reset_port := None;
     timing_type_clock := "rising_edge"; results := ∅ |}.

Definition ex_harness_module : HarnessModule :=
  {| CombinationalHarness := ex_comb_harness;
     SequentialHarness := ex_seq_harness;
     average_propagation_delay := grid_average |}.

Definition empty_cell : Cell :=
  {| capacitance := ∅; timing := []; tables := [] |}.

(** An inverter swept over one slew and two loads. *)
Definition ex_inv : TestManager :=
  {| cell_name := "INV"; in_ports := ["A"%string]; out_ports := ["Y"%string];
     definition := Some ["INV"; "A"; "Y"; "VDD"; "VSS"]%string;
     _in_slews := [1 # 10]; _out_loads := [1 # 100; 2 # 100];
     _sim_timestep := 1 # 100;
     test_vectors := [["01"; "10"]; ["10"; "01"]]%string |}.

(** The inverter with no slew rate configured. *)
Definition ex_inv_no_slews : TestManager := with_in_slews ex_inv [].

(** The inverter on a netlist whose subcircuit has one more port. *)
Definition ex_inv_extra_port : TestManager :=
  {| cell_name := "INV"; in_ports := ["A"%string]; out_ports := ["Y"%string];
     definition := Some ["INV"; "A"; "EN"; "Y"; "VDD"; "VSS"]%string;
     _in_slews := [1 # 10]; _out_loads := [1 # 100; 2 # 100];
     _sim_timestep := 1 # 100;
     test_vectors := [["01"; "10"]; ["10"; "01"]]%string |}.

Definition ex_inv_fall : Harness := ex_comb_harness ex_inv ["01"; "10"]%string.
Definition ex_inv_rise : Harness := ex_comb_harness ex_inv ["10"; "01"]%string.

(** A D flip-flop with setup and hold bounds 1 and 2 and timestep 1. *)
Definition ex_dff (ports : list string) : TestManager :=
  {| cell_name := "DFF"; in_ports := ["D"%string]; out_ports := ["Q"%string];
     definition := Some ("DFF"%string :: ports);
     _in_slews := [1]; _out_loads := [1]; _sim_timestep := 1 # 10;
     test_vectors := [["0101"; "01"; "01"]; ["0101"; "10"; "10"]]%string |}.

Definition ex_flop (ports : list string) (highest lowest timestep : Q)
    : SequentialTestManager :=
  {| base := ex_dff ports; clock_name := "CLK";
     set_name := None; reset_name := None; _clock_slew := 0;
     _sim_setup_highest := highest; _sim_setup_lowest := lowest;
     _sim_setup_timestep := timestep;
     _sim_hold_highest := highest; _sim_hold_lowest := lowest;
     _sim_hold_timestep := timestep |}.

Definition ex_flop_ports : list string := ["CLK"; "D"; "Q"; "VDD"; "VSS"]%string.

Definition ex_seq : SequentialTestManager := ex_flop ex_flop_ports 2 1 1.

Definition ex_seq_wide : SequentialTestManager := ex_flop ex_flop_ports 9 1 1.

Definition ex_seq_extra_port : SequentialTestManager :=
  ex_flop ["CLK"; "D"; "SE"; "Q"; "VDD"; "VSS"]%string 9 1 1.

Definition ex_seq_rise : Harness :=
  ex_seq_harness ex_seq ["0101"; "01"; "01"]%string.

(** The flip-flop with no output load configured. *)
Definition ex_seq_no_loads : SequentialTestManager :=
  with_base ex_seq_wide (with_out_loads (base ex_seq_wide) []).

(** Three harnesses of the arc A -> Y falling, with average delays 1, 2
    and 2. *)
Definition ex_measured (h : Harness) (delay : Q) : Harness :=
  store_result h "s" "l" {| prop_in_out := delay; trans_out := 0 |}.

Definition ex_three : list Harness :=
  [ex_measured ex_inv_fall 1; ex_measured ex_inv_fall 2;
   store_result (ex_measured ex_inv_fall 2) "s" "m"
     {| prop_in_out := 2; trans_out := 1 |}].

(** The three of them, followed by a harness of the arc A -> Y rising. *)
Definition ex_unsorted : list Harness :=
  ex_three ++ [ex_measured ex_inv_rise 3].

(** * The rest of the module *)

(** ** Module-level helpers *)

(** [_gen_graycode(length)] on a length above 1: the codes of
    [length - 1] with a 0 in front, then the same codes in reverse with a
    1 in front.  Each recursive call builds its lists afresh, so the
    in-place [insert] touches no list twice. *)
Fixpoint gen_graycode_from (n : nat) : list (list Z) :=
  match n with
  | O => [[0%Z]; [1%Z]]
  | S n' =>
      match n' with
      | O => [[0%Z]; [1%Z]]
      | S _ =>
          (cons 0%Z <$> gen_graycode_from n')
          ++ (cons 1%Z <$> reverse (gen_graycode_from n'))
      end
  end.

(** [_gen_graycode]: every length up to 1, negative ones too, gives the
    two one-bit codes. *)
Definition _gen_graycode (length : Z) : list (list Z) :=
  gen_graycode_from (Z.to_nat length).

(** The number of positions at which two codes differ. *)
Fixpoint differing_bits (a b : list Z) : nat :=
  match a, b with
  | x :: a', y :: b' =>
      ((if bool_decide (x = y) then 0 else 1) + differing_bits a' b')%nat
  | _, _ => O
  end.

(** ** Strings *)

(** Whitespace as [str.split()] sees it.  A character of a string is a
    code point below 256; the whitespace among these is tab to carriage
    return, the four separators 28 to 31, the space, the next-line
    character U+0085 and the no-break space U+00A0. *)
Definition is_space (c : ascii) : bool :=
  let n := nat_of_ascii c in
  (((9 <=? n) && (n <=? 13)) || ((28 <=? n) && (n <=? 31)) || (n =? 32)
   || (n =? 133) || (n =? 160))%nat.

(** [str.split()]: the maximal runs of non-whitespace characters.  [word]
    is the run being read. *)
Fixpoint split_from (s : string) (word : string) : list string :=
  match s with
  | EmptyString =>
      match word with EmptyString => [] | _ => [word] end
  | String c s' =>
      if is_space c then
        match word with
        | EmptyString => split_from s' EmptyString
        | _ => word :: split_from s' EmptyString
        end
      else split_from s' (word ++ String c EmptyString)%string
  end.

Definition py_split (s : string) : list string := split_from s EmptyString.

(** [' '.join(words)] *)
Fixpoint py_join (words : list string) : string :=
  match words with
  | [] => EmptyString
  | [w] => w
  | w :: rest => (w ++ " " ++ py_join rest)%string
  end.

(** [needle in hay] *)
Fixpoint contains (needle hay : string) : bool :=
  String.prefix needle hay
  || match hay with
     | EmptyString => false
     | String _ hay' => contains needle hay'
     end.

(** [str.lower] on ASCII letters. *)
Definition lower_ascii (c : ascii) : ascii :=
  let n := nat_of_ascii c in
  if ((65 <=? n) && (n <=? 90))%nat then ascii_of_nat (n + 32) else c.

(** Every character of [s] satisfies [P]. *)
Fixpoint all_chars (P : ascii -> bool) (s : string) : bool :=
  match s with
  | EmptyString => true
  | String c s' => P c && all_chars P s'
  end.

Definition is_lower_letter (c : ascii) : bool :=
  let n := nat_of_ascii c in ((97 <=? n) && (n <=? 122))%nat.

(** ** Reading the netlist *)

(** [TestManager.definition], on the lines of the netlist file: the
    first line that, in upper case, contains the cell name and 'SUBCKT'. *)
Fixpoint find_definition (name : string) (lines : list string) : result string :=
  match lines with
  | [] => Raised (ValueError NoDefinition)
  | line :: rest =>
      if contains name (upper line) && contains "SUBCKT" (upper line)
      then Ok line
      else find_definition name rest
  end.

(** [self.definition().upper().split()[1:]], as the trials take it. *)
Definition definition_tokens (name : string) (lines : list string)
    : result (list string) :=
  line ← find_definition name lines; Ok (tail (py_split (upper line))).

(** [TestManager.instance]: the definition without its first word, the
    circuit name moved to the end, 'XDUT' put in front. *)
Definition instance (name : string) (lines : list string) : result string :=
  line ← find_definition name lines;
  match tail (py_split line) with
  | [] => Raised IndexError
  | circuit :: ports => Ok (py_join ("XDUT"%string :: ports ++ [circuit]))
  end.

(** The loop over the reversed words of a line in [used_models]: the
    last word without '='. *)
Definition last_plain_word (words : list string) : option string :=
  head (filter (fun term => contains "=" term = false) (reverse words)).

Definition starts_with_x (line : string) : bool :=
  match line with
  | String c _ => bool_decide (lower_ascii c = "x"%char)
  | EmptyString => false
  end.

(** [TestManager.used_models], on the lines of the netlist file. *)
Definition used_models (lines : list string) : list string :=
  line ← lines;
  if starts_with_x line then option_list (last_plain_word (py_split line))
  else [].

(** ** Triggered pins *)

(** The three ways [_parse_triggered_pin] fails: [TypeError], and
    [ValueError] with one of its two messages. *)
Inductive pin_error :=
| PinNotAString
| PinNotTwoWords
| PinInvalidTrigger.

(** [_parse_triggered_pin]: the trigger and the name of the pin; the pin
    itself is [Pin(name, 'input', role)]. *)
Definition _parse_triggered_pin (value : pyval) : pin_error + (string * string) :=
  match value with
  | PyStr s =>
      match py_split s with
      | [edge; name] =>
          if bool_decide (edge ∈ ["posedge"; "negedge"]%string)
          then inr (edge, name)
          else inl PinInvalidTrigger
      | _ => inl PinNotTwoWords
      end
  | _ => inl PinNotAString
  end.

(** ** More setters *)

(** Python's [float] on a string. *)
Class PyBuiltins := {
  float_of_str : string -> result Q;
}.

Definition with_sim_timestep (tm : TestManager) (x : Q) : TestManager :=
  {| cell_name := cell_name tm; in_ports := in_ports tm;
     out_ports := out_ports tm; definition := definition tm;
     _in_slews := _in_slews tm; _out_loads := _out_loads tm;
     _sim_timestep := x; test_vectors := test_vectors tm |}.

(** [TestManager.sim_timestep.setter] *)
Definition set_sim_timestep `{PyBuiltins} (tm : TestManager) (value : pyval)
    : result TestManager :=
  if is_auto value then
    match _in_slews tm with
    | s :: rest => Ok (with_sim_timestep tm (py_min s rest / 10))
    | [] => Raised (ValueError AutoNeedsSlews)
    end
  else
    match value with
    | PyInt z => Ok (with_sim_timestep tm (inject_Z z))
    | PyFloat q => Ok (with_sim_timestep tm q)
    | PyStr s => x ← float_of_str s; Ok (with_sim_timestep tm x)
    | PyNone => Raised TypeError
    end.

Definition with_clock_slew (tm : SequentialTestManager) (x : Q) :=
  {| base := base tm; clock_name := clock_name tm; set_name := set_name tm;
     reset_name := reset_name tm; _clock_slew := x;
     _sim_setup_highest := _sim_setup_highest tm;
     _sim_setup_lowest := _sim_setup_lowest tm;
     _sim_setup_timestep := _sim_setup_timestep tm;
     _sim_hold_highest := _sim_hold_highest tm;
     _sim_hold_lowest := _sim_hold_lowest tm;
     _sim_hold_timestep := _sim_hold_timestep tm |}.

(** [SequentialTestManager.clock_slew.setter] *)
Definition set_clock_slew (tm : SequentialTestManager) (value : pyval)
    : result SequentialTestManager :=
  match as_number value with
  | Some v =>
      if Qltb 0 v then Ok (with_clock_slew tm v)
      else Raised (ValueError MustBePositive)
  | None =>
      if is_auto value then
        match in_slews tm with
        | [] => Raised (ValueError AutoNeedsSlews)
        | s :: rest => Ok (with_clock_slew tm (py_min s rest))
        end
      else Raised TypeError
  end.

(** [d.get(key)] on a settings dictionary: [None] for a missing key. *)
Definition dict_get (d : gmap string pyval) (key : string) : pyval :=
  default PyNone (d !! key).

(** The three assignments [SequentialTestManager.__init__] makes from
    the 'setup' dictionary, in their order. *)
Definition configure_setup (tm : SequentialTestManager)
    (setup : gmap string pyval) : result SequentialTestManager :=
  tm ← set_sim_setup_highest tm (dict_get setup "highest");
  tm ← set_sim_setup_lowest tm (dict_get setup "lowest");
  set_sim_setup_timestep tm (dict_get setup "timestep").

(** The same from the 'hold' dictionary. *)
Definition configure_hold (tm : SequentialTestManager)
    (hold : gmap string pyval) : result SequentialTestManager :=
  tm ← set_sim_hold_highest tm (dict_get hold "highest");
  tm ← set_sim_hold_lowest tm (dict_get hold "lowest");
  set_sim_hold_timestep tm (dict_get hold "timestep").

(** The end of [SequentialTestManager.__init__]: the 'simulation'
    keyword, when given, with its 'setup' and 'hold' parts, when
    present. *)
Definition configure_simulation (tm : SequentialTestManager)
    (simulation : option (gmap string (gmap string pyval)))
    : result SequentialTestManager :=
  match simulation with
  | None => Ok tm
  | Some sim =>
      tm ← match sim !! "setup"%string with
           | Some setup => configure_setup tm setup
           | None => Ok tm
           end;
      match sim !! "hold"%string with
      | Some hold => configure_hold tm hold
      | None => Ok tm
      end
  end.

(** ** Sequential test vectors *)

(** The edge-triggered pins and registers of a sequential manager that
    its test vectors depend on; a trigger is [None] when the cell has no
    such pin. *)
Record SequentialPins := {
  clock_trigger : string;
  set_trigger : option string;
  reset_trigger : option string;
  flops : list string;
}.

Definition inactive_level (trigger : string) : string :=
  if bool_decide (trigger = "posedge"%string) then "0"%string else "1"%string.

(** The body of the innermost loop of
    [SequentialTestManager.test_vectors].  Pins are told apart by name,
    as the pins of a cell are. *)
Definition seq_test_vector (pins : SequentialPins) (ins outs : list string)
    (q_target d_target direction : string) : test_vector :=
  [if bool_decide (clock_trigger pins = "posedge"%string)
   then "0101"%string else "1010"%string]
  ++ option_list (inactive_level <$> set_trigger pins)
  ++ option_list (inactive_level <$> reset_trigger pins)
  ++ ((fun _ => "0"%string) <$> flops pins)
  ++ ((fun d => if bool_decide (d = d_target) then direction else "0"%string)
        <$> ins)
  ++ ((fun q => if bool_decide (q = q_target) then direction else "0"%string)
        <$> outs).

(** [SequentialTestManager.test_vectors]: the stored vectors when there
    are any, else one rise and one fall vector per D->Q path. *)
Definition seq_test_vectors (stored : list test_vector) (pins : SequentialPins)
    (ins outs : list string) : list test_vector :=
  match stored with
  | _ :: _ => stored
  | [] =>
      q_target ← outs; d_target ← ins;
      direction ← ["01"%string; "10"%string];
      [seq_test_vector pins ins outs q_target d_target direction]
  end.

(** The transition code of a direction. *)
Definition direction_code (direction : string) : string :=
  if is_rise direction then "01"%string else "10"%string.

(** ** The characterizer *)

(** [Characterizer], with the cells it keeps; what a cell is, and how it
    is characterized, is the business of its class. *)
Record Characterizer (C : Type) := {
  cells : list C;
  num_files_generated : nat;
}.
Arguments cells {C} _.
Arguments num_files_generated {C} _.

(** [Characterizer.__init__] *)
Definition new_characterizer {C : Type} : Characterizer C :=
  {| cells := []; num_files_generated := 0 |}.

(** [last_cell]: [self.cells[-1]] *)
Definition last_cell {C : Type} (ch : Characterizer C) : result C :=
  match last (cells ch) with
  | Some c => Ok c
  | None => Raised IndexError
  end.

(** [add_cell] and [add_flop], given the cell they construct. *)
Definition add_cell {C : Type} (ch : Characterizer C) (c : C) : Characterizer C :=
  {| cells := cells ch ++ [c];
     num_files_generated := num_files_generated ch |}.

(** [Characterizer.characterize]: the cells passed as arguments, or
    every cell when none is passed, each characterized in turn by [run]. *)
Definition characterize {C : Type} (run : C -> M unit) (ch : Characterizer C)
    (given : list C) : M unit :=
  for_each (match given with [] => cells ch | _ :: _ => given end) tt
    (fun _ cell => run cell).

(** ** Further notions used in the statements *)

(** Consecutive elements of a list are related by [R]. *)
Fixpoint chain {A : Type} (R : A -> A -> Prop) (l : list A) : Prop :=
  match l with
  | a :: (b :: _) as rest => R a b ∧ chain R rest
  | _ => True
  end.

(** The times of a piecewise-linear source. *)
Definition pwl_times (points : list (Q * Q)) : list Q := fst <$> points.

(** ** More example data *)

Definition ex_netlist : list string :=
  ["* inverter and buffer";
   ".subckt INVX2 A Y VDD VSS";
   "xm1 Y A VDD VDD pfet w=2 l=1";
   ".ends";
   ".subckt inv a y vdd vss";
   "Xm0 y a vss vss nfet w=1 l=1";
   ".ends"]%string.

Definition ex_dff_pins : SequentialPins :=
  {| clock_trigger := "posedge"; set_trigger := None;
     reset_trigger := Some "negedge"%string; flops := ["IQ"%string] |}.

Definition ex_auto : gmap string pyval :=
  <["highest"%string := PyStr "auto"]>
    (<["lowest"%string := PyStr "auto"]>
       (<["timestep"%string := PyStr "auto"]> ∅)).

(** ** Further definitions of the sequential manager *)

(** The trigger and the pin name of the set, reset and clock pins. *)
Record TriggeredPins := {
  parsed_set : string * string;
  parsed_reset : string * string;
  parsed_clock : string * string;
}.

(** The pin assignments of [SequentialTestManager.__init__], in their
    order: [self.set = kwargs.get('set')], [self.reset =
    kwargs.get('reset')], [self.clock = clock].  Each goes through
    [_parse_triggered_pin]; a keyword that is not given reaches it as
    [None]. *)
Definition init_triggered_pins (set reset : option pyval) (clock : pyval)
    : pin_error + TriggeredPins :=
  match _parse_triggered_pin (default PyNone set) with
  | inl e => inl e
  | inr s =>
      match _parse_triggered_pin (default PyNone reset) with
      | inl e => inl e
      | inr r =>
          match _parse_triggered_pin clock with
          | inl e => inl e
          | inr c => inr {| parsed_set := s; parsed_reset := r;
                            parsed_clock := c |}
          end
      end
  end.

(** The [definition] field of a manager whose netlist file has the
    given lines. *)
Definition read_definition (name : string) (lines : list string)
    : option (list string) :=
  match definition_tokens name lines with
  | Ok tokens => Some tokens
  | Raised _ => None
  end.

(** A word of [str.split()]: not empty, no whitespace in it. *)
Definition is_word (t : string) : Prop :=
  t ≠ EmptyString ∧ all_chars (fun c => negb (is_space c)) t = true.

(** The condition of the loop in [TestManager.definition]. *)
Definition defines (name line : string) : bool :=
  contains name (upper line) && contains "SUBCKT" (upper line).

(** A cell whose subcircuit has 257 ports. *)
Definition ex_wide : TestManager :=
  {| cell_name := "WIDE"; in_ports := ["A"%string]; out_ports := ["Y"%string];
     definition := Some ("WIDE"%string :: replicate 257 "A"%string);
     _in_slews := [1 # 10]; _out_loads := [1 # 100];
     _sim_timestep := 1 # 100;
     test_vectors := [] |}.

(** The first inverter of the example netlist, and a harness for it
    whose pins are named in lower case. *)
Definition ex_invx2 : TestManager :=
  {| cell_name := "INVX2"; in_ports := ["a"%string]; out_ports := ["y"%string];
     definition := read_definition "INVX2" ex_netlist;
     _in_slews := [1 # 10]; _out_loads := [1 # 100];
     _sim_timestep := 1 # 100;
     test_vectors := [["01"; "10"]]%string |}.

Definition ex_lower_harness : Harness :=
  {| target_in_port := {| pin_name := "a"; state := "01" |};
     target_out_port := {| pin_name := "y"; state := "10" |};
     in_direction := "rise"; out_direction := "fall";
     stable_in_ports := []; nontarget_out_ports := [];
     clock := None; set_port := None; reset_port := None;
     timing_type_clock := "";
     results := ∅ |}.

(** [h'] is [h] but for the results, and its results are those of [h]
    outside the slot [(k1, k2)]. *)
Definition same_but_slot (k1 k2 : string) (h h' : Harness) : Prop :=
  (h' = h ∨ ∃ r, h' = with_results h r)
  ∧ ∀ a b, (a, b) ≠ (k1, k2) → lookup_result h' a b = lookup_result h a b.

(** The wiring of one port does not look at the connections made so far:
    it appends to them what it would make of the empty list. *)
Definition appended (conns : list string) (r : result (list string))
    : result (list string) :=
  match r with
  | Ok added => Ok (conns ++ added)
  | Raised e => Raised e
  end.

(** What a search setter takes without raising: 'auto' or a positive
    number. *)
Definition accepted (v : pyval) : Prop :=
  is_auto v = true ∨ ∃ q, as_number v = Some q ∧ 0 < q.

(** The simulator calls a computation adds to the log. *)
Definition new_calls {A : Type} (log : list sim_call)
    (r : result A * list sim_call) : list sim_call :=
  drop (length log) r.2.

(** Every piecewise-linear source of a request goes forward in time and
    ends with the run. *)
Definition sources_advance (req : TrialRequest) : Prop :=
  Forall (fun source => chain Qle (pwl_times source.2)
                        ∧ last (pwl_times source.2) = Some (end_time req))
    (pwl_sources req).

Definition transient_calls_advance (calls : list sim_call) : Prop :=
  Forall (fun c => match c with
                   | Transient req => sources_advance req
                   | AcSweep _ _ _ => True
                   end) calls.

(** The vector of an arc and direction, and the place of the data
    inputs in a vector. *)
Definition arc_test_vector (pins : SequentialPins) (ins outs : list string)
    (arc : string * string * string) : test_vector :=
  seq_test_vector pins ins outs arc.1.1 arc.1.2 (direction_code arc.2).

Definition data_offset (pins : SequentialPins) : nat :=
  (1 + length (option_list (set_trigger pins))
   + length (option_list (reset_trigger pins)) + length (flops pins))%nat.

(** The cells [Characterizer.characterize] goes through. *)
Definition targets {C : Type} (ch : Characterizer C) (given : list C) : list C :=
  match given with [] => cells ch | _ :: _ => given end.

(** Settings that run the trials in threads. *)
Definition ex_threaded_settings : LibrarySettings :=
  {| vdd_name := "vdd"; vdd_voltage := 1; vss_name := "vss"; vss_voltage := 0;
     units_time := 1; units_voltage := 1; units_capacitance := 1;
     simulator := "ngspice-subprocess"; use_multithreaded := true;
     logic_low_to_high_threshold_voltage := 6 # 10;
     logic_high_to_low_threshold_voltage := 4 # 10;
     logic_threshold_low_voltage := 2 # 10;
     logic_threshold_high_voltage := 8 # 10 |}.

(** A run that fails on the cell 2 and logs every other cell. *)
Definition ex_run (cell : nat) : M unit :=
  fun log =>
    if (cell =? 2)%nat then (Raised TypeError, log)
    else (Ok tt, log ++ [AcSweep (pretty cell) "" []]).

(** * Float arithmetic

    Python's floats are binary64 numbers: an operation gives the exact
    result rounded to the nearest number with a 53-bit mantissa, ties to
    the even mantissa.  The exponent is not bounded here: every value
    that occurs is taken to lie within the range of the normal numbers,
    so that nothing overflows or becomes subnormal. *)

(** The nearest integer, ties to the even one. *)
Definition round_half_even (q : Q) : Z :=
  let f := Qfloor q in
  match Qcompare (q - inject_Z f) (1 # 2) with
  | Lt => f
  | Gt => (f + 1)%Z
  | Eq => if Z.even f then f else (f + 1)%Z
  end.

(** The exponent of the leading bit of a positive number:
    [floor(log2 q)]. *)
Definition ilog2 (q : Q) : Z :=
  let c := (Z.log2 (Qnum q) - Z.log2 (Zpos (Qden q)))%Z in
  if Qle_bool (2 ^ c) q then c else (c - 1)%Z.

(** A positive number rounded to 53 bits. *)
Definition round_pos (q : Q) : Q :=
  let e := (ilog2 q - 52)%Z in
  inject_Z (round_half_even (q / 2 ^ e)) * 2 ^ e.

(** Rounding to the nearest binary64 number. *)
Definition round64 (q : Q) : Q :=
  match Qcompare q 0 with
  | Eq => 0
  | Gt => round_pos q
  | Lt => - round_pos (- q)
  end.

(** 2^-53, half the distance from 1 to the next float. *)
Definition unit_roundoff : Q := 1 # 9007199254740992.

(** The arithmetic a computation on floats is run with: the rounding
    applied to the exact result of each operation. *)
Class FloatArith := {
  rnd : Q -> Q;
}.

(** Python's arithmetic, each float kept as a fraction in lowest terms,
    and arithmetic without rounding. *)
Definition binary64 : FloatArith := {| rnd := fun q => Qred (round64 q) |}.
Definition exact_arith : FloatArith := {| rnd := fun q => q |}.

(** The float that a decimal literal [x] denotes. *)
Definition float_of (q : Q) : Q := Qred (round64 q).

(** What the proofs about the searches take from float arithmetic: a
    rounding that respects equality, has a relative error of at most
    [eps], is monotone, leaves its results unchanged and commutes with
    halving. *)
Record RoundingLaws (rnd : Q -> Q) (eps : Q) : Prop := {
  eps_small : 0 <= eps ∧ eps <= 1 # 1024;
  rnd_eq : ∀ x y, x == y → rnd x == rnd y;
  rnd_close : ∀ x, Qabs (rnd x - x) <= eps * Qabs x;
  rnd_mono : ∀ x y, x <= y → rnd x <= rnd y;
  rnd_idem : ∀ x, rnd (rnd x) == rnd x;
  rnd_half : ∀ x, rnd (x / 2) == rnd x / 2;
}.

(** ** The searches on floats

    [_find_setup_time] and [_find_hold_time] once more, now with every
    operation on the bounds rounded as the arithmetic says.  With
    [exact_arith] these are the searches defined above. *)
Module Rounded.
Section arith.
Context `{FloatArith}.

(** [(t_max + t_min) / 2] *)
Definition midpoint (t_max t_min : Q) : Q := rnd (rnd (t_max + t_min) / 2).

(** One pass through the body of the [while] loop; [threshold] is
    [self.sim_setup_timestep * settings.units.time]. *)
Definition search_step (trial : Q -> M analysis) (threshold : Q)
    (k1 k2 : string) (st : search_state) : M (search_state * bool) :=
  let t := midpoint (t_max st) (t_min st) in
  '(failed, harness) ← try_trial trial k1 k2 (harness_now st) t;
  (* failed or harness.results[..][..]['prop_in_out'] > prev_t_prop *)
  worse ← (if failed : bool then mret true
           else match lookup_result harness k1 k2 with
                | Some a => mret (Qltb (prev_t_prop st) (prop_in_out a))
                | None => raise KeyError
                end);
  let '(t_min', t_max') :=
    if worse : bool then (t, t_max st) else (t_min st, t) in
  (* if not abs(t - (t_max + t_min)/2) > threshold: break *)
  if negb (Qltb threshold (Qabs (rnd (t - midpoint t_max' t_min')))) then
    mret ({| t_min := t_min'; t_max := t_max';
             prev_t_prop := prev_t_prop st; t_found := Some t;
             harness_now := harness;
             iterations := S (iterations st) |}, true)
  else
    let prev :=
      match lookup_result harness k1 k2 with
      | Some a => prop_in_out a
      | None => prev_t_prop st      (* except KeyError: pass *)
      end in
    mret ({| t_min := t_min'; t_max := t_max';
             prev_t_prop := prev; t_found := Some t;
             harness_now := harness;
             iterations := S (iterations st) |}, false).

(** The [while t_min <= t_max] loop, run for at most [fuel] iterations;
    [None] when the fuel runs out before the loop ends. *)
Fixpoint search_loop (fuel : nat) (trial : Q -> M analysis) (threshold : Q)
    (k1 k2 : string) (st : search_state) : MF search_state :=
  if Qle_bool (t_min st) (t_max st) then
    match fuel with
    | O => mret None
    | S fuel' =>
        '(st', stop) ← search_step trial threshold k1 k2 st;
        if stop : bool then mret (Some st')
        else search_loop fuel' trial threshold k1 k2 st'
    end
  else mret (Some st).

(** The assignments before the loop:
    [t_max = (highest + timestep) * units],
    [t_min = (lowest - timestep) * units] and [prev_t_prop = 1.0]. *)
Definition initial_state (highest lowest timestep units : Q)
    (harness : Harness) : search_state :=
  {| t_max := rnd (rnd (highest + timestep) * units);
     t_min := rnd (rnd (lowest - timestep) * units);
     prev_t_prop := 1;
     t_found := None;
     harness_now := harness;
     iterations := O |}.

(** The search common to [_find_setup_time] and [_find_hold_time]. *)
Definition binary_search (fuel : nat) (trial : Q -> M analysis)
    (highest lowest timestep units : Q) (k1 k2 : string) (harness : Harness)
    : MF search_result :=
  r ← search_loop fuel trial (rnd (timestep * units)) k1 k2
        (initial_state highest lowest timestep units harness);
  match r with
  | None => mret None
  | Some st =>
      match t_found st with
      | Some t => mret (Some {| found := t; harness_after := harness_now st;
                                trials := iterations st |})
      | None => raise UnboundLocalError
      end
  end.

(** [SequentialTestManager._find_setup_time] *)
Definition _find_setup_time `{Simulator} `{PyFormat} (fuel : nat)
    (settings : LibrarySettings) (tm : SequentialTestManager)
    (harness : Harness) (slew load t_hold : Q) : MF search_result :=
  binary_search fuel
    (fun t_setup => seq_run_delay_trial settings tm harness slew load t_setup t_hold)
    (_sim_setup_highest tm) (_sim_setup_lowest tm) (_sim_setup_timestep tm)
    (units_time settings) (str_float slew) (str_float load) harness.

(** [SequentialTestManager._find_hold_time] *)
Definition _find_hold_time `{Simulator} `{PyFormat} (fuel : nat)
    (settings : LibrarySettings) (tm : SequentialTestManager)
    (harness : Harness) (slew load t_setup : Q) : MF search_result :=
  binary_search fuel
    (fun t_hold => seq_run_delay_trial settings tm harness slew load t_setup t_hold)
    (_sim_hold_highest tm) (_sim_hold_lowest tm) (_sim_hold_timestep tm)
    (units_time settings) (str_float slew) (str_float load) harness.

End arith.
End Rounded.

(** ** Notions used in the statements about the searches *)

(** One pass of a search: the time tried, the result of the trial
    ([None] when the simulator did not converge) and the two bounds
    after the pass. *)
Record search_pass := {
  tried : Q;
  measured : option analysis;
  min_after : Q;
  max_after : Q;
}.

(** What a trial leaves to be stored: its result, or nothing when it
    raised. *)
Definition outcome (r : result analysis) : option analysis :=
  match r with
  | Ok a => Some a
  | Raised _ => None
  end.

(** The result a slot holds after a pass, and the delay the next pass
    compares with: the delay of the result in the slot, and the delay
    compared with before when the slot is empty. *)
Definition slot_after (stored : option analysis) (p : search_pass)
    : option analysis :=
  match measured p with
  | Some a => Some a
  | None => stored
  end.

Definition prev_after (prev : Q) (stored : option analysis) (p : search_pass)
    : Q :=
  match slot_after stored p with
  | Some a => prop_in_out a
  | None => prev
  end.

(** Modelled from the spec: each pass tries the middle of the bounds
    the pass before it left; when the trial does not converge, or
    measures a delay larger than the delay compared with, the lower
    bound moves up to the time tried, otherwise the upper bound moves
    down to it. *)
Fixpoint passes_follow_rule `{FloatArith} (prev t_min t_max : Q)
    (stored : option analysis) (passes : list search_pass) : Prop :=
  match passes with
  | [] => True
  | p :: rest =>
      tried p = Rounded.midpoint t_max t_min
      ∧ (if match measured p with
            | None => true
            | Some a => Qltb prev (prop_in_out a)
            end
         then min_after p = tried p ∧ max_after p = t_max
         else min_after p = t_min ∧ max_after p = tried p)
      ∧ passes_follow_rule (prev_after prev stored p)
          (min_after p) (max_after p) (slot_after stored p) rest
  end.

(** The distance, as computed, from the time a pass tried to the time
    the next pass would try. *)
Definition gap_after `{FloatArith} (p : search_pass) : Q :=
  Qabs (rnd (tried p - Rounded.midpoint (max_after p) (min_after p))).

(** The passes of a search that returned: the search went on after
    every pass but the last, the distance to the next time being above
    the threshold, and broke off after the last, where it is not. *)
Fixpoint breaks_at_last `{FloatArith} (threshold : Q)
    (passes : list search_pass) : Prop :=
  match passes with
  | [] => False
  | p :: rest =>
      match rest with
      | [] => gap_after p <= threshold
      | _ :: _ => threshold < gap_after p ∧ breaks_at_last threshold rest
      end
  end.



(** A pass records the trial made at its time: the result measured,
    or none when the trial raised [NameError] or a subclass of it.  The
    trial is run on an empty log, its outcome does not depend on the
    log. *)
Definition pass_of_trial (trial : Q -> M analysis) (p : search_pass) : Prop :=
  match (trial (tried p) []).1 with
  | Ok a => measured p = Some a
  | Raised e => is_NameError e = true ∧ measured p = None
  end.

(** The simulator calls of a list of passes, in order. *)
Definition calls_of (trial : Q -> M analysis) (passes : list search_pass)
    : list sim_call :=
  concat ((fun p => (trial (tried p) []).2) <$> passes).


(** The magnitude condition under which rounding cannot cost more than
    one pass: the timestep is at least 32 roundoff units of the widened
    bounds. *)
Definition timestep_resolved (eps highest lowest timestep : Q) : Prop :=
  32 * eps * (Qabs (highest + timestep) + Qabs (lowest - timestep))
  <= timestep.

(** Magnitudes at which no operation of a search overflows or
    underflows in binary64, so that [round64] is the rounding Python
    applies: bounds up to 2^500 and a timestep from 2^-500 to 2^500,
    with a time unit from 2^-400 to 2^400.  Together with
    [timestep_resolved], which limits a search to some fifty passes,
    this keeps every sum, product and midpoint either a normal number
    or one that binary64 holds exactly. *)
Definition plain_magnitudes (highest lowest timestep units : Q) : Prop :=
  Qabs highest <= 2 ^ 500 ∧ Qabs lowest <= 2 ^ 500
  ∧ 2 ^ (-500) <= timestep ∧ timestep <= 2 ^ 500
  ∧ 2 ^ (-400) <= units ∧ units <= 2 ^ 400.

(** What is proved of the number of passes and of the time returned:
    the search ends within one pass more than
    [max 1 (iteration_bound ..)], on a time between the two bounds as
    the code computes them, and each computed bound is within three
    roundoff units of the exact one. *)
Definition search_bounded `{FloatArith} (eps : Q)
    (highest lowest timestep units : Q)
    (r : result (option search_result) * list sim_call) : Prop :=
  let low := rnd (rnd (lowest - timestep) * units) in
  let high := rnd (rnd (highest + timestep) * units) in
  ends_within (S (Nat.max 1 (iteration_bound highest lowest timestep)))
    low high r
  ∧ Qabs (low - (lowest - timestep) * units)
    <= 3 * (eps * (Qabs (lowest - timestep) * units))
  ∧ Qabs (high - (highest + timestep) * units)
    <= 3 * (eps * (Qabs (highest + timestep) * units)).

(** ** Example searches on floats *)

(** The flip-flop with bounds 1.2 and 1.0 and timestep 0.1. *)
Definition ex_seq_tenths : SequentialTestManager :=
  ex_flop ex_flop_ports (float_of (12 # 10)) 1 (float_of (1 # 10)).

(** The time at which the clock starts its first edge in a trial. *)
Definition ex_first_edge (req : TrialRequest) : Q :=
  match pwl_sources req with
  | (_, _ :: (t, _) :: _) :: _ => t
  | _ => 0
  end.

(** A simulator that does not converge when the first clock edge
    starts at 7/2 or earlier, and otherwise reports a delay that falls
    as the edge comes later. *)
Definition ex_marginal_simulator : Simulator :=
  {| transient := fun req =>
       if Qle_bool (ex_first_edge req) (7 # 2) then None
       else Some {| prop_in_out := Qred (/ ex_first_edge req);
                    trans_out := 1 # 100 |};
     ac_capacitance := fun _ _ _ => Some (1 # 1000) |}.

(** * Worst-case selection, as specified *)

(** Modelled from the spec: the harnesses among which the worst case of
    an arc and direction is chosen are those whose target ports are the
    two pins and whose output direction is the direction. *)
Definition arc_matches (in_port out_port direction : string) (h : Harness)
    : Prop :=
  pin_name (target_in_port h) = in_port
  ∧ pin_name (target_out_port h) = out_port
  ∧ out_direction h = direction.

(** Modelled from the spec: [worst] sits in the list of all harnesses
    after [before] and ahead of [after] and is one of those that
    [matches]; among these, it has a larger average delay than every
    harness before it and at least the average delay of every harness
    after it: the largest average, and on a tie the first harness
    met. *)
Definition first_largest_among `{HarnessModule} (matches : Harness -> Prop)
    (unsorted before : list Harness) (worst : Harness) (after : list Harness)
    : Prop :=
  unsorted = before ++ worst :: after
  ∧ matches worst
  ∧ Forall (fun h => matches h → average_propagation_delay h
                                 < average_propagation_delay worst) before
  ∧ Forall (fun h => matches h → average_propagation_delay h
                                 <= average_propagation_delay worst) after.

(** The harness [h] with another target input pin. *)
Definition ex_from_pin (pin : string) (h : Harness) : Harness :=
  {| target_in_port := ex_port pin (state (target_in_port h));
     target_out_port := target_out_port h;
     in_direction := in_direction h; out_direction := out_direction h;
     stable_in_ports := stable_in_ports h;
     nontarget_out_ports := nontarget_out_ports h;
     clock := clock h; set_port := set_port h; reset_port := reset_port h;
     timing_type_clock := timing_type_clock h; results := results h |}.

(** Harnesses of a cell with inputs A and B and output Y: B -> Y
    falling with average delay 5, A -> Y falling with 1, 2 and 2,
    A -> Y rising with 3 and B -> Y rising with 1. *)
Definition ex_two_inputs : list Harness :=
  ex_measured (ex_from_pin "B" ex_inv_fall) 5
  :: ex_three
  ++ [ex_measured ex_inv_rise 3; ex_measured (ex_from_pin "B" ex_inv_rise) 1].
(** * Properties *)

(** ** Rational arithmetic *)

Ltac q_arith :=
  unfold Qdiv in *;
  change (/ 2) with (1 # 2) in *; change (/ 4) with (1 # 4) in *;
  lra.

Lemma Qltb_lt a b : Qltb a b = true <-> a < b.
Proof.
  unfold Qltb. rewrite negb_true_iff. split.
  - intros H. apply Qnot_le_lt. intros Hle.
    apply Qle_bool_iff in Hle. congruence.
  - intros H. destruct (Qle_bool b a) eqn:E; [|reflexivity].
    apply Qle_bool_iff in E. exfalso. lra.
Qed.

Lemma Qltb_ge a b : Qltb a b = false <-> b <= a.
Proof.
  unfold Qltb. rewrite negb_false_iff. apply Qle_bool_iff.
Qed.

Lemma pow2_pos n : 0 < pow2 n.
Proof.
  unfold pow2. change 0 with (inject_Z 0). rewrite <- Zlt_Qlt.
  apply Z.pow_pos_nonneg; lia.
Qed.

Lemma pow2_S n : pow2 (S n) == 2 * pow2 n.
Proof.
  unfold pow2. rewrite Nat2Z.inj_succ, Z.pow_succ_r by lia.
  rewrite inject_Z_mult. reflexivity.
Qed.

Lemma pow2_mono n m : (n <= m)%nat → pow2 n <= pow2 m.
Proof.
  intros H. unfold pow2. rewrite <- Zle_Qle.
  apply Z.pow_le_mono_r; lia.
Qed.

(** [ceil_log2 r] is an exponent that reaches [r] ... *)
Lemma ceil_log2_spec r : r <= pow2 (ceil_log2 r).
Proof.
  unfold ceil_log2, pow2.
  eapply Qle_trans; [apply Qle_ceiling|]. rewrite <- Zle_Qle.
  rewrite Z2Nat.id by apply Z.log2_up_nonneg.
  destruct (Z_lt_le_dec 1 (Qceiling r)) as [H1|H1].
  - apply Z.log2_up_spec. exact H1.
  - rewrite Z.log2_up_eqn0 by exact H1. simpl. exact H1.
Qed.

(** ... and the least one. *)
Lemma ceil_log2_least r n : r <= pow2 n → (ceil_log2 r <= n)%nat.
Proof.
  unfold ceil_log2, pow2. intros H.
  assert (Hc : (Qceiling r <= 2 ^ Z.of_nat n)%Z).
  { rewrite <- (Qceiling_Z (2 ^ Z.of_nat n)). by apply Qceiling_resp_le. }
  destruct (Z_lt_le_dec 0 (Qceiling r)) as [H0|H0].
  - apply Z.log2_up_le_mono in Hc.
    rewrite Z.log2_up_pow2 in Hc by lia. lia.
  - rewrite Z.log2_up_eqn0 by lia. simpl. lia.
Qed.

Lemma Qdiv_le_mult a c b : 0 < c → a / c <= b → a <= b * c.
Proof.
  intros Hc H.
  assert (E : a == a / c * c) by (field; lra).
  rewrite E. apply Qmult_le_compat_r; lra.
Qed.

(** ** Configuration setters *)

(** C9, as the code has it: [add_in_slew] and [add_out_load] validate
    nothing.  Every number, positive or not, is appended at the end of
    its list and the call returns. *)
Theorem add_slew_and_load_append_any_value (tm : TestManager) (value : Q) :
  (∃ tm', add_in_slew tm value = Ok tm'
          ∧ _in_slews tm' = _in_slews tm ++ [value]
          ∧ _out_loads tm' = _out_loads tm)
  ∧ (∃ tm', add_out_load tm value = Ok tm'
            ∧ _out_loads tm' = _out_loads tm ++ [value]
            ∧ _in_slews tm' = _in_slews tm).
Proof.
  split; eexists; (split; [reflexivity|]); by split.
Qed.

(** C9 fails as stated: the non-positive slew rate -1 and the load 0 are
    stored. *)
Lemma add_in_slew_stores_nonpositive :
  -(1) <= 0 ∧ 0 <= 0
  ∧ (∃ tm', add_in_slew ex_inv (-(1)) = Ok tm'
            ∧ _in_slews tm' = [1 # 10; -(1)])
  ∧ (∃ tm', add_out_load ex_inv 0 = Ok tm'
            ∧ _out_loads tm' = [1 # 100; 2 # 100; 0]).
Proof.
  split; [lra|]. split; [lra|].
  split; eexists; (split; reflexivity).
Qed.

(** C6, evaluated on the flip-flop with slew rates [1] and hold bounds 2
    and 1: setting [sim_hold_highest] to ['auto'] leaves the upper bound
    at 2 and overwrites the lower bound with 10 times the largest slew
    rate. *)
Theorem sim_hold_highest_auto_overwrites_lowest :
  in_slews ex_seq = [1]
  ∧ _sim_hold_highest ex_seq = 2 ∧ _sim_hold_lowest ex_seq = 1
  ∧ ∃ tm', set_sim_hold_highest ex_seq (PyStr "auto") = Ok tm'
           ∧ _sim_hold_highest tm' = 2
           ∧ _sim_hold_lowest tm' = 10.
Proof.
  split; [reflexivity|]. split; [reflexivity|]. split; [reflexivity|].
  eexists. split; [reflexivity|]. split; reflexivity.
Qed.

(** The sibling setter of the setup bound does assign the upper bound. *)
Example sim_setup_highest_auto_assigns_highest :
  ∃ tm', set_sim_setup_highest ex_seq (PyStr "auto") = Ok tm'
         ∧ _sim_setup_highest tm' = 10
         ∧ _sim_setup_lowest tm' = 1.
Proof.
  eexists. split; [reflexivity|]. split; reflexivity.
Qed.

Lemma explicit_call_keeps_lower_bounds tm c :
  explicit_call c = true → lower_bounds_nonneg tm →
  ∀ tm', apply_call tm c = Ok tm' → lower_bounds_nonneg tm'.
Proof.
  unfold lower_bounds_nonneg, explicit_call. intros Hc [Hs Hh] tm'.
  destruct c as [v|v|v|v|v|v|q|q]; cbn [apply_call call_value] in *;
    try (intros [= <-]; by split);
    apply negb_true_iff in Hc;
    unfold set_sim_setup_highest, set_sim_setup_lowest, set_sim_setup_timestep,
      set_sim_hold_highest, set_sim_hold_lowest, set_sim_hold_timestep;
    rewrite Hc;
    (destruct (as_number v) as [q|]; [|done]);
    (destruct (Qltb 0 q) eqn:E; [|done]); apply Qltb_lt in E;
    intros [= <-]; cbn; split; lra.
Qed.

Lemma explicit_calls_keep_lower_bounds cs : ∀ tm,
  Forall (fun c => explicit_call c = true) cs → lower_bounds_nonneg tm →
  lower_bounds_nonneg (apply_calls tm cs).
Proof.
  induction cs as [|c cs IH]; intros tm Hall Htm; [done|].
  apply Forall_cons in Hall as [Hc Hall]. unfold apply_calls. cbn [fold_left].
  apply IH; [done|].
  destruct (apply_call tm c) as [tm'|e] eqn:E; [|done].
  by eapply explicit_call_keeps_lower_bounds.
Qed.

(** C10: the setters of [sim_setup_lowest] and [sim_hold_lowest] raise
    [ValueError] for every number less than or equal to zero; and after
    any sequence of configuration calls on a fresh manager, none of which
    passes ['auto'], neither lower bound is negative. *)
Theorem lower_bound_negative_only_by_auto
    (tm : SequentialTestManager) (v : pyval) (q : Q)
    (b : TestManager) (clock : string) (set reset : option string)
    (cs : list setter_call) :
  as_number v = Some q → q <= 0 →
  Forall (fun c => explicit_call c = true) cs →
  set_sim_setup_lowest tm v = Raised (ValueError MustBePositive)
  ∧ set_sim_hold_lowest tm v = Raised (ValueError MustBePositive)
  ∧ lower_bounds_nonneg (apply_calls (init_sequential b clock set reset) cs).
Proof.
  intros Hv Hq Hcs. apply Qltb_ge in Hq.
  unfold set_sim_setup_lowest, set_sim_hold_lowest. rewrite Hv, Hq.
  split_and!; [done..|].
  apply explicit_calls_keep_lower_bounds; [done|].
  split; cbn; lra.
Qed.

Lemma lower_bound_negative_only_by_auto_witness :
  as_number (PyInt (-3)) = Some (-(3)) ∧ -(3) <= 0
  ∧ Forall (fun c => explicit_call c = true)
      [SetSetupLowest (PyInt (-3)); SetHoldLowest (PyFloat (1 # 2));
       AddInSlew (-(1)); SetHoldHighest (PyFloat 4); SetSetupLowest PyNone]
  ∧ set_sim_setup_lowest ex_seq (PyInt (-3)) = Raised (ValueError MustBePositive)
  ∧ set_sim_hold_lowest ex_seq (PyInt (-3)) = Raised (ValueError MustBePositive)
  ∧ lower_bounds_nonneg
      (apply_calls (init_sequential (ex_dff ex_flop_ports) "CLK" None None)
         [SetSetupLowest (PyInt (-3)); SetHoldLowest (PyFloat (1 # 2));
          AddInSlew (-(1)); SetHoldHighest (PyFloat 4); SetSetupLowest PyNone]).
Proof.
  split; [reflexivity|]. split; [by vm_compute|].
  split; [by repeat constructor|].
  apply (lower_bound_negative_only_by_auto ex_seq (PyInt (-3)) (-(3))).
  - reflexivity.
  - by vm_compute.
  - by repeat constructor.
Defined.

(** With ['auto'] the lower bound does become negative. *)
Example sim_setup_lowest_auto_is_negative :
  ∃ tm', set_sim_setup_lowest ex_seq (PyStr "auto") = Ok tm'
         ∧ _sim_setup_lowest tm' = -(10).
Proof.
  eexists. split; reflexivity.
Qed.

(** ** Wiring *)

Lemma wire_stable_port_absent port stable conns :
  port ∉ map pin_name stable → wire_stable_port port stable conns = Ok conns.
Proof.
  induction stable as [|p rest IH]; intros Hnot; [done|].
  cbn [wire_stable_port]. rewrite bool_decide_eq_false_2.
  - apply IH. intros Hin. apply Hnot. cbn. by right.
  - intros ->. apply Hnot. cbn. by left.
Qed.

Lemma wire_stable_port_length port stable conns :
  NoDup (map pin_name stable) →
  Forall (fun p => state p = "0"%string ∨ state p = "1"%string) stable →
  ∃ conns', wire_stable_port port stable conns = Ok conns'
            ∧ (length conns' <= S (length conns))%nat.
Proof.
  revert conns. induction stable as [|p rest IH]; intros conns Hnd Hst.
  - exists conns. split; [done|lia].
  - cbn [map] in Hnd. apply NoDup_cons in Hnd as [Hp Hnd].
    apply Forall_cons in Hst as [Hs Hst].
    cbn [wire_stable_port]. case_bool_decide as Hport.
    + subst port.
      destruct Hs as [Hs|Hs]; rewrite Hs; repeat case_bool_decide; try done;
        rewrite wire_stable_port_absent by done;
        eexists; (split; [reflexivity|]); rewrite length_app; cbn; lia.
    + by apply IH.
Qed.

Lemma wire_nontarget_port_absent port nontarget conns :
  port ∉ map pin_name nontarget → wire_nontarget_port port nontarget conns = conns.
Proof.
  induction nontarget as [|p rest IH]; intros Hnot; [done|].
  cbn [wire_nontarget_port]. rewrite bool_decide_eq_false_2.
  - apply IH. intros Hin. apply Hnot. cbn. by right.
  - intros ->. apply Hnot. cbn. by left.
Qed.

Lemma wire_nontarget_port_length port nontarget conns :
  NoDup (map pin_name nontarget) →
  (length (wire_nontarget_port port nontarget conns) <= S (length conns))%nat.
Proof.
  revert conns. induction nontarget as [|p rest IH]; intros conns Hnd.
  - cbn. lia.
  - cbn [map] in Hnd. apply NoDup_cons in Hnd as [Hp Hnd].
    cbn [wire_nontarget_port]. case_bool_decide as Hport.
    + subst port. rewrite wire_nontarget_port_absent by done.
      rewrite length_app; cbn; lia.
    + by apply IH.
Qed.

Lemma wire_other_port_length h conns port :
  harness_ok h →
  ∃ conns', wire_other_port h conns port = Ok conns'
            ∧ (length conns' <= S (length conns))%nat
            ∧ (port ∉ map pin_name (stable_in_ports h)
                      ++ map pin_name (nontarget_out_ports h) → conns' = conns).
Proof.
  intros (Hs & Hn & Hv). unfold wire_other_port.
  case_bool_decide as H1; [|case_bool_decide as H2].
  - destruct (wire_stable_port_length port (stable_in_ports h) conns Hs Hv)
      as (c & -> & Hlen).
    exists c. split_and!; [done..|].
    intros Hnot. exfalso. apply Hnot, elem_of_app. by left.
  - eexists. split_and!; [done| |].
    + by apply wire_nontarget_port_length.
    + intros Hnot. exfalso. apply Hnot, elem_of_app. by right.
  - exists conns. split_and!; [done|lia|done].
Qed.

Ltac in_roles :=
  cbn [option_list option_rect fmap option_fmap option_map app] in *;
  repeat progress (rewrite ?elem_of_app, ?elem_of_cons, ?elem_of_nil in * );
  tauto.

Lemma comb_wire_port_length settings h conns port :
  harness_ok h →
  ∃ conns', comb_wire_port settings h conns port = Ok conns'
            ∧ (length conns' <= S (length conns))%nat
            ∧ (port ∉ comb_roles settings h → conns' = conns).
Proof.
  intros Hok. unfold comb_wire_port, comb_roles.
  repeat case_bool_decide;
    try (eexists; split_and!; [done|rewrite length_app; cbn; lia|];
         intros Hnot; exfalso; apply Hnot; subst; in_roles).
  destruct (wire_other_port_length h conns port Hok) as (c & -> & Hlen & Hsame).
  exists c. split_and!; [done..|]. intros Hnot. apply Hsame.
  intros Hin. apply Hnot. in_roles.
Qed.

Lemma for_each_wiring_length (body : list string → string → result (list string))
    (unmatched : string → Prop) :
  (∀ conns port, ∃ conns', body conns port = Ok conns'
                           ∧ (length conns' <= S (length conns))%nat
                           ∧ (unmatched port → conns' = conns)) →
  ∀ ports conns,
    ∃ conns', for_each ports conns body = Ok conns'
              ∧ (length conns' <= length conns + length ports)%nat
              ∧ (Exists unmatched ports →
                 (length conns' < length conns + length ports)%nat).
Proof.
  intros Hbody. induction ports as [|port ports IH]; intros conns.
  - exists conns. split_and!; [done|cbn; lia|].
    intros H. by apply Exists_nil in H.
  - destruct (Hbody conns port) as (c1 & E1 & L1 & S1).
    destruct (IH c1) as (c2 & E2 & L2 & S2).
    exists c2. cbn [for_each]. rewrite E1. cbn. rewrite E2.
    split_and!; [done|cbn; lia|].
    intros Hex. apply Exists_cons in Hex as [Hu|Hex]; cbn.
    + rewrite (S1 Hu) in L2. lia.
    + specialize (S2 Hex). lia.
Qed.

Lemma len_is_not_lt a b : (a < b)%nat → len_is_not a b = true.
Proof.
  intros H. unfold len_is_not.
  destruct (Nat.eqb_spec a b); [lia|done].
Qed.

Lemma comb_trial_unmatched `{Simulator} settings tm h slew load log name ports :
  harness_ok h → definition tm = Some (name :: ports) →
  Exists (fun p => p ∉ comb_roles settings h) ports →
  comb_run_delay_trial settings tm h slew load log
  = (Raised (ValueError UnmatchedPorts), log).
Proof.
  intros Hok Hdef Hex. unfold comb_run_delay_trial.
  destruct (is_rise (in_direction h));
    unfold mbind, M_bind, lift, definition_ports; rewrite Hdef;
    destruct (for_each_wiring_length (comb_wire_port settings h) _
                (fun c p => comb_wire_port_length settings h c p Hok) ports [])
      as (c & -> & _ & Hlt);
    rewrite len_is_not_lt by (apply Hlt, Hex); done.
Qed.

Lemma seq_wire_port_length settings tm h conns port :
  seq_harness_ok tm h →
  ∃ conns', seq_wire_port settings tm h conns port = Ok conns'
            ∧ (length conns' <= S (length conns))%nat
            ∧ (port ∉ seq_roles settings tm h → conns' = conns).
Proof.
  intros (Hok & [c Hc] & Hreset & Hset).
  unfold seq_wire_port, seq_roles, comb_roles. rewrite Hc.
  assert (Hr : reset_name tm = None ∨ ∃ n r, reset_name tm = Some n ∧ reset_port h = Some r).
  { destruct (reset_name tm); [right|by left].
    destruct Hreset as [r ->]; eauto. }
  assert (Hs : set_name tm = None ∨ ∃ n r, set_name tm = Some n ∧ set_port h = Some r).
  { destruct (set_name tm); [right|by left].
    destruct Hset as [r ->]; eauto. }
  destruct Hr as [->|(nr & r & -> & ->)]; destruct Hs as [->|(ns & s & -> & ->)];
    cbn [port_name mbind result_bind];
    repeat case_bool_decide;
    try (eexists; split_and!; [done|rewrite length_app; cbn; lia|];
         intros Hnot; exfalso; apply Hnot; subst; in_roles);
    destruct (wire_other_port_length h conns port Hok) as (c' & -> & Hlen & Hsame);
    exists c'; (split_and!; [done..|]); intros Hnot; apply Hsame;
    intros Hin; apply Hnot; in_roles.
Qed.

Lemma wire_subcircuit_unmatched settings tm h name ports :
  seq_harness_ok tm h → definition (base tm) = Some (name :: ports) →
  Exists (fun p => p ∉ seq_roles settings tm h) ports →
  _wire_subcircuit settings tm h = Raised (ValueError UnmatchedPorts).
Proof.
  intros Hok Hdef Hex. unfold _wire_subcircuit, definition_ports.
  rewrite Hdef. cbn [mbind result_bind].
  destruct (for_each_wiring_length (seq_wire_port settings tm h) _
              (fun c p => seq_wire_port_length settings tm h c p Hok) ports [name])
    as (c & -> & _ & Hlt).
  cbn [mbind result_bind].
  rewrite len_is_not_lt; [done|]. specialize (Hlt Hex). cbn in Hlt. lia.
Qed.

Lemma seq_trial_unmatched `{Simulator} settings tm h slew load t_setup t_hold
    log name ports :
  seq_harness_ok tm h → definition (base tm) = Some (name :: ports) →
  Exists (fun p => p ∉ seq_roles settings tm h) ports →
  seq_run_delay_trial settings tm h slew load t_setup t_hold log
  = (Raised (ValueError UnmatchedPorts), log).
Proof.
  intros Hok Hdef Hex. unfold seq_run_delay_trial.
  rewrite (wire_subcircuit_unmatched settings tm h name ports Hok Hdef Hex).
  by repeat match goal with |- context [if ?b then _ else _] => destruct b end.
Qed.

Lemma binary_search_hard_error fuel trial highest lowest timestep units k1 k2 h
    log e :
  (lowest - timestep) * units <= (highest + timestep) * units →
  is_NameError e = false →
  (∀ t, trial t log = (Raised e, log)) →
  binary_search (S fuel) trial highest lowest timestep units k1 k2 h log
  = (Raised e, log).
Proof.
  intros Hle He Htrial.
  unfold binary_search. cbn [search_loop initial_state t_min t_max].
  apply Qle_bool_iff in Hle. rewrite Hle.
  unfold search_step, try_trial, mbind, M_bind. cbn [t_min t_max harness_now].
  by rewrite Htrial, He.
Qed.

(** ** Binary search *)

Lemma lookup_store_result h k1 k2 a :
  lookup_result (store_result h k1 k2 a) k1 k2 = Some a.
Proof.
  unfold lookup_result, store_result. simpl.
  rewrite lookup_insert_eq. simpl. apply lookup_insert_eq.
Qed.

Lemma search_step_cases trial ts k1 k2 st log :
  let t := (t_max st + t_min st) / 2 in
  match search_step trial ts k1 k2 st log with
  | (Raised e, log') => trial t log = (Raised e, log') ∧ is_NameError e = false
  | (Ok (st', stop), log') =>
      (∃ r, trial t log = (r, log'))
      ∧ t_found st' = Some t
      ∧ iterations st' = S (iterations st)
      ∧ ((t_min st' = t ∧ t_max st' = t_max st)
         ∨ (t_min st' = t_min st ∧ t_max st' = t))
      ∧ stop = negb (Qltb ts (Qabs (t - (t_max st' + t_min st') / 2)))
  end.
Proof.
  intros t. unfold search_step, try_trial, mbind, M_bind. fold t.
  destruct (trial t log) as [[a|e] log'].
  - rewrite lookup_store_result. unfold mret, M_ret.
    destruct (Qltb (prev_t_prop st) (prop_in_out a));
      match goal with |- context [negb ?b] => destruct b eqn:E end;
      cbn [negb t_min t_max t_found iterations]; rewrite ?E; eauto 10.
  - destruct (is_NameError e) eqn:En; [|by auto].
    unfold mret, M_ret.
    match goal with |- context [negb ?b] => destruct b eqn:E end;
      cbn [negb t_min t_max t_found iterations]; rewrite ?E; eauto 10.
Qed.




Lemma initial_width highest lowest timestep units :
  lowest < highest → 0 < timestep → 0 < units →
  let n := Nat.pred (Nat.max 1 (iteration_bound highest lowest timestep)) in
  (highest + timestep) * units - (lowest - timestep) * units
  <= 4 * pow2 n * (timestep * units).
Proof.
  intros Hlh Hts Hu n.
  set (N := Nat.max 1 (iteration_bound highest lowest timestep)) in *.
  assert (HN : N = S n) by (unfold n; lia).
  assert (H1 : highest - lowest <= pow2 N * timestep).
  { apply Qdiv_le_mult; [done|].
    eapply Qle_trans; [apply ceil_log2_spec|].
    apply pow2_mono. unfold N, iteration_bound. lia. }
  rewrite HN, pow2_S in H1.
  assert (H2 : 1 <= pow2 n).
  { change 1 with (pow2 0). apply pow2_mono. lia. }
  assert (H3 : timestep <= pow2 n * timestep).
  { rewrite <- (Qmult_1_l timestep) at 1.
    apply Qmult_le_compat_r; lra. }
  assert (E : (highest + timestep) * units - (lowest - timestep) * units
              == (highest - lowest + 2 * timestep) * units) by ring.
  assert (E' : 4 * pow2 n * (timestep * units)
               == (4 * (pow2 n * timestep)) * units) by ring.
  rewrite E, E'. apply Qmult_le_compat_r; lra.
Qed.


Lemma search_loop_hard_errors_only fuel : ∀ trial ts k1 k2 st log e log',
  search_loop fuel trial ts k1 k2 st log = (Raised e, log') →
  is_NameError e = false.
Proof.
  induction fuel as [|fuel IH]; intros trial ts k1 k2 st log e log';
    cbn [search_loop]; destruct (Qle_bool (t_min st) (t_max st)); try done.
  unfold mbind at 1; unfold M_bind.
  pose proof (search_step_cases trial ts k1 k2 st log) as Hstep.
  cbv zeta in Hstep.
  destruct (search_step trial ts k1 k2 st log) as [[[st' stop]|e'] log1].
  - destruct stop; [done|]. apply IH.
  - intros [= <- <-]. by destruct Hstep.
Qed.

Lemma binary_search_never_NameError fuel trial highest lowest timestep units
    k1 k2 h log :
  (binary_search fuel trial highest lowest timestep units k1 k2 h log).1
  ≠ Raised NameError.
Proof.
  unfold binary_search, mbind, M_bind.
  destruct (search_loop fuel trial (timestep * units) k1 k2
              (initial_state highest lowest timestep units h) log)
    as [[[st|]|e] log'] eqn:E; cbn [fst].
  - by destruct (t_found st).
  - done.
  - apply search_loop_hard_errors_only in E. intros [= ->]. done.
Qed.

(** On the flip-flop with bounds 9 and 1 and timestep 1 the setup
    search in exact arithmetic returns 5/4 after exactly three
    iterations. *)
Example find_setup_time_three_iterations :
  ∃ res log,
    @_find_setup_time ex_simulator ex_format 3 ex_settings ex_seq_wide
      ex_seq_rise 1 1 9 [] = (Ok (Some res), log)
    ∧ trials res = 3%nat ∧ found res == 5 # 4 ∧ length log = 3%nat.
Proof.
  eexists. eexists. split; [vm_compute; reflexivity|].
  split; [reflexivity|]. split; reflexivity.
Qed.

(** With a simulator that never converges the setup search still
    returns: every trial moves the lower bound up, and the time found is
    35/4 after three iterations. *)
Example find_setup_time_survives_non_convergence :
  ∃ res log,
    @_find_setup_time ex_failing_simulator ex_format 3 ex_settings ex_seq_wide
      ex_seq_rise 1 1 9 [] = (Ok (Some res), log)
    ∧ trials res = 3%nat ∧ found res == 35 # 4
    ∧ results (harness_after res) = ∅.
Proof.
  eexists. eexists. split; [vm_compute; reflexivity|].
  split; [reflexivity|]. split; reflexivity.
Qed.

Ltac not_in_list :=
  let Hin := fresh in
  intros Hin; cbn in Hin;
  repeat (apply elem_of_cons in Hin as [Hin|Hin]; [discriminate|]);
  by apply elem_of_nil in Hin.

(** C5: when a port of the cell definition matches none of the port
    roles of the harness, the delay trial raises the [ValueError] for
    unmatched ports before the simulator is called (the log is
    unchanged), in both managers; nothing catches it: the combinational
    [_run_delay], both searches and the sequential [_run_delay] raise it
    in turn, without a second trial. *)
Theorem unmatched_port_raises_wiring_error `{Simulator} `{PyFormat}
    (settings : LibrarySettings)
    (ctm : TestManager) (ch : Harness) (cname : string) (cports : list string)
    (stm : SequentialTestManager) (sh : Harness) (sname : string)
    (sports : list string)
    (fuel : nat) (slew load t_setup t_hold : Q) (log : list sim_call) :
  harness_ok ch → definition ctm = Some (cname :: cports) →
  Exists (fun p => p ∉ comb_roles settings ch) cports →
  seq_harness_ok stm sh → definition (base stm) = Some (sname :: sports) →
  Exists (fun p => p ∉ seq_roles settings stm sh) sports →
  (_sim_setup_lowest stm - _sim_setup_timestep stm) * units_time settings
  <= (_sim_setup_highest stm + _sim_setup_timestep stm) * units_time settings →
  (_sim_hold_lowest stm - _sim_hold_timestep stm) * units_time settings
  <= (_sim_hold_highest stm + _sim_hold_timestep stm) * units_time settings →
  is_WiringError (ValueError UnmatchedPorts) = true
  ∧ comb_run_delay_trial settings ctm ch slew load log
    = (Raised (ValueError UnmatchedPorts), log)
  ∧ comb_run_delay settings ctm ch slew load log
    = (Raised (ValueError UnmatchedPorts), log)
  ∧ seq_run_delay_trial settings stm sh slew load t_setup t_hold log
    = (Raised (ValueError UnmatchedPorts), log)
  ∧ _find_setup_time (S fuel) settings stm sh slew load t_hold log
    = (Raised (ValueError UnmatchedPorts), log)
  ∧ _find_hold_time (S fuel) settings stm sh slew load t_setup log
    = (Raised (ValueError UnmatchedPorts), log)
  ∧ seq_run_delay (S fuel) settings stm sh slew load log
    = (Raised (ValueError UnmatchedPorts), log).
Proof.
  intros Hc Hcdef Hcex Hs Hsdef Hsex Hsetup Hhold.
  pose proof (comb_trial_unmatched settings ctm ch slew load log cname cports
                Hc Hcdef Hcex) as Hctrial.
  assert (Hstrial : ∀ a b, seq_run_delay_trial settings stm sh slew load a b log
                           = (Raised (ValueError UnmatchedPorts), log)).
  { intros a b. by eapply seq_trial_unmatched. }
  assert (Hfs : ∀ b, _find_setup_time (S fuel) settings stm sh slew load b log
                     = (Raised (ValueError UnmatchedPorts), log)).
  { intros b. unfold _find_setup_time.
    apply binary_search_hard_error; [done|done|]. intros t. apply Hstrial. }
  split_and!; try done.
  - unfold comb_run_delay, mbind, M_bind. by rewrite Hctrial.
  - unfold _find_hold_time.
    apply binary_search_hard_error; [done|done|]. intros t. apply Hstrial.
  - unfold seq_run_delay, mbind, MF_bind, mbind, M_bind. by rewrite Hfs.
Qed.

Lemma unmatched_port_raises_wiring_error_witness :
  harness_ok ex_inv_fall
  ∧ definition ex_inv_extra_port = Some ["INV"; "A"; "EN"; "Y"; "VDD"; "VSS"]%string
  ∧ Exists (fun p => p ∉ comb_roles ex_settings ex_inv_fall)
      ["A"; "EN"; "Y"; "VDD"; "VSS"]%string
  ∧ seq_harness_ok ex_seq_extra_port ex_seq_rise
  ∧ Exists (fun p => p ∉ seq_roles ex_settings ex_seq_extra_port ex_seq_rise)
      ["CLK"; "D"; "SE"; "Q"; "VDD"; "VSS"]%string
  ∧ @comb_run_delay_trial ex_simulator ex_settings ex_inv_extra_port ex_inv_fall
      (1 # 10) (1 # 100) []
    = (Raised (ValueError UnmatchedPorts), [])
  ∧ @_find_setup_time ex_simulator ex_format 4 ex_settings ex_seq_extra_port
      ex_seq_rise (1 # 10) (1 # 100) 9 []
    = (Raised (ValueError UnmatchedPorts), []).
Proof.
  assert (H1 : harness_ok ex_inv_fall) by (split_and!; constructor).
  assert (H2 : Exists (fun p => p ∉ comb_roles ex_settings ex_inv_fall)
                 ["A"; "EN"; "Y"; "VDD"; "VSS"]%string).
  { apply Exists_cons_tl, Exists_cons_hd. not_in_list. }
  assert (H3 : seq_harness_ok ex_seq_extra_port ex_seq_rise).
  { unfold seq_harness_ok. split_and!.
    - split_and!; constructor.
    - by eexists.
    - by intros [? [=]].
    - by intros [? [=]]. }
  assert (H4 : Exists (fun p => p ∉ seq_roles ex_settings ex_seq_extra_port
                                    ex_seq_rise)
                 ["CLK"; "D"; "SE"; "Q"; "VDD"; "VSS"]%string).
  { apply Exists_cons_tl, Exists_cons_tl, Exists_cons_hd. not_in_list. }
  assert (H5 : (_sim_setup_lowest ex_seq_extra_port
                - _sim_setup_timestep ex_seq_extra_port) * units_time ex_settings
               <= (_sim_setup_highest ex_seq_extra_port
                   + _sim_setup_timestep ex_seq_extra_port)
                  * units_time ex_settings) by (by vm_compute).
  pose proof (@unmatched_port_raises_wiring_error ex_simulator ex_format
                ex_settings ex_inv_extra_port ex_inv_fall _ _
                ex_seq_extra_port ex_seq_rise _ _ 3 (1 # 10) (1 # 100) 5 9 []
                H1 eq_refl H2 H3 eq_refl H4 H5 H5)
    as (_ & T1 & _ & _ & T2 & _).
  split; [exact H1|]. split; [reflexivity|]. split; [exact H2|].
  split; [exact H3|]. split; [exact H4|]. split; [exact T1|exact T2].
Defined.

(** On the matching netlist the same trial reaches the simulator. *)
Example comb_trial_matched_runs :
  ∃ a req,
    @comb_run_delay_trial ex_simulator ex_settings ex_inv ex_inv_fall
      (1 # 10) (1 # 100) [] = (Ok a, [Transient req])
    ∧ connections req = ["vin"; "vout"; "vdd_dyn"; "vss_dyn"]%string.
Proof.
  eexists. eexists. split; [vm_compute; reflexivity|reflexivity].
Qed.

(** ** Measurement thresholds *)

(** C7, evaluated on the inverter harness whose output falls: the target
    of the propagation-delay measurement is qualified by the falling
    edge, and its threshold is the low-to-high voltage 6/10, not the
    high-to-low voltage 4/10. *)
Theorem comb_fall_target_uses_low_to_high_threshold :
  out_direction ex_inv_fall = "fall"%string
  ∧ logic_low_to_high_threshold_voltage ex_settings = 6 # 10
  ∧ logic_high_to_low_threshold_voltage ex_settings = 4 # 10
  ∧ ∃ m, head (comb_measures ex_settings ex_inv_fall) = Some m
         ∧ meas_name m = "prop_in_out"%string
         ∧ targ_edge m = "fall"%string
         ∧ targ_val m = 6 # 10
         ∧ ¬ targ_val m == logic_high_to_low_threshold_voltage ex_settings.
Proof.
  split_and!; try reflexivity.
  eexists. split_and!; try reflexivity. by vm_compute.
Qed.

(** The trigger side is qualified correctly: a falling input is measured
    at the high-to-low voltage; and the sequential trial uses the
    high-to-low voltage for a falling output. *)
Example thresholds_elsewhere :
  (∃ m, head (comb_measures ex_settings ex_inv_rise) = Some m
        ∧ trig_edge m = "fall"%string ∧ trig_val m = 4 # 10)
  ∧ (∃ ms m, seq_measures ex_settings ex_inv_fall 0 = Ok ms
             ∧ head ms = Some m
             ∧ targ_edge m = "fall"%string ∧ targ_val m = 4 # 10).
Proof.
  split.
  - eexists. split_and!; reflexivity.
  - eexists. eexists. split_and!; reflexivity.
Qed.

(** ** Worst-case selection *)

Section selection.
Context `{HarnessModule}.

Local Notation "'avg'" := average_propagation_delay.

Lemma keep_worse_same (h : Harness) : keep_worse h h = h.
Proof.
  unfold keep_worse. by destruct (Qltb (avg h) (avg h)).
Qed.

(** Folding from [w0]: either [w0] survives and nothing in the list has
    a larger average, or the result is the first largest of the list and
    larger than [w0]. *)
Lemma fold_keep_worse_spec (l : list Harness) : ∀ w0,
  (fold_left keep_worse l w0 = w0 ∧ Forall (fun h => avg h <= avg w0) l)
  ∨ ∃ before after,
      first_largest l before (fold_left keep_worse l w0) after
      ∧ avg w0 < avg (fold_left keep_worse l w0).
Proof.
  unfold first_largest.
  induction l as [|h t IH]; intros w0; cbn [fold_left].
  - left. by split.
  - assert (Hstep : keep_worse w0 h
                    = if Qltb (avg w0) (avg h) then h else w0) by reflexivity.
    destruct (Qltb (avg w0) (avg h)) eqn:E; rewrite Hstep; clear Hstep.
    + apply Qltb_lt in E. right.
      destruct (IH h) as [[-> Hall]|(b & a & (Ht & Hb & Ha) & Hlt)].
      * exists [], t. split_and!; [done|constructor|exact Hall|exact E].
      * exists (h :: b), a. split_and!.
        -- cbn. by f_equal.
        -- constructor; [exact Hlt|exact Hb].
        -- exact Ha.
        -- lra.
    + apply Qltb_ge in E.
      destruct (IH w0) as [[-> Hall]|(b & a & (Ht & Hb & Ha) & Hlt)].
      * left. split; [done|]. by constructor.
      * right. exists (h :: b), a. split_and!.
        -- cbn. by f_equal.
        -- constructor; [lra|exact Hb].
        -- exact Ha.
        -- exact Hlt.
Qed.

Lemma worst_case_harness_spec (matching : list Harness) (worst : Harness) :
  worst_case_harness matching = Ok worst →
  ∃ before after, first_largest matching before worst after.
Proof.
  destruct matching as [|first rest]; [done|].
  unfold worst_case_harness. cbn [fold_left]. rewrite keep_worse_same.
  intros [= <-]. unfold first_largest.
  destruct (fold_keep_worse_spec rest first)
    as [[-> Hall]|(b & a & (Ht & Hb & Ha) & Hlt)].
  - exists [], rest. split_and!; [done|constructor|exact Hall].
  - exists (first :: b), a. split_and!.
    + cbn. by f_equal.
    + constructor; [exact Hlt|exact Hb].
    + exact Ha.
Qed.

(** No two positions of a list are its first largest. *)
Lemma first_largest_unique (matching b1 : list Harness) (w1 : Harness)
    (a1 b2 : list Harness) (w2 : Harness) (a2 : list Harness) :
  first_largest matching b1 w1 a1 → first_largest matching b2 w2 a2 →
  b1 = b2 ∧ w1 = w2 ∧ a1 = a2.
Proof.
  intros (E1 & B1 & A1) (E2 & B2 & A2).
  assert (Hlen : length b1 = length b2).
  { destruct (Nat.lt_trichotomy (length b1) (length b2)) as [Hlt|[Heq|Hlt]];
      [exfalso|done|exfalso].
    - assert (Hw : b2 !! length b1 = Some w1).
      { rewrite <- (lookup_app_l b2 (w2 :: a2)) by done.
        rewrite <- E2, E1. by rewrite list_lookup_middle. }
      pose proof (Forall_lookup_1 _ _ _ _ B2 Hw) as H1. cbn in H1.
      assert (Hin : (w1 :: a1) !! (length b2 - length b1)%nat = Some w2).
      { rewrite <- (lookup_app_r b1) by lia. rewrite <- E1, E2.
        by rewrite list_lookup_middle. }
      destruct (length b2 - length b1)%nat as [|k] eqn:Ek; [lia|].
      cbn in Hin. pose proof (Forall_lookup_1 _ _ _ _ A1 Hin) as H2.
      cbn in H2. lra.
    - assert (Hw : b1 !! length b2 = Some w2).
      { rewrite <- (lookup_app_l b1 (w1 :: a1)) by done.
        rewrite <- E1, E2. by rewrite list_lookup_middle. }
      pose proof (Forall_lookup_1 _ _ _ _ B1 Hw) as H1. cbn in H1.
      assert (Hin : (w2 :: a2) !! (length b1 - length b2)%nat = Some w1).
      { rewrite <- (lookup_app_r b2) by lia. rewrite <- E2, E1.
        by rewrite list_lookup_middle. }
      destruct (length b1 - length b2)%nat as [|k] eqn:Ek; [lia|].
      cbn in Hin. pose proof (Forall_lookup_1 _ _ _ _ A2 Hin) as H2.
      cbn in H2. lra. }
  rewrite E1 in E2. apply app_inj_1 in E2 as [-> E2]; [|done].
  by injection E2 as -> ->.
Qed.

Lemma select_worst_case_aux (unsorted : list Harness)
    (arc_list : list (string * string * string)) : ∀ acc chosen,
  for_each arc_list acc
    (fun harnesses '(out_port, in_port, direction) =>
       worst ← worst_case_harness
                 (matching_harnesses unsorted in_port out_port direction);
       Ok (harnesses ++ [worst])) = Ok chosen →
  ∃ ws, chosen = acc ++ ws
        ∧ Forall2 (fun '(out_port, in_port, direction) worst =>
                     worst_case_harness
                       (matching_harnesses unsorted in_port out_port direction)
                     = Ok worst) arc_list ws.
Proof.
  induction arc_list as [|[[o i] d] rest IH]; intros acc chosen; cbn [for_each].
  - intros [= <-]. exists []. split; [by rewrite app_nil_r|constructor].
  - destruct (worst_case_harness (matching_harnesses unsorted i o d))
      as [w|e] eqn:Ew; cbn [mbind result_bind]; [|done].
    intros Hrest. destruct (IH _ _ Hrest) as (ws & -> & Hall).
    exists (w :: ws). split; [by rewrite <- app_assoc|].
    by constructor.
Qed.

(** A position in the filtered list is a position in the list. *)
Lemma filter_middle {A : Type} (P : A → Prop) `{∀ x, Decision (P x)}
    (l b : list A) (w : A) (a : list A) :
  filter P l = b ++ w :: a →
  ∃ b' a', l = b' ++ w :: a' ∧ filter P b' = b ∧ filter P a' = a ∧ P w.
Proof.
  revert b. induction l as [|x l IH]; intros b.
  - rewrite filter_nil. by destruct b.
  - destruct (decide (P x)) as [Hx|Hx].
    + rewrite filter_cons_True by done.
      destruct b as [|y b]; cbn [app].
      * intros [= -> Ha]. exists [], l. by rewrite filter_nil.
      * intros [= -> Hl]. destruct (IH b Hl) as (b' & a' & -> & Hb & Ha & Hw).
        exists (y :: b'), a'. rewrite filter_cons_True by done.
        split_and!; try done. by rewrite Hb.
    + rewrite filter_cons_False by done. intros Hl.
      destruct (IH b Hl) as (b' & a' & -> & Hb & Ha & Hw).
      exists (x :: b'), a'. by rewrite filter_cons_False.
Qed.

Lemma matching_harnesses_filter (unsorted : list Harness)
    (in_port out_port direction : string) :
  matching_harnesses unsorted in_port out_port direction
  = filter (arc_matches in_port out_port direction) unsorted.
Proof.
  unfold matching_harnesses, filter_harnesses_by_ports.
  rewrite list_filter_filter. apply list_filter_iff.
  intros h. unfold arc_matches. tauto.
Qed.

(** The first largest of the matching harnesses is the first largest
    among those of the whole list that match. *)
Lemma first_largest_of_matching (unsorted : list Harness)
    (in_port out_port direction : string) (before : list Harness)
    (worst : Harness) (after : list Harness) :
  first_largest (matching_harnesses unsorted in_port out_port direction)
    before worst after →
  ∃ before' after',
    first_largest_among (arc_matches in_port out_port direction)
      unsorted before' worst after'.
Proof.
  rewrite matching_harnesses_filter. intros (Hl & Hb & Ha).
  apply filter_middle in Hl as (b' & a' & -> & <- & <- & Hw).
  exists b', a'. split_and!; try done.
  - apply Forall_forall. intros h Hh Hm.
    rewrite Forall_forall in Hb. apply Hb. by apply list_elem_of_filter.
  - apply Forall_forall. intros h Hh Hm.
    rewrite Forall_forall in Ha. apply Ha. by apply list_elem_of_filter.
Qed.

(** No two positions of a list are its first largest among the
    harnesses that match. *)
Lemma first_largest_among_unique (matches : Harness → Prop)
    (unsorted b1 : list Harness) (w1 : Harness) (a1 b2 : list Harness)
    (w2 : Harness) (a2 : list Harness) :
  first_largest_among matches unsorted b1 w1 a1 →
  first_largest_among matches unsorted b2 w2 a2 →
  b1 = b2 ∧ w1 = w2 ∧ a1 = a2.
Proof.
  intros (E1 & M1 & B1 & A1) (E2 & M2 & B2 & A2).
  assert (Hlen : length b1 = length b2).
  { destruct (Nat.lt_trichotomy (length b1) (length b2)) as [Hlt|[Heq|Hlt]];
      [exfalso|done|exfalso].
    - assert (Hw : b2 !! length b1 = Some w1).
      { rewrite <- (lookup_app_l b2 (w2 :: a2)) by done.
        rewrite <- E2, E1. by rewrite list_lookup_middle. }
      pose proof (Forall_lookup_1 _ _ _ _ B2 Hw M1) as H1.
      assert (Hin : (w1 :: a1) !! (length b2 - length b1)%nat = Some w2).
      { rewrite <- (lookup_app_r b1) by lia. rewrite <- E1, E2.
        by rewrite list_lookup_middle. }
      destruct (length b2 - length b1)%nat as [|k] eqn:Ek; [lia|].
      cbn in Hin. pose proof (Forall_lookup_1 _ _ _ _ A1 Hin M2) as H2.
      lra.
    - assert (Hw : b1 !! length b2 = Some w2).
      { rewrite <- (lookup_app_l b1 (w1 :: a1)) by done.
        rewrite <- E1, E2. by rewrite list_lookup_middle. }
      pose proof (Forall_lookup_1 _ _ _ _ B1 Hw M2) as H1.
      assert (Hin : (w2 :: a2) !! (length b1 - length b2)%nat = Some w1).
      { rewrite <- (lookup_app_r b2) by lia. rewrite <- E2, E1.
        by rewrite list_lookup_middle. }
      destruct (length b1 - length b2)%nat as [|k] eqn:Ek; [lia|].
      cbn in Hin. pose proof (Forall_lookup_1 _ _ _ _ A2 Hin M1) as H2.
      lra. }
  rewrite E1 in E2. apply app_inj_1 in E2 as [-> E2]; [|done].
  by injection E2 as -> ->.
Qed.

(** Selection raises only for want of a matching harness. *)
Lemma select_worst_case_fails_from (unsorted : list Harness)
    (arc_list : list (string * string * string)) : ∀ acc e,
  for_each arc_list acc
    (fun harnesses '(out_port, in_port, direction) =>
       worst ← worst_case_harness
                 (matching_harnesses unsorted in_port out_port direction);
       Ok (harnesses ++ [worst])) = Raised e →
  e = IndexError
  ∧ Exists
      (fun '(out_port, in_port, direction) =>
         Forall (fun h => ¬ arc_matches in_port out_port direction h) unsorted)
      arc_list.
Proof.
  induction arc_list as [|[[o i] d] rest IH]; intros acc e; cbn [for_each];
    [done|].
  destruct (matching_harnesses unsorted i o d) as [|first tl] eqn:Em;
    cbn [worst_case_harness mbind result_bind].
  - intros [= <-]. split; [done|]. apply Exists_cons_hd.
    rewrite matching_harnesses_filter in Em.
    apply Forall_forall. intros h Hh Hm.
    assert (Hin : h ∈ filter (arc_matches i o d) unsorted)
      by (by apply list_elem_of_filter).
    rewrite Em in Hin. by apply elem_of_nil in Hin.
  - intros Hrest. destruct (IH _ _ Hrest) as [-> Hex].
    split; [done|]. by apply Exists_cons_tl.
Qed.

Lemma select_worst_case_fails (outs ins : list string)
    (unsorted : list Harness) (e : exn) :
  select_worst_case outs ins unsorted = Raised e →
  e = IndexError
  ∧ Exists
      (fun '(out_port, in_port, direction) =>
         Forall (fun h => ¬ arc_matches in_port out_port direction h) unsorted)
      (arcs outs ins).
Proof. apply select_worst_case_fails_from. Qed.

End selection.

(** C2.  Selection goes through the (output pin, input pin, direction)
    combinations in loop order: the output pins, for each the input
    pins, for each of these 'rise' and then 'fall'.  When it returns,
    it has chosen one harness for each: a harness of the list whose target ports and
    direction are those of the combination, with an average delay
    larger than that of every such harness ahead of it in the list and
    at least that of every such harness after it.  No other position
    of the list has this property, so the choice is determined by the
    list of harnesses.  Selection raises only [IndexError], and only
    when for some combination no harness of the list matches. *)
Theorem worst_case_selection_picks_first_largest `{HarnessModule}
    (outs ins : list string) (unsorted : list Harness) :
  match select_worst_case outs ins unsorted with
  | Ok chosen =>
      Forall2
        (fun '(out_port, in_port, direction) worst =>
           ∃ before after,
             first_largest_among (arc_matches in_port out_port direction)
               unsorted before worst after
             ∧ ∀ before' worst' after',
                 first_largest_among (arc_matches in_port out_port direction)
                   unsorted before' worst' after' →
                 before' = before ∧ worst' = worst ∧ after' = after)
        (out_port ← outs; in_port ← ins;
         direction ← ["rise"%string; "fall"%string];
         [(out_port, in_port, direction)])
        chosen
  | Raised e =>
      e = IndexError
      ∧ Exists
          (fun '(out_port, in_port, direction) =>
             Forall (fun h => ¬ arc_matches in_port out_port direction h)
               unsorted)
          (out_port ← outs; in_port ← ins;
           direction ← ["rise"%string; "fall"%string];
           [(out_port, in_port, direction)])
  end.
Proof.
  change (out_port ← outs; in_port ← ins;
          direction ← ["rise"%string; "fall"%string];
          [(out_port, in_port, direction)]) with (arcs outs ins).
  destruct (select_worst_case outs ins unsorted) as [chosen|e] eqn:Hsel.
  - apply select_worst_case_aux in Hsel as (ws & -> & Hall).
    cbn [app]. eapply Forall2_impl; [exact Hall|].
    intros [[o i] d] w Hw.
    apply worst_case_harness_spec in Hw as (before & after & Hfl).
    apply first_largest_of_matching in Hfl as (b & a & Hfl).
    exists b, a. split; [exact Hfl|].
    intros b' w' a' Hfl'. by eapply first_largest_among_unique.
  - by apply select_worst_case_fails.
Qed.

(** On the harnesses of a two-input cell the harness chosen for A -> Y
    falling is the first of the two that measured 2; the harness of
    B -> Y falling, which comes first in the list and measured 5, is
    chosen for its own arc only. *)
Example worst_case_selection_two_inputs :
  @select_worst_case ex_harness_module ["Y"%string] ["A"; "B"]%string
    ex_two_inputs
  = Ok [ex_measured ex_inv_rise 3; ex_measured ex_inv_fall 2;
        ex_measured (ex_from_pin "B" ex_inv_rise) 1;
        ex_measured (ex_from_pin "B" ex_inv_fall) 5]
  ∧ @first_largest_among ex_harness_module (arc_matches "A" "Y" "fall")
      ex_two_inputs
      [ex_measured (ex_from_pin "B" ex_inv_fall) 5; ex_measured ex_inv_fall 1]
      (ex_measured ex_inv_fall 2)
      [store_result (ex_measured ex_inv_fall 2) "s" "m"
         {| prop_in_out := 2; trans_out := 1 |};
       ex_measured ex_inv_rise 3; ex_measured (ex_from_pin "B" ex_inv_rise) 1].
Proof.
  split; [vm_compute; reflexivity|].
  split; [reflexivity|]. split; [by vm_compute|]. split.
  - repeat apply Forall_cons_2; try apply Forall_nil_2.
    + intros (Hin & _). by vm_compute in Hin.
    + intros _. by vm_compute.
  - repeat apply Forall_cons_2; try apply Forall_nil_2.
    + intros _. by vm_compute.
    + intros (_ & _ & Hd). by vm_compute in Hd.
    + intros (Hin & _). by vm_compute in Hin.
Qed.

(** Without a harness for B -> Y rising selection raises [IndexError]. *)
Example worst_case_selection_missing_arc :
  @select_worst_case ex_harness_module ["Y"%string] ["A"; "B"]%string
    ex_unsorted
  = Raised IndexError.
Proof. vm_compute. reflexivity. Qed.

(** The second and third falling harnesses tie at average 2; the second,
    met first, is the one chosen. *)
Example worst_case_tie_keeps_first :
  grid_average (ex_measured ex_inv_fall 2) == 2
  ∧ (∃ h, ex_three !! 2%nat = Some h ∧ grid_average h == 2)
  ∧ @worst_case_harness ex_harness_module ex_three
    = Ok (ex_measured ex_inv_fall 2).
Proof.
  split; [by vm_compute|]. split.
  - eexists. split; [reflexivity|by vm_compute].
  - vm_compute. reflexivity.
Qed.

(** ** Timing tables and characterization *)

Lemma map_fmap {A B} (f : A → B) (l : list A) : map f l = f <$> l.
Proof. reflexivity. Qed.

Lemma for_each_cons {m : Type → Type} `{MBind m, MRet m} {A S : Type}
    (x : A) (l : list A) (s : S) (body : S → A → m S) :
  for_each (x :: l) s body = body s x ≫= fun s' => for_each l s' body.
Proof. reflexivity. Qed.

Lemma M_bind_unfold {A B : Type} (c : M A) (k : A → M B) (log : list sim_call) :
  (c ≫= k) log
  = match c log with
    | (Ok a, log') => k a log'
    | (Raised e, log') => (Raised e, log')
    end.
Proof. reflexivity. Qed.

Section tables.
Context `{PyFormat}.
Variable settings : LibrarySettings.
Variable h : Harness.

Lemma table_cell_pair (slew : string) (pv tv : list string) (load : string) :
  table_cell settings h slew (pv, tv) load
  = match lookup_result h slew load with
    | None => Raised KeyError
    | Some r => Ok (pv ++ [show_prop settings r], tv ++ [show_tran settings r])
    end.
Proof. reflexivity. Qed.

Lemma table_row_spec (slew : string) (index_2 : list string) : ∀ pv tv pv' tv',
  for_each index_2 (pv, tv) (table_cell settings h slew) = Ok (pv', tv') →
  ∃ rs, Forall2 (fun load r => lookup_result h slew load = Some r) index_2 rs
        ∧ pv' = pv ++ (show_prop settings <$> rs)
        ∧ tv' = tv ++ (show_tran settings <$> rs).
Proof.
  induction index_2 as [|load rest IH]; intros pv tv pv' tv'.
  - intros [= <- <-]. exists []. cbn. rewrite !app_nil_r.
    split_and!; [constructor|done..].
  - rewrite for_each_cons, table_cell_pair.
    destruct (lookup_result h slew load) as [r|] eqn:E;
      cbn [mbind result_bind]; [|done].
    intros Hrest.
    apply IH in Hrest as (rs & Hrs & -> & ->).
    exists (r :: rs). split_and!; [by constructor|..];
      by rewrite <- app_assoc.
Qed.

Lemma table_values_spec (index_1 index_2 : list string) : ∀ pv tv pv' tv',
  for_each index_1 (pv, tv)
    (fun acc slew => for_each index_2 acc (table_cell settings h slew))
  = Ok (pv', tv') →
  ∃ rows,
    Forall2 (fun slew rs =>
               Forall2 (fun load r => lookup_result h slew load = Some r)
                 index_2 rs) index_1 rows
    ∧ pv' = pv ++ mjoin (@fmap list _ _ _ (show_prop settings) <$> rows)
    ∧ tv' = tv ++ mjoin (@fmap list _ _ _ (show_tran settings) <$> rows).
Proof.
  induction index_1 as [|slew rest IH]; intros pv tv pv' tv'.
  - intros [= <- <-]. exists []. cbn. rewrite !app_nil_r.
    split_and!; [constructor|done..].
  - rewrite for_each_cons.
    destruct (for_each index_2 (pv, tv) (table_cell settings h slew))
      as [[pv1 tv1]|e] eqn:E; cbn [mbind result_bind]; [|done].
    intros Hrest.
    apply table_row_spec in E as (rs & Hrs & -> & ->).
    apply IH in Hrest as (rows & Hrows & -> & ->).
    exists (rs :: rows). split_and!; [by constructor|..];
      by rewrite <- app_assoc.
Qed.

(** Rows of equal length, joined: the value of row [i], column [j] is at
    position [i * n + j]. *)
Lemma rows_row_major (show : analysis → string) (slews loads : list Q)
    (rows : list (list analysis)) :
  Forall2 (fun slew rs =>
             Forall2 (fun load r => lookup_result h slew load = Some r)
               (map str_float loads) rs) (map str_float slews) rows →
  row_major h show slews loads (mjoin (@fmap list _ _ _ show <$> rows)).
Proof.
  intros Hrows.
  assert (Hlen : Forall (fun l => length l = length loads)
                   (@fmap list _ _ _ show <$> rows)).
  { apply Forall_fmap, Forall_forall. intros rs Hin.
    apply list_elem_of_lookup in Hin as [i Hi].
    destruct (Forall2_lookup_r _ _ _ _ _ Hrows Hi) as (s & _ & Hrs).
    apply Forall2_length in Hrs. cbn.
    rewrite length_fmap, <- Hrs, length_map. done. }
  split.
  - rewrite length_join, (sum_list_fmap_same (length loads)) by done.
    rewrite length_fmap, <- (Forall2_length _ _ _ Hrows), length_map. done.
  - intros i j s l Hs Hl.
    assert (Hs' : map str_float slews !! i = Some (str_float s))
      by (by rewrite map_fmap, list_lookup_fmap, Hs).
    assert (Hl' : map str_float loads !! j = Some (str_float l))
      by (by rewrite map_fmap, list_lookup_fmap, Hl).
    destruct (Forall2_lookup_l _ _ _ _ _ Hrows Hs') as (rs & Hrs & Hrow).
    destruct (Forall2_lookup_l _ _ _ _ _ Hrow Hl') as (r & Hr & Hlook).
    exists r. split; [exact Hlook|].
    apply join_lookup_Some_same_length'; [exact Hlen|by eapply lookup_lt_Some|].
    exists (show <$> rs). split; by rewrite list_lookup_fmap, ?Hrs, ?Hr.
Qed.

Lemma arc_tables_spec (slews loads : list Q) (direction : string)
    (delay transition : Table) :
  arc_tables settings slews loads h direction = Ok (delay, transition) →
  table_name delay = ("cell_" ++ direction)%string
  ∧ table_name transition = (direction ++ "_transition")%string
  ∧ index_1 delay = map str_float slews
  ∧ index_2 delay = map str_float loads
  ∧ index_1 transition = map str_float slews
  ∧ index_2 transition = map str_float loads
  ∧ row_major h (show_prop settings) slews loads (values delay)
  ∧ row_major h (show_tran settings) slews loads (values transition).
Proof.
  unfold arc_tables, table_values.
  destruct (for_each (map str_float slews) ([], []) _) as [[pv tv]|e] eqn:E;
    cbn [mbind result_bind]; [|done].
  intros [= <- <-]. cbn [table_name index_1 index_2 values].
  apply table_values_spec in E as (rows & Hrows & -> & ->).
  split_and!; try done; cbn [app]; by apply rows_row_major.
Qed.

End tables.

Section store.
Context `{PyFormat}.
Variable settings : LibrarySettings.
Variables slews loads : list Q.
Variable harnesses : list Harness.

Lemma store_arc_tables_spec (o i : string) (cell : Cell) (d : string)
    (cell' : Cell) :
  store_arc_tables settings slews loads harnesses o i cell d = Ok cell' →
  ∃ entries, tables cell' = tables cell ++ entries
             ∧ arc_entries settings slews loads harnesses (o, i, d) entries.
Proof.
  unfold store_arc_tables.
  destruct (find_harness_by_arc harnesses i o d) as [h|e] eqn:Eh;
    cbn [mbind result_bind]; [|done].
  destruct (arc_tables settings slews loads h d) as [[ct tt]|e] eqn:Et;
    cbn [mbind result_bind]; [|done].
  intros [= <-]. exists [(o, i, ct); (o, i, tt)]. split.
  - cbn [add_table tables]. by rewrite <- app_assoc.
  - apply arc_tables_spec in Et. exists h, ct, tt.
    destruct Et as (?&?&?&?&?&?&?&?). by split_and!.
Qed.

Lemma direction_loop_spec (o i : string) (directions : list string) :
  ∀ cell cell',
    for_each directions cell
      (store_arc_tables settings slews loads harnesses o i) = Ok cell' →
    ∃ per_arc,
      tables cell' = tables cell ++ concat per_arc
      ∧ Forall2 (arc_entries settings slews loads harnesses)
          ((fun d => (o, i, d)) <$> directions) per_arc.
Proof.
  induction directions as [|d rest IH]; intros cell cell'.
  - intros [= <-]. exists []. cbn. rewrite app_nil_r. by split; [|constructor].
  - rewrite for_each_cons.
    destruct (store_arc_tables settings slews loads harnesses o i cell d)
      as [c1|e] eqn:E; cbn [mbind result_bind]; [|done].
    intros Hrest. apply store_arc_tables_spec in E as (e1 & E1 & A1).
    apply IH in Hrest as (per & E2 & A2).
    exists (e1 :: per). split.
    + rewrite E2, E1. cbn [concat]. by rewrite <- app_assoc.
    + by constructor.
Qed.

Lemma in_port_loop_spec (o : string) (directions ins : list string) :
  ∀ cell cell',
    for_each ins cell
      (fun cell in_port =>
         for_each directions (add_timing cell o in_port)
           (store_arc_tables settings slews loads harnesses o in_port))
    = Ok cell' →
    ∃ per_arc,
      tables cell' = tables cell ++ concat per_arc
      ∧ Forall2 (arc_entries settings slews loads harnesses)
          (in_port ← ins; direction ← directions;
           [(o, in_port, direction)]) per_arc.
Proof.
  induction ins as [|i rest IH]; intros cell cell'.
  - intros [= <-]. exists []. cbn. rewrite app_nil_r. by split; [|constructor].
  - rewrite for_each_cons.
    destruct (for_each directions (add_timing cell o i)
                (store_arc_tables settings slews loads harnesses o i))
      as [c1|e] eqn:E; cbn [mbind result_bind]; [|done].
    intros Hrest. apply direction_loop_spec in E as (p1 & E1 & A1).
    apply IH in Hrest as (p2 & E2 & A2).
    exists (p1 ++ p2). split.
    + rewrite E2, E1. cbn [add_timing tables].
      by rewrite concat_app, <- app_assoc.
    + change (in_port ← i :: rest; direction ← directions;
              [(o, in_port, direction)])
        with ((direction ← directions; [(o, i, direction)])
              ++ (in_port ← rest; direction ← directions;
                  [(o, in_port, direction)])).
      apply Forall2_app; [|done].
      replace (direction ← directions; [(o, i, direction)])
        with ((fun d => (o, i, d)) <$> directions); [done|].
      clear. induction directions as [|d ds IHd]; [done|].
      cbn. by f_equal.
Qed.

Lemma store_timing_tables_spec (outs ins : list string) : ∀ cell cell',
  store_timing_tables settings slews loads outs ins harnesses cell = Ok cell' →
  ∃ added,
    tables cell' = tables cell ++ added
    ∧ tables_of_arcs settings slews loads outs ins harnesses added.
Proof.
  unfold store_timing_tables, tables_of_arcs.
  induction outs as [|o rest IH]; intros cell cell'.
  - intros [= <-]. exists []. rewrite app_nil_r. split; [done|].
    exists []. by split; [|constructor].
  - rewrite for_each_cons.
    match goal with
    | |- (?c ≫= _) = _ → _ => destruct c as [c1|e] eqn:E
    end; cbn [mbind result_bind]; [|done].
    intros Hrest.
    apply (in_port_loop_spec o ["rise"%string; "fall"%string]) in E
      as (p1 & E1 & A1).
    apply IH in Hrest as (added & E2 & p2 & -> & A2).
    exists (concat p1 ++ concat p2). split.
    + rewrite E2, E1. by rewrite <- app_assoc.
    + exists (p1 ++ p2). split; [by rewrite concat_app|].
      change (arcs (o :: rest) ins)
        with ((in_port ← ins; direction ← ["rise"%string; "fall"%string];
               [(o, in_port, direction)]) ++ arcs rest ins).
      by apply Forall2_app.
Qed.

End store.

Section characterize.
Context `{Simulator} `{PyFormat} `{HarnessModule}.
Variable settings : LibrarySettings.

Lemma run_input_capacitance_spec tm pin log :
  ∃ r added,
    _run_input_capacitance settings tm pin log = (r, log ++ added)
    ∧ Forall (fun c => is_ac_sweep c = true) added
    ∧ (∀ c, r = Ok c → length added = 1%nat)
    ∧ (∀ name ports, definition tm = Some (name :: ports) →
       (∀ p s cs, is_Some (ac_capacitance p s cs)) → ∃ c, r = Ok c).
Proof.
  unfold _run_input_capacitance, mbind, M_bind, lift, definition_ports.
  destruct (definition tm) as [[|name ports]|].
  - exists (Raised IndexError), []. rewrite app_nil_r.
    split_and!; [done|constructor|done|done].
  - unfold run_ac. eexists _, [_]. split; [reflexivity|].
    split_and!; [by repeat constructor|done|].
    intros _ _ _ Hac.
    match goal with |- context [ac_capacitance ?p ?s ?c] =>
      destruct (Hac p s c) as [x ->] end. by eexists.
  - exists (Raised (ValueError NoDefinition)), []. rewrite app_nil_r.
    split_and!; [done|constructor|done|done].
Qed.

Lemma measure_capacitances_spec tm pins : ∀ cell log,
  ∃ r added,
    measure_capacitances settings tm pins cell log = (r, log ++ added)
    ∧ Forall (fun c => is_ac_sweep c = true) added
    ∧ (∀ cell', r = Ok cell' →
       tables cell' = tables cell ∧ length added = length pins)
    ∧ (∀ name ports, definition tm = Some (name :: ports) →
       (∀ p s cs, is_Some (ac_capacitance p s cs)) → ∃ cell', r = Ok cell').
Proof.
  unfold measure_capacitances.
  induction pins as [|pin rest IH]; intros cell log.
  - exists (Ok cell), []. rewrite app_nil_r.
    split_and!; [done|constructor| |by eauto]. by intros ? [= <-].
  - rewrite for_each_cons, !M_bind_unfold.
    destruct (run_input_capacitance_spec tm pin log)
      as (r1 & a1 & -> & F1 & L1 & T1).
    destruct r1 as [c|e].
    + unfold mret at 1. unfold M_ret at 1.
      destruct (IH (set_capacitance cell pin (c / units_capacitance settings))
                  (log ++ a1)) as (r2 & a2 & -> & F2 & L2 & T2).
      exists r2, (a1 ++ a2). rewrite app_assoc.
      split_and!; [done|by apply Forall_app| |done].
      intros cell' ->. destruct (L2 _ eq_refl) as [-> L2'].
      split; [done|]. rewrite length_app, (L1 c eq_refl), L2'. done.
    + exists (Raised e), a1. split_and!; [done|done|done|].
      intros name ports Hd Hac. by destruct (T1 name ports Hd Hac).
Qed.

Lemma MF_bind_unfold {A B : Type} (c : MF A) (k : A → MF B)
    (log : list sim_call) :
  (c ≫= k) log
  = match c log with
    | (Ok (Some a), log') => k a log'
    | (Ok None, log') => (Ok None, log')
    | (Raised e, log') => (Raised e, log')
    end.
Proof.
  unfold mbind, MF_bind, mbind, M_bind.
  by destruct (c log) as [[[a|]|e] log'].
Qed.

Lemma lift_fuel_unfold {A : Type} (c : M A) (log : list sim_call) :
  lift_fuel c log
  = match c log with
    | (Ok a, log') => (Ok (Some a), log')
    | (Raised e, log') => (Raised e, log')
    end.
Proof.
  unfold lift_fuel. rewrite M_bind_unfold.
  by destruct (c log) as [[a|e] log'].
Qed.

Lemma add_timing_folds_keep_tables (pins : list string) (related : string)
    (directions : list string) : ∀ cell,
  tables (fold_left
            (fun cell in_port =>
               fold_left (fun cell _ => add_timing cell in_port related)
                 directions cell) pins cell) = tables cell.
Proof.
  induction pins as [|p rest IH]; intros cell; cbn [fold_left]; [done|].
  rewrite IH. clear IH. revert cell.
  induction directions as [|d ds IHd]; intros cell; cbn [fold_left]; [done|].
  by rewrite IHd.
Qed.

(** The tables a returning [characterize] has added are those of the
    table loops, run on the manager's own slew and load lists. *)
Lemma comb_characterize_tables tm cell log cell' log' :
  comb_characterize settings tm cell log = (Ok cell', log') →
  ∃ harnesses added,
    tables cell' = tables cell ++ added
    ∧ tables_of_arcs settings (_in_slews tm) (_out_loads tm)
        (out_ports tm) (in_ports tm) harnesses added.
Proof.
  unfold comb_characterize. rewrite M_bind_unfold.
  destruct (measure_capacitances_spec tm (in_ports tm) cell log)
    as (r1 & a1 & -> & _ & L1 & _).
  destruct r1 as [c1|e]; [|done]. destruct (L1 c1 eq_refl) as [Ht _].
  rewrite M_bind_unfold.
  match goal with
  | |- match ?c with _ => _ end = _ → _ => destruct c as [[u|e] l2]
  end; [|done].
  rewrite M_bind_unfold. unfold lift.
  destruct (select_worst_case (out_ports tm) (in_ports tm) u) as [hs|e];
    [|done].
  intros [= Hstore <-].
  apply store_timing_tables_spec in Hstore as (added & E & Harcs).
  exists hs, added. by rewrite E, Ht.
Qed.

Lemma seq_characterize_tables fuel tm cell log cell' log' :
  seq_characterize fuel settings tm cell log = (Ok (Some cell'), log') →
  ∃ harnesses added,
    tables cell' = tables cell ++ added
    ∧ tables_of_arcs settings (in_slews tm) (out_loads tm)
        (out_ports (base tm)) (in_ports (base tm)) harnesses added.
Proof.
  unfold seq_characterize. rewrite MF_bind_unfold, lift_fuel_unfold.
  match goal with
  | |- context [measure_capacitances settings (base tm) ?pins cell log] =>
      destruct (measure_capacitances_spec (base tm) pins cell log)
        as (r1 & a1 & -> & _ & L1 & _)
  end.
  destruct r1 as [c1|e]; [|done]. destruct (L1 c1 eq_refl) as [Ht _].
  rewrite MF_bind_unfold.
  match goal with
  | |- match ?c with _ => _ end = _ → _ => destruct c as [[[u|]|e] l2]
  end; [|done..].
  rewrite lift_fuel_unfold. unfold lift.
  match goal with
  | |- context [store_timing_tables ?a ?b ?c ?d ?e ?f ?g] =>
      destruct (store_timing_tables a b c d e f g) as [c2|e'] eqn:Hstore
  end; [|done].
  intros [= <- <-].
  apply store_timing_tables_spec in Hstore as (added & E & Harcs).
  exists u, added. by rewrite E, add_timing_folds_keep_tables, Ht.
Qed.

Lemma sweep_empty {S : Type} (slews loads : list Q) (s : S)
    (body : S → Q → Q → M S) (log : list sim_call) :
  slews = [] ∨ loads = [] → sweep slews loads s body log = (Ok s, log).
Proof.
  intros [->| ->]; [done|]. unfold sweep.
  induction slews as [|slew rest IH]; [done|].
  rewrite for_each_cons, M_bind_unfold. exact IH.
Qed.

Lemma sweep_empty_fuel {S : Type} (slews loads : list Q) (s : S)
    (body : S → Q → Q → MF S) (log : list sim_call) :
  slews = [] ∨ loads = [] → sweep slews loads s body log = (Ok (Some s), log).
Proof.
  intros [->| ->]; [done|]. unfold sweep.
  induction slews as [|slew rest IH]; [done|].
  rewrite for_each_cons, MF_bind_unfold. exact IH.
Qed.

Lemma for_each_raises {A S : Type} (P : exn → Prop)
    (body : S → A → result S) (l : list A) :
  (∀ s x e, body s x = Raised e → P e) →
  ∀ s e, for_each l s body = Raised e → P e.
Proof.
  intros Hbody. induction l as [|x rest IH]; intros s e; [done|].
  rewrite for_each_cons. destruct (body s x) as [s'|e'] eqn:E;
    cbn [mbind result_bind].
  - apply IH.
  - intros [= <-]. by eapply Hbody.
Qed.

Lemma select_worst_case_raises outs ins unsorted e :
  select_worst_case outs ins unsorted = Raised e → e = IndexError.
Proof.
  unfold select_worst_case.
  apply (for_each_raises (fun e => e = IndexError)).
  intros acc [[o i] d] e'.
  destruct (matching_harnesses unsorted i o d); cbn; congruence.
Qed.

Lemma table_values_empty h index_1 index_2 :
  index_1 = [] ∨ index_2 = [] →
  table_values settings h index_1 index_2 = Ok ([], []).
Proof.
  intros [->| ->]; [done|]. unfold table_values.
  induction index_1 as [|slew rest IH]; [done|].
  rewrite for_each_cons. exact IH.
Qed.

Lemma store_timing_tables_raises slews loads outs ins harnesses cell e :
  slews = [] ∨ loads = [] →
  store_timing_tables settings slews loads outs ins harnesses cell = Raised e →
  e = LookupError.
Proof.
  intros Hempty. unfold store_timing_tables. revert cell e.
  apply (for_each_raises (fun e => e = LookupError)). intros cell o.
  apply (for_each_raises (fun e => e = LookupError)). intros cell' i.
  apply (for_each_raises (fun e => e = LookupError)). intros cell'' d e.
  unfold store_arc_tables.
  destruct (find_harness_by_arc harnesses i o d) as [h|e'] eqn:Eh;
    cbn [mbind result_bind].
  - unfold arc_tables. rewrite table_values_empty; [done|].
    destruct Hempty as [->| ->]; [by left|by right].
  - intros [= <-]. unfold find_harness_by_arc in Eh.
    destruct (filter _ _) in Eh; congruence.
Qed.

Lemma comb_run_all_delays_empty tm log :
  _in_slews tm = [] ∨ _out_loads tm = [] →
  ∃ unsorted, comb_run_all_delays settings tm log = (Ok unsorted, log).
Proof.
  intros Hempty. unfold comb_run_all_delays.
  match goal with
  | |- context [for_each _ _ ?f] => set (body := f)
  end.
  generalize (@nil Harness).
  induction (test_vectors tm) as [|v rest IH]; intros acc; [by eexists|].
  rewrite for_each_cons, M_bind_unfold. unfold body at 1. cbv zeta.
  rewrite M_bind_unfold.
  destruct (use_multithreaded settings && _); rewrite sweep_empty by done;
    apply IH.
Qed.

Lemma seq_run_all_delays_empty fuel tm log :
  in_slews tm = [] ∨ out_loads tm = [] →
  ∃ harnesses,
    seq_run_all_delays fuel settings tm log = (Ok (Some harnesses), log).
Proof.
  intros Hempty. unfold seq_run_all_delays.
  match goal with
  | |- context [for_each _ _ ?f] => set (body := f)
  end.
  generalize (@nil Harness).
  induction (test_vectors (base tm)) as [|v rest IH]; intros acc;
    [by eexists|].
  rewrite for_each_cons, MF_bind_unfold. unfold body at 1. cbv zeta.
  rewrite MF_bind_unfold, sweep_empty_fuel by done. apply IH.
Qed.

Lemma comb_characterize_empty_sweep tm cell log :
  _in_slews tm = [] ∨ _out_loads tm = [] →
  ∃ r added,
    comb_characterize settings tm cell log = (r, log ++ added)
    ∧ Forall (fun c => is_ac_sweep c = true) added
    ∧ ((∃ name ports, definition tm = Some (name :: ports)) →
       (∀ p s cs, is_Some (ac_capacitance p s cs)) →
       length added = length (in_ports tm)
       ∧ ∀ e, r = Raised e → is_ConfigurationError e = false).
Proof.
  intros Hempty. unfold comb_characterize. rewrite M_bind_unfold.
  destruct (measure_capacitances_spec tm (in_ports tm) cell log)
    as (r1 & a1 & -> & F1 & L1 & T1).
  destruct r1 as [c1|e1].
  - rewrite M_bind_unfold.
    destruct (comb_run_all_delays_empty tm (log ++ a1) Hempty) as (u & ->).
    rewrite M_bind_unfold. unfold lift.
    destruct (select_worst_case (out_ports tm) (in_ports tm) u)
      as [hs|e] eqn:Esel.
    + eexists _, a1. split; [reflexivity|]. split; [done|].
      intros _ _. split; [by apply (L1 c1)|].
      intros e Hst. apply store_timing_tables_raises in Hst as ->; done.
    + eexists _, a1. split; [reflexivity|]. split; [done|].
      intros _ _. split; [by apply (L1 c1)|].
      intros e' [= <-]. by apply select_worst_case_raises in Esel as ->.
  - exists (Raised e1), a1. split; [done|]. split; [done|].
    intros (name & ports & Hd) Hac. by destruct (T1 name ports Hd Hac).
Qed.

Lemma seq_characterize_empty_sweep fuel tm cell log :
  in_slews tm = [] ∨ out_loads tm = [] →
  ∃ r added,
    seq_characterize fuel settings tm cell log = (r, log ++ added)
    ∧ Forall (fun c => is_ac_sweep c = true) added
    ∧ r ≠ Ok None
    ∧ ((∃ name ports, definition (base tm) = Some (name :: ports)) →
       (∀ p s cs, is_Some (ac_capacitance p s cs)) →
       length added
       = length (in_ports (base tm) ++ [clock_name tm]
                 ++ option_list (set_name tm) ++ option_list (reset_name tm))
       ∧ ∀ e, r = Raised e → is_ConfigurationError e = false).
Proof.
  intros Hempty. unfold seq_characterize.
  rewrite MF_bind_unfold, lift_fuel_unfold.
  match goal with
  | |- context [measure_capacitances settings (base tm) ?pins cell log] =>
      destruct (measure_capacitances_spec (base tm) pins cell log)
        as (r1 & a1 & -> & F1 & L1 & T1)
  end.
  destruct r1 as [c1|e1].
  - rewrite MF_bind_unfold.
    destruct (seq_run_all_delays_empty fuel tm (log ++ a1) Hempty)
      as (hs & ->).
    rewrite lift_fuel_unfold. unfold lift.
    match goal with
    | |- context [store_timing_tables ?a ?b ?c ?d ?e ?f ?g] =>
        destruct (store_timing_tables a b c d e f g) as [c2|e'] eqn:Hstore
    end.
    + eexists _, a1. split; [reflexivity|]. split_and!; [done..|].
      intros _ _. split; [by apply (L1 c1)|done].
    + eexists _, a1. split; [reflexivity|]. split_and!; [done..|].
      intros _ _. split; [by apply (L1 c1)|].
      intros e [= <-].
      by apply store_timing_tables_raises in Hstore as ->.
  - exists (Raised e1), a1. split_and!; [done..|].
    intros (name & ports & Hd) Hac. by destruct (T1 name ports Hd Hac).
Qed.
End characterize.

(** C8: when [characterize] returns, of either manager, the tables it
    has added to the cell are two per (output pin, input pin, direction),
    in loop order: the cell-delay table and the transition table of the
    harness of that arc.  Each holds [m]x[n] values, the value at
    position [i*n + j] being the stored result of slew [i] and load [j];
    its two index lists are the slew list and the load list of the
    manager, as strings, in their order. *)
Theorem timing_tables_are_row_major_grids
    `{Simulator} `{PyFormat} `{HarnessModule}
    (fuel : nat) (settings : LibrarySettings)
    (tm : TestManager) (cell cell' : Cell) (log log' : list sim_call)
    (stm : SequentialTestManager) (scell scell' : Cell)
    (slog slog' : list sim_call) :
  comb_characterize settings tm cell log = (Ok cell', log') →
  seq_characterize fuel settings stm scell slog = (Ok (Some scell'), slog') →
  (∃ harnesses added,
     tables cell' = tables cell ++ added
     ∧ tables_of_arcs settings (_in_slews tm) (_out_loads tm)
         (out_ports tm) (in_ports tm) harnesses added)
  ∧ (∃ harnesses added,
       tables scell' = tables scell ++ added
       ∧ tables_of_arcs settings (in_slews stm) (out_loads stm)
           (out_ports (base stm)) (in_ports (base stm)) harnesses added).
Proof.
  intros Hc Hs. split.
  - by eapply comb_characterize_tables.
  - by eapply seq_characterize_tables.
Qed.

Lemma timing_tables_are_row_major_grids_witness :
  ∃ cell' log' scell' slog',
    @comb_characterize ex_simulator ex_format ex_harness_module
      ex_settings ex_inv empty_cell [] = (Ok cell', log')
    ∧ @seq_characterize ex_simulator ex_format ex_harness_module
        3 ex_settings ex_seq_wide empty_cell [] = (Ok (Some scell'), slog')
    ∧ (∃ harnesses added,
         tables cell' = tables empty_cell ++ added
         ∧ @tables_of_arcs ex_format ex_settings (_in_slews ex_inv)
             (_out_loads ex_inv) (out_ports ex_inv) (in_ports ex_inv)
             harnesses added)
    ∧ (∃ harnesses added,
         tables scell' = tables empty_cell ++ added
         ∧ @tables_of_arcs ex_format ex_settings (in_slews ex_seq_wide)
             (out_loads ex_seq_wide) (out_ports (base ex_seq_wide))
             (in_ports (base ex_seq_wide)) harnesses added).
Proof.
  assert (Hc : ∃ cell' log',
             @comb_characterize ex_simulator ex_format ex_harness_module
               ex_settings ex_inv empty_cell [] = (Ok cell', log'))
    by (eexists; eexists; vm_compute; reflexivity).
  assert (Hs : ∃ scell' slog',
             @seq_characterize ex_simulator ex_format ex_harness_module
               3 ex_settings ex_seq_wide empty_cell []
             = (Ok (Some scell'), slog'))
    by (eexists; eexists; vm_compute; reflexivity).
  destruct Hc as (cell' & log' & Hc). destruct Hs as (scell' & slog' & Hs).
  exists cell', log', scell', slog'.
  split; [exact Hc|]. split; [exact Hs|].
  exact (@timing_tables_are_row_major_grids ex_simulator ex_format
           ex_harness_module 3 ex_settings ex_inv empty_cell cell' [] log'
           ex_seq_wide empty_cell scell' [] slog' Hc Hs).
Defined.

(** The inverter, one slew and two loads: four 1x2 tables. *)
Example inverter_tables :
  ∃ cell' log',
    @comb_characterize ex_simulator ex_format ex_harness_module
      ex_settings ex_inv empty_cell [] = (Ok cell', log')
    ∧ ((fun '(o, i, t) => (o, i, table_name t, template t, values t))
         <$> tables cell')
      = [("Y", "A", "cell_rise", "delay_template_1x2", ["1/100"; "1/50"]);
         ("Y", "A", "rise_transition", "delay_template_1x2",
          ["1/100"; "1/100"]);
         ("Y", "A", "cell_fall", "delay_template_1x2", ["1/100"; "1/50"]);
         ("Y", "A", "fall_transition", "delay_template_1x2",
          ["1/100"; "1/100"])]%string.
Proof.
  eexists. eexists. split; [vm_compute; reflexivity|reflexivity].
Qed.

(** C4, as the code has it: with an empty slew list or an empty load
    list, [characterize] checks nothing up front.  It makes the
    input-capacitance simulator calls, one per pin measured when the cell
    definition is found and the simulator converges, makes no delay-trial
    call, and whatever it raises afterwards is not a configuration
    error; the sequential manager never runs out of fuel, having no
    search to run. *)
Theorem characterize_empty_sweep_measures_capacitance_only
    `{Simulator} `{PyFormat} `{HarnessModule}
    (fuel : nat) (settings : LibrarySettings)
    (tm : TestManager) (cell : Cell) (name : string) (ports : list string)
    (stm : SequentialTestManager) (scell : Cell) (sname : string)
    (sports : list string) (log : list sim_call) :
  _in_slews tm = [] ∨ _out_loads tm = [] →
  in_slews stm = [] ∨ out_loads stm = [] →
  definition tm = Some (name :: ports) →
  definition (base stm) = Some (sname :: sports) →
  (∀ pin subckt conns, is_Some (ac_capacitance pin subckt conns)) →
  (∃ r added,
     comb_characterize settings tm cell log = (r, log ++ added)
     ∧ Forall (fun c => is_ac_sweep c = true) added
     ∧ length added = length (in_ports tm)
     ∧ ∀ e, r = Raised e → is_ConfigurationError e = false)
  ∧ (∃ r added,
       seq_characterize fuel settings stm scell log = (r, log ++ added)
       ∧ Forall (fun c => is_ac_sweep c = true) added
       ∧ length added
         = length (in_ports (base stm) ++ [clock_name stm]
                   ++ option_list (set_name stm) ++ option_list (reset_name stm))
       ∧ r ≠ Ok None
       ∧ ∀ e, r = Raised e → is_ConfigurationError e = false).
Proof.
  intros Hc Hs Hdef Hsdef Hac. split.
  - destruct (comb_characterize_empty_sweep settings tm cell log Hc)
      as (r & added & E & Hall & Hrest).
    destruct Hrest as [Hlen Herr]; [by eauto|done|].
    exists r, added. by split_and!.
  - destruct (seq_characterize_empty_sweep settings fuel stm scell log Hs)
      as (r & added & E & Hall & Hfuel & Hrest).
    destruct Hrest as [Hlen Herr]; [by eauto|done|].
    exists r, added. by split_and!.
Qed.

Lemma characterize_empty_sweep_measures_capacitance_only_witness :
  (_in_slews ex_inv_no_slews = [] ∨ _out_loads ex_inv_no_slews = [])
  ∧ (in_slews ex_seq_no_loads = [] ∨ out_loads ex_seq_no_loads = [])
  ∧ (∃ r added,
       @comb_characterize ex_simulator ex_format ex_harness_module
         ex_settings ex_inv_no_slews empty_cell [] = (r, [] ++ added)
       ∧ Forall (fun c => is_ac_sweep c = true) added
       ∧ length added = 1%nat
       ∧ ∀ e, r = Raised e → is_ConfigurationError e = false)
  ∧ (∃ r added,
       @seq_characterize ex_simulator ex_format ex_harness_module
         0 ex_settings ex_seq_no_loads empty_cell [] = (r, [] ++ added)
       ∧ Forall (fun c => is_ac_sweep c = true) added
       ∧ length added = 2%nat
       ∧ r ≠ Ok None
       ∧ ∀ e, r = Raised e → is_ConfigurationError e = false).
Proof.
  split; [by left|]. split; [by right|].
  apply (@characterize_empty_sweep_measures_capacitance_only
           ex_simulator ex_format ex_harness_module 0 ex_settings
           ex_inv_no_slews empty_cell "INV" ["A"; "Y"; "VDD"; "VSS"]%string
           ex_seq_no_loads empty_cell "DFF" ex_flop_ports []).
  - by left.
  - by right.
  - reflexivity.
  - reflexivity.
  - intros pin subckt conns. by eexists.
Defined.

(** C4 fails as stated: on the inverter with no slew rate, [characterize]
    calls the simulator for the capacitance of pin A; it does not fail
    with a configuration error before any simulator call. *)
Lemma characterize_empty_slews_calls_simulator :
  _in_slews ex_inv_no_slews = []
  ∧ (@comb_characterize ex_simulator ex_format ex_harness_module
       ex_settings ex_inv_no_slews empty_cell []).2
    = [AcSweep "A" "INV" ["vin"; "vY"; "vdd"; "vss"]]
  ∧ ¬ ∃ e,
        @comb_characterize ex_simulator ex_format ex_harness_module
          ex_settings ex_inv_no_slews empty_cell [] = (Raised e, [])
        ∧ is_ConfigurationError e = true.
Proof.
  split; [reflexivity|]. split; [by vm_compute|].
  intros (e & Hrun & _).
  apply (f_equal snd) in Hrun. vm_compute in Hrun. discriminate.
Qed.
(** * The rest of the module: properties *)

(** ** Smallest and largest slew *)

Lemma py_min_fold (xs : list Q) : ∀ m,
  let r := fold_left (fun m y => if Qltb y m then y else m) xs m in
  (r = m ∨ r ∈ xs) ∧ r <= m ∧ Forall (fun s => r <= s) xs.
Proof.
  induction xs as [|y xs IH]; intros m; cbn [fold_left].
  - split_and!; [by left|lra|constructor].
  - destruct (Qltb y m) eqn:E.
    + apply Qltb_lt in E. destruct (IH y) as (Hin & Hle & Hall).
      split_and!.
      * right. destruct Hin as [->|Hin]; [by left|by right].
      * lra.
      * by constructor.
    + apply Qltb_ge in E. destruct (IH m) as (Hin & Hle & Hall).
      split_and!.
      * destruct Hin as [->|Hin]; [by left|right; by right].
      * done.
      * constructor; [lra|done].
Qed.

(** [min] of a non-empty list is one of its elements and below all. *)
Lemma py_min_spec (x : Q) (xs : list Q) :
  py_min x xs ∈ x :: xs ∧ Forall (fun s => py_min x xs <= s) (x :: xs).
Proof.
  destruct (py_min_fold xs x) as (Hin & Hle & Hall). unfold py_min. split.
  - destruct Hin as [->|Hin]; [by left|by right].
  - by constructor.
Qed.





(** ** Gray codes *)

Lemma gen_graycode_from_step (n : nat) :
  gen_graycode_from (S (S n))
  = (cons 0%Z <$> gen_graycode_from (S n))
    ++ (cons 1%Z <$> reverse (gen_graycode_from (S n))).
Proof. reflexivity. Qed.

Lemma gen_graycode_from_size (n : nat) :
  length (gen_graycode_from (S n)) = (2 ^ S n)%nat
  ∧ Forall (fun code => length code = S n
                        ∧ Forall (fun b => b = 0%Z ∨ b = 1%Z) code)
      (gen_graycode_from (S n)).
Proof.
  induction n as [|n [IHlen IHall]].
  - split; [done|].
    repeat first [apply Forall_cons; split | apply Forall_nil | split
                 | done | by left | by right].
  - rewrite gen_graycode_from_step. split.
    + rewrite length_app, !length_fmap, length_reverse, IHlen.
      change (2 ^ S (S n))%nat with (2 * 2 ^ S n)%nat. lia.
    + apply Forall_app. split; apply Forall_fmap.
      * eapply Forall_impl; [exact IHall|]. intros c [Hl Hb]. cbn.
        split; [by rewrite Hl|]. constructor; auto.
      * apply Forall_reverse.
        eapply Forall_impl; [exact IHall|]. intros c [Hl Hb]. cbn.
        split; [by rewrite Hl|]. constructor; auto.
Qed.

Lemma differing_bits_same (a : list Z) : differing_bits a a = 0%nat.
Proof.
  induction a as [|x a IH]; [done|]. cbn.
  by rewrite bool_decide_eq_true_2, IH.
Qed.

Lemma differing_bits_sym (a b : list Z) : differing_bits a b = differing_bits b a.
Proof.
  revert b. induction a as [|x a IH]; intros [|y b]; try done. cbn.
  rewrite IH. by repeat case_bool_decide.
Qed.

Lemma chain_app {A : Type} (R : A → A → Prop) (l1 l2 : list A) :
  chain R l1 → chain R l2 →
  (∀ a b, last l1 = Some a → head l2 = Some b → R a b) →
  chain R (l1 ++ l2).
Proof.
  induction l1 as [|x [|y l1] IH]; intros H1 H2 Hseam.
  - done.
  - destruct l2 as [|b l2]; [done|]. cbn. split; [by apply Hseam|done].
  - destruct H1 as [Hxy H1]. cbn. split; [done|].
    apply IH; [done|done|]. intros a b Ha Hb. apply Hseam; [|done].
    by rewrite last_cons_cons.
Qed.

Lemma chain_fmap {A B : Type} (R : A → A → Prop) (R' : B → B → Prop)
    (f : A → B) (l : list A) :
  (∀ a b, R a b → R' (f a) (f b)) → chain R l → chain R' (f <$> l).
Proof.
  intros Hf. induction l as [|x [|y l] IH]; intros H; try done.
  destruct H as [Hxy H]. split; [by apply Hf|]. by apply IH.
Qed.

Lemma chain_snoc {A : Type} (R : A → A → Prop) (l : list A) (x : A) :
  chain R l → (∀ a, last l = Some a → R a x) → chain R (l ++ [x]).
Proof.
  intros Hl Hx. apply chain_app; [done|done|].
  intros a b Ha [= <-]. by apply Hx.
Qed.

Lemma chain_reverse {A : Type} (R : A → A → Prop) (l : list A) :
  chain R l → chain (fun a b => R b a) (reverse l).
Proof.
  induction l as [|x [|y l] IH]; intros H; try done.
  destruct H as [Hxy H]. rewrite reverse_cons. apply chain_snoc; [by apply IH|].
  intros a. rewrite last_reverse. by intros [= <-].
Qed.

Lemma chain_lookup {A : Type} (R : A → A → Prop) (l : list A) :
  chain R l ↔ ∀ i a b, l !! i = Some a → l !! S i = Some b → R a b.
Proof.
  induction l as [|x [|y l] IH].
  - split; [by intros _ i a b [=]|done].
  - split; [by intros _ [|i] a b ? [=]|done].
  - split.
    + intros [Hxy H] [|i] a b Ha Hb.
      * by injection Ha as <-; injection Hb as <-.
      * by apply (proj1 IH H i).
    + intros H. split; [by apply (H 0%nat)|].
      apply (proj2 IH). intros i a b Ha Hb. by apply (H (S i)).
Qed.

Lemma head_fmap_list {A B : Type} (f : A → B) (l : list A) :
  head (f <$> l) = f <$> head l.
Proof. by destruct l. Qed.

Lemma gen_graycode_from_ends (n : nat) :
  ∃ first lst, head (gen_graycode_from (S n)) = Some first
               ∧ last (gen_graycode_from (S n)) = Some lst
               ∧ differing_bits lst first = 1%nat.
Proof.
  induction n as [|n (f & l & Hf & Hl & Hd)].
  - by exists [0%Z], [1%Z].
  - rewrite gen_graycode_from_step.
    exists (0%Z :: f), (1%Z :: f). split_and!.
    + apply head_Some in Hf as [rest ->]. done.
    + rewrite last_app, fmap_last, last_reverse, Hf. done.
    + cbn. by rewrite differing_bits_same.
Qed.

Lemma gen_graycode_from_chain (n : nat) :
  chain (fun a b => differing_bits a b = 1%nat) (gen_graycode_from (S n)).
Proof.
  induction n as [|n IH]; [by cbn|].
  rewrite gen_graycode_from_step.
  destruct (gen_graycode_from_ends n) as (f & l & Hf & Hl & Hd).
  apply chain_app.
  - eapply chain_fmap; [|exact IH]. intros a b Hab. cbn. by rewrite Hab.
  - eapply chain_fmap; [|apply chain_reverse, IH].
    intros a b Hab. cbn. by rewrite differing_bits_sym, Hab.
  - intros a b. rewrite fmap_last, Hl. intros [= <-].
    rewrite head_fmap_list, head_reverse, Hl. intros [= <-]. cbn.
    by rewrite differing_bits_same.
Qed.

Lemma gen_graycode_from_NoDup (n : nat) : NoDup (gen_graycode_from (S n)).
Proof.
  induction n as [|n IH].
  - apply NoDup_cons. split; [|apply NoDup_singleton].
    intros H. apply list_elem_of_singleton in H. done.
  - rewrite gen_graycode_from_step. apply NoDup_app. split_and!.
    + apply NoDup_fmap_2; [|done]. by intros a b [=].
    + intros c Hc Hc'.
      apply list_elem_of_fmap in Hc as (a & -> & _).
      apply list_elem_of_fmap in Hc' as (b & [=] & _).
    + apply NoDup_fmap_2; [by intros a b [=]|]. by rewrite reverse_Permutation.
Qed.

Lemma gen_graycode_from_pred (n : nat) :
  gen_graycode_from n = gen_graycode_from (S (Nat.pred n)).
Proof. by destruct n. Qed.

Lemma gen_graycode_width (n : Z) :
  _gen_graycode n = gen_graycode_from (S (Nat.pred (Z.to_nat n)))
  ∧ Z.to_nat (Z.max 1 n) = S (Nat.pred (Z.to_nat n)).
Proof.
  split; [apply gen_graycode_from_pred|lia].
Qed.

(** X1.  [_gen_graycode(length)] lists every code of [max(1, length)]
    bits exactly once: it has 2^width entries, each a list of width
    bits 0 or 1, and no entry occurs twice.  A length of 0 or below gives
    the one-bit codes. *)
Theorem gen_graycode_enumerates_all_codes (n : Z) :
  let width := Z.to_nat (Z.max 1 n) in
  length (_gen_graycode n) = (2 ^ width)%nat
  ∧ Forall (fun code => length code = width
                        ∧ Forall (fun b => b = 0%Z ∨ b = 1%Z) code)
      (_gen_graycode n)
  ∧ NoDup (_gen_graycode n).
Proof.
  destruct (gen_graycode_width n) as [-> ->]. cbv zeta.
  destruct (gen_graycode_from_size (Nat.pred (Z.to_nat n))) as [Hlen Hall].
  split_and!; [done|done|apply gen_graycode_from_NoDup].
Qed.

(** X2.  Neighbouring codes of [_gen_graycode(length)] differ in exactly
    one bit, and so do the last code and the first: the list is a cyclic
    Gray code. *)
Theorem gen_graycode_neighbours_differ_in_one_bit (n : Z) :
  chain (fun a b => differing_bits a b = 1%nat) (_gen_graycode n)
  ∧ ∃ first lst, head (_gen_graycode n) = Some first
                 ∧ last (_gen_graycode n) = Some lst
                 ∧ differing_bits lst first = 1%nat.
Proof.
  destruct (gen_graycode_width n) as [-> _].
  split; [apply gen_graycode_from_chain|apply gen_graycode_from_ends].
Qed.

Example gen_graycode_two_bits :
  _gen_graycode 2 = [[0; 0]; [0; 1]; [1; 1]; [1; 0]]%Z
  ∧ _gen_graycode (-3) = [[0]; [1]]%Z.
Proof. done. Qed.

(** ** Strings *)

Lemma upper_ascii_idemp (c : ascii) : upper_ascii (upper_ascii c) = upper_ascii c.
Proof. by destruct c as [[] [] [] [] [] [] [] []]. Qed.

Lemma upper_ascii_not_lower (c : ascii) : is_lower_letter (upper_ascii c) = false.
Proof. by destruct c as [[] [] [] [] [] [] [] []]. Qed.

Lemma upper_ascii_fixed (c : ascii) :
  upper_ascii c = c ↔ is_lower_letter c = false.
Proof. by destruct c as [[] [] [] [] [] [] [] []]. Qed.

Lemma upper_idemp (s : string) : upper (upper s) = upper s.
Proof.
  induction s as [|c s IH]; [done|]. cbn. by rewrite upper_ascii_idemp, IH.
Qed.

Lemma upper_fixed (s : string) :
  upper s = s ↔ all_chars (fun c => negb (is_lower_letter c)) s = true.
Proof.
  induction s as [|c s IH]; [done|]. cbn.
  rewrite andb_true_iff, negb_true_iff, <- IH, <- upper_ascii_fixed.
  split; [intros [= H1 H2]; by split|intros [H1 H2]; by rewrite H1, H2].
Qed.

Lemma string_app_cons (x : ascii) (a b : string) :
  (String x a ++ b = String x (a ++ b))%string.
Proof. reflexivity. Qed.

Lemma string_app_assoc (a b c : string) : ((a ++ b) ++ c = a ++ (b ++ c))%string.
Proof.
  induction a as [|x a IH]; [done|]. by rewrite !string_app_cons, IH.
Qed.

Lemma string_app_nil_r (a : string) : (a ++ "" = a)%string.
Proof.
  induction a as [|x a IH]; [done|]. by rewrite string_app_cons, IH.
Qed.

Lemma all_chars_app (P : ascii → bool) (a b : string) :
  all_chars P (a ++ b) = all_chars P a && all_chars P b.
Proof.
  induction a as [|x a IH]; [done|].
  rewrite string_app_cons. cbn [all_chars]. by rewrite IH, andb_assoc.
Qed.

(** The words of a split consist of characters of the string. *)
Lemma split_from_chars (P : ascii → bool) (s : string) : ∀ word,
  all_chars P word = true → all_chars P s = true →
  Forall (fun t => all_chars P t = true) (split_from s word).
Proof.
  induction s as [|c s IH]; intros word Hw Hs; cbn.
  - destruct word; by repeat constructor.
  - cbn in Hs. apply andb_true_iff in Hs as [Hc Hs].
    destruct (is_space c).
    + destruct word; [by apply IH|]. constructor; [done|by apply IH].
    + apply IH; [|done]. rewrite all_chars_app. cbn [all_chars].
      by rewrite Hw, Hc.
Qed.

(** The words of a split are non-empty and free of whitespace. *)
Lemma split_from_words (s : string) : ∀ word,
  all_chars (fun c => negb (is_space c)) word = true →
  Forall (fun t => t ≠ EmptyString
                   ∧ all_chars (fun c => negb (is_space c)) t = true)
    (split_from s word).
Proof.
  induction s as [|c s IH]; intros word Hw; cbn.
  - destruct word; by repeat constructor.
  - destruct (is_space c) eqn:Ec.
    + destruct word; [by apply IH|]. constructor; [done|by apply IH].
    + apply IH. rewrite all_chars_app. cbn [all_chars negb].
      by rewrite Hw, Ec.
Qed.

Lemma split_from_word (w : string) : ∀ s word,
  all_chars (fun c => negb (is_space c)) w = true →
  split_from (w ++ s) word = split_from s (word ++ w).
Proof.
  induction w as [|c w IH]; intros s word Hw.
  - by rewrite string_app_nil_r.
  - cbn [all_chars] in Hw. apply andb_true_iff in Hw as [Hc Hw].
    apply negb_true_iff in Hc.
    rewrite string_app_cons. cbn [split_from]. rewrite Hc, IH by done.
    by rewrite string_app_assoc.
Qed.

(** Splitting a join of words gives the words back. *)
Lemma py_split_join (words : list string) :
  Forall (fun t => t ≠ EmptyString
                   ∧ all_chars (fun c => negb (is_space c)) t = true) words →
  py_split (py_join words) = words.
Proof.
  unfold py_split. induction 1 as [|w rest [Hne Hw] Hrest IH]; [done|].
  destruct rest as [|w' rest].
  - cbn [py_join]. rewrite <- (string_app_nil_r w) at 1.
    rewrite split_from_word by done. cbn [split_from].
    change ("" ++ w)%string with w. by destruct w.
  - change (py_join (w :: w' :: rest))
      with (w ++ String " " (py_join (w' :: rest)))%string.
    rewrite split_from_word by done. cbn [split_from].
    change (is_space " ") with true. cbv iota.
    change ("" ++ w)%string with w. rewrite IH. by destruct w.
Qed.

Lemma prefix_upper_fixed (needle : string) : ∀ hay,
  String.prefix needle (upper hay) = true → upper needle = needle.
Proof.
  induction needle as [|c needle IH]; intros [|d hay] H; try done.
  cbn in H. destruct (ascii_dec c (upper_ascii d)) as [->|]; [|done].
  cbn. rewrite upper_ascii_idemp. f_equal. by eapply IH.
Qed.

(** Only an upper-case needle is found in an upper-cased string. *)
Lemma contains_upper_fixed (needle : string) : ∀ hay,
  contains needle (upper hay) = true → upper needle = needle.
Proof.
  induction hay as [|d hay IH]; cbn; intros H.
  - apply orb_true_iff in H as [H|H]; [|done]. by destruct needle.
  - apply orb_true_iff in H as [H|H]; [|by apply IH].
    by apply (prefix_upper_fixed needle (String d hay)).
Qed.

(** ** Triggered pins *)

Lemma py_split_words (s : string) : Forall is_word (py_split s).
Proof. by apply split_from_words. Qed.

(** X3.  [_parse_triggered_pin] reads back what was written: for a
    trigger 'posedge' or 'negedge' and a pin name that is a single word,
    the string "<trigger> <name>" parses to that trigger and that name. *)
Theorem parse_triggered_pin_round_trip (edge name : string) :
  edge = "posedge"%string ∨ edge = "negedge"%string →
  is_word name →
  _parse_triggered_pin (PyStr (py_join [edge; name])) = inr (edge, name).
Proof.
  intros Hedge Hname. unfold _parse_triggered_pin.
  assert (Hword : is_word edge) by (by destruct Hedge as [->| ->]).
  assert (Hin : edge ∈ ["posedge"; "negedge"]%string).
  { destruct Hedge as [->| ->]; [by left|right; by left]. }
  rewrite py_split_join.
  - by rewrite bool_decide_eq_true_2.
  - apply Forall_cons. split; [exact Hword|].
    apply Forall_cons. split; [exact Hname|by apply Forall_nil].
Qed.

Lemma parse_triggered_pin_round_trip_witness :
  is_word "CLK"
  ∧ _parse_triggered_pin (PyStr "posedge CLK") = inr ("posedge", "CLK")%string.
Proof.
  assert (Hw : is_word "CLK") by done.
  split; [exact Hw|].
  exact (parse_triggered_pin_round_trip "posedge" "CLK" (or_introl eq_refl) Hw).
Defined.

Lemma parse_triggered_pin_spec (value : pyval) :
  match _parse_triggered_pin value with
  | inr (edge, name) =>
      ∃ s, value = PyStr s ∧ py_split s = [edge; name]
           ∧ (edge = "posedge"%string ∨ edge = "negedge"%string)
           ∧ is_word name
  | inl PinNotAString => ∀ s, value ≠ PyStr s
  | inl PinNotTwoWords => ∃ s, value = PyStr s ∧ length (py_split s) ≠ 2%nat
  | inl PinInvalidTrigger =>
      ∃ s edge name, value = PyStr s ∧ py_split s = [edge; name]
                     ∧ edge ≠ "posedge"%string ∧ edge ≠ "negedge"%string
  end.
Proof.
  destruct value as [z|q|s|]; try done. unfold _parse_triggered_pin.
  pose proof (py_split_words s) as Hwords.
  destruct (py_split s) as [|edge [|name [|third rest]]] eqn:Hs;
    try (by exists s; rewrite Hs).
  destruct (decide (edge ∈ ["posedge"; "negedge"]%string)) as [Hedge|Hedge].
  all: [> rewrite (bool_decide_eq_true_2 _ Hedge)
        | rewrite (bool_decide_eq_false_2 _ Hedge)].
  - exists s. split_and!; try done.
    + apply elem_of_cons in Hedge as [->|Hedge]; [by left|].
      apply list_elem_of_singleton in Hedge as ->. by right.
    + apply Forall_cons in Hwords as [_ Hwords].
      by apply Forall_cons in Hwords as [Hname _].
  - exists s, edge, name. split_and!; try done.
    + intros ->. apply Hedge. by left.
    + intros ->. apply Hedge. right. by left.
Qed.

(** A run of whitespace ahead of a word is skipped. *)
Lemma split_from_spaces (ws : string) : ∀ s,
  all_chars is_space ws = true →
  split_from (ws ++ s) EmptyString = split_from s EmptyString.
Proof.
  induction ws as [|c ws IH]; intros s Hws; [done|].
  cbn [all_chars] in Hws. apply andb_true_iff in Hws as [Hc Hws].
  rewrite string_app_cons. cbn [split_from]. rewrite Hc. by apply IH.
Qed.

(** A word being read is never lost. *)
Lemma split_from_nonempty (s : string) : ∀ word,
  word ≠ EmptyString → split_from s word ≠ [].
Proof.
  induction s as [|c s IH]; intros word Hw; cbn [split_from].
  - by destruct word.
  - destruct (is_space c); [by destruct word|].
    apply IH. by destruct word.
Qed.

(** Reading on from the start of a string: the whitespace skipped, and
    the first character of the first word. *)
Lemma split_from_skip (s : string) :
  ∃ ws s',
    s = (ws ++ s')%string ∧ all_chars is_space ws = true
    ∧ ((s' = EmptyString ∧ split_from s EmptyString = [])
       ∨ ∃ c s'', s' = String c s'' ∧ is_space c = false
                  ∧ split_from s EmptyString
                    = split_from s'' (String c EmptyString)).
Proof.
  induction s as [|c s IH].
  - exists EmptyString, EmptyString. split_and!; try done. by left.
  - cbn [split_from]. destruct (is_space c) eqn:Ec.
    + destruct IH as (ws & s' & -> & Hws & Hrest).
      exists (String c ws), s'. split_and!; try done.
      cbn [all_chars]. by rewrite Ec, Hws.
    + exists EmptyString, (String c s). split_and!; try done.
      right. by exists c, s.
Qed.

(** Reading on within a word: the rest of the word, and what ends
    it. *)
Lemma split_from_read (s : string) : ∀ word,
  word ≠ EmptyString →
  ∃ u s',
    s = (u ++ s')%string ∧ all_chars (fun c => negb (is_space c)) u = true
    ∧ ((s' = EmptyString ∧ split_from s word = [(word ++ u)%string])
       ∨ ∃ c s'', s' = String c s'' ∧ is_space c = true
                  ∧ split_from s word
                    = (word ++ u)%string :: split_from s'' EmptyString).
Proof.
  induction s as [|c s IH]; intros word Hw.
  - exists EmptyString, EmptyString.
    split_and!; try done. left. split; [done|].
    rewrite string_app_nil_r. by destruct word.
  - cbn [split_from]. destruct (is_space c) eqn:Ec.
    + exists EmptyString, (String c s).
      split_and!; try done. right. exists c, s.
      split_and!; try done. rewrite string_app_nil_r. by destruct word.
    + destruct (IH (word ++ String c EmptyString)%string) as
        (u & s' & -> & Hu & Hrest); [by destruct word|].
      exists (String c u), s'. split_and!; try done.
      * cbn [all_chars]. by rewrite Ec, Hu.
      * assert (E : ((word ++ String c EmptyString) ++ u
                     = word ++ String c u)%string)
          by (by rewrite string_app_assoc).
        rewrite E in Hrest. exact Hrest.
Qed.

(** A string of two words is the two words with whitespace around
    them and between them. *)
Lemma py_split_two (s a b : string) :
  py_split s = [a; b] →
  ∃ ws0 ws1 ws2,
    all_chars is_space ws0 = true ∧ all_chars is_space ws1 = true
    ∧ ws1 ≠ EmptyString ∧ all_chars is_space ws2 = true
    ∧ s = (ws0 ++ a ++ ws1 ++ b ++ ws2)%string.
Proof.
  unfold py_split. intros Hs.
  destruct (split_from_skip s) as (ws0 & s0 & -> & Hws0 & [[_ E]|H0]);
    [congruence|].
  destruct H0 as (c & s1 & -> & Hc & E0). rewrite E0 in Hs. clear E0.
  destruct (split_from_read s1 (String c EmptyString) ltac:(done))
    as (u & s2 & -> & Hu & [[_ E]|H1]); [congruence|].
  destruct H1 as (sp & s3 & -> & Hsp & E1). rewrite E1 in Hs. clear E1.
  injection Hs as <- Hs.
  destruct (split_from_skip s3) as (ws1 & s4 & -> & Hws1 & [[_ E]|H2]);
    [congruence|].
  destruct H2 as (c' & s5 & -> & Hc' & E2). rewrite E2 in Hs. clear E2.
  destruct (split_from_read s5 (String c' EmptyString) ltac:(done))
    as (u' & s6 & -> & Hu' & [[-> E]|H3]).
  - rewrite E in Hs. injection Hs as <-.
    exists ws0, (String sp ws1), EmptyString.
    split_and!; try done; cbn [all_chars]; by rewrite ?Hsp, ?Hws1.
  - destruct H3 as (sp' & s7 & -> & Hsp' & E3). rewrite E3 in Hs. clear E3.
    injection Hs as <- Hs.
    destruct (split_from_skip s7) as (ws2 & s8 & -> & Hws2 & [[-> E]|H4]).
    + exists ws0, (String sp ws1), (String sp' ws2).
      rewrite ?string_app_nil_r.
      split_and!; try done; cbn [all_chars];
        by rewrite ?Hsp, ?Hws1, ?Hsp', ?Hws2.
    + destruct H4 as (c'' & s9 & -> & _ & E4). rewrite E4 in Hs.
      by apply split_from_nonempty in Hs.
Qed.

(** Two words with whitespace around them and between them split into
    the two words. *)
Lemma py_split_spaced (ws0 a ws1 b ws2 : string) :
  all_chars is_space ws0 = true → is_word a →
  all_chars is_space ws1 = true → ws1 ≠ EmptyString → is_word b →
  all_chars is_space ws2 = true →
  py_split (ws0 ++ a ++ ws1 ++ b ++ ws2) = [a; b].
Proof.
  intros H0 [Ha Hwa] H1 Hne [Hb Hwb] H2. unfold py_split.
  rewrite split_from_spaces by done.
  rewrite split_from_word by done.
  destruct ws1 as [|sp ws1]; [done|].
  cbn [all_chars] in H1. apply andb_true_iff in H1 as [Hsp H1].
  rewrite string_app_cons. cbn [split_from]. rewrite Hsp.
  change ("" ++ a)%string with a.
  destruct a as [|ca a]; [done|]. f_equal.
  rewrite split_from_spaces by done.
  rewrite split_from_word by done.
  change ("" ++ b)%string with b.
  destruct b as [|cb b]; [done|].
  destruct ws2 as [|sp2 ws2]; [done|].
  cbn [all_chars] in H2. apply andb_true_iff in H2 as [Hsp2 H2].
  cbn [split_from]. rewrite Hsp2. f_equal.
  rewrite <- (string_app_nil_r ws2). by rewrite split_from_spaces.
Qed.

(** X4.  What [_parse_triggered_pin] accepts: exactly the strings that
    are 'posedge' or 'negedge' in lower case and a pin name, one
    non-empty word without whitespace, with whitespace between the two
    and any whitespace around them; the trigger and the name are what
    it returns.  The no-break space counts as whitespace.  A value that
    is no string is a [TypeError], and only such a value. *)
Theorem parse_triggered_pin_accepts_two_words_only (value : pyval)
    (edge name : string) :
  (_parse_triggered_pin value = inr (edge, name)
   ↔ (edge = "posedge"%string ∨ edge = "negedge"%string)
     ∧ is_word name
     ∧ ∃ ws0 ws1 ws2,
         all_chars is_space ws0 = true ∧ all_chars is_space ws1 = true
         ∧ ws1 ≠ EmptyString ∧ all_chars is_space ws2 = true
         ∧ value = PyStr (ws0 ++ edge ++ ws1 ++ name ++ ws2))
  ∧ (_parse_triggered_pin value = inl PinNotAString
     ↔ ∀ s, value ≠ PyStr s).
Proof.
  split; split.
  - intros Hp. pose proof (parse_triggered_pin_spec value) as Hspec.
    rewrite Hp in Hspec. destruct Hspec as (s & -> & Hs & Hedge & Hname).
    split; [done|]. split; [done|].
    destruct (py_split_two s edge name Hs) as (ws0 & ws1 & ws2 & H0 & H1 & Hne & H2 & ->).
    by exists ws0, ws1, ws2.
  - intros (Hedge & Hname & ws0 & ws1 & ws2 & H0 & H1 & Hne & H2 & ->).
    unfold _parse_triggered_pin.
    assert (Hword : is_word edge) by (by destruct Hedge as [->| ->]).
    rewrite py_split_spaced by done.
    rewrite bool_decide_eq_true_2; [done|].
    destruct Hedge as [->| ->]; [by left|right; by left].
  - intros Hp. pose proof (parse_triggered_pin_spec value) as Hspec.
    by rewrite Hp in Hspec.
  - intros Hv. destruct value as [z|q|s|]; try done. by destruct (Hv s).
Qed.

(** 'posedge' and 'CLK' with a no-break space between them. *)
Example parse_triggered_pin_no_break_space :
  _parse_triggered_pin
    (PyStr ("posedge" ++ String (ascii_of_nat 160) "CLK"))
  = inr ("posedge", "CLK")%string.
Proof. done. Qed.

Example parse_triggered_pin_refusals :
  _parse_triggered_pin (PyStr "CLK") = inl PinNotTwoWords
  ∧ _parse_triggered_pin (PyStr "POSEDGE CLK") = inl PinInvalidTrigger
  ∧ _parse_triggered_pin (PyStr "  negedge   RN ") = inr ("negedge", "RN")%string
  ∧ _parse_triggered_pin (PyInt 1) = inl PinNotAString.
Proof. done. Qed.

(** X5.  [SequentialTestManager.__init__] assigns the set and the reset
    pin from [kwargs.get], which passes [None] to [_parse_triggered_pin]
    for a keyword that is absent: the pins are assigned only when set,
    reset and clock are all given as strings, and a manager built
    without a 'set' keyword raises the [TypeError] of the parser. *)
Theorem init_requires_set_and_reset_pins (set reset : option pyval)
    (clock : pyval) :
  match init_triggered_pins set reset clock with
  | inr pins =>
      ∃ s r c, set = Some (PyStr s) ∧ reset = Some (PyStr r) ∧ clock = PyStr c
               ∧ py_split s = [(parsed_set pins).1; (parsed_set pins).2]
               ∧ py_split r = [(parsed_reset pins).1; (parsed_reset pins).2]
               ∧ py_split c = [(parsed_clock pins).1; (parsed_clock pins).2]
  | inl _ => True
  end
  ∧ init_triggered_pins None reset clock = inl PinNotAString.
Proof.
  split.
  - unfold init_triggered_pins.
    pose proof (parse_triggered_pin_spec (default PyNone set)) as Hs.
    pose proof (parse_triggered_pin_spec (default PyNone reset)) as Hr.
    pose proof (parse_triggered_pin_spec clock) as Hc.
    destruct (_parse_triggered_pin (default PyNone set)) as [|[es ns]]; [done|].
    destruct (_parse_triggered_pin (default PyNone reset)) as [|[er nr]]; [done|].
    destruct (_parse_triggered_pin clock) as [|[ec nc]]; [done|].
    destruct Hs as (s & Hs & Hss & _), Hr as (r & Hr & Hrs & _),
             Hc as (c & -> & Hcs & _).
    destruct set as [set|]; [|done]. destruct reset as [reset|]; [|done].
    cbn in Hs, Hr. subst. by exists s, r, c.
  - done.
Qed.

(** ** The netlist *)

Lemma find_definition_spec (name : string) (lines : list string) :
  match find_definition name lines with
  | Ok line =>
      ∃ before after, lines = before ++ line :: after
                      ∧ defines name line = true
                      ∧ Forall (fun l => defines name l = false) before
  | Raised e =>
      e = ValueError NoDefinition
      ∧ Forall (fun l => defines name l = false) lines
  end.
Proof.
  induction lines as [|line rest IH]; [done|]. cbn [find_definition].
  fold (defines name line). destruct (defines name line) eqn:Hline.
  - by exists [], rest.
  - destruct (find_definition name rest) as [found|e].
    + destruct IH as (before & after & -> & Hfound & Hbefore).
      exists (line :: before), after. split_and!; [done|done|].
      by apply Forall_cons.
    + destruct IH as [-> Hrest]. split; [done|]. by apply Forall_cons.
Qed.

(** X6.  [TestManager.definition] returns the first line of the netlist
    that, in upper case, contains the cell name and 'SUBCKT'; no line
    before it does; and it raises [ValueError] exactly when no line of
    the file does. *)
Theorem definition_is_first_matching_line (name : string) (lines : list string) :
  match find_definition name lines with
  | Ok line =>
      ∃ before after, lines = before ++ line :: after
                      ∧ contains name (upper line) = true
                      ∧ contains "SUBCKT" (upper line) = true
                      ∧ Forall (fun l => defines name l = false) before
  | Raised e =>
      e = ValueError NoDefinition
      ∧ Forall (fun l => defines name l = false) lines
  end.
Proof.
  pose proof (find_definition_spec name lines) as Hspec.
  destruct (find_definition name lines) as [line|e]; [|done].
  destruct Hspec as (before & after & Hlines & Hline & Hbefore).
  apply andb_true_iff in Hline as [Hname Hsub].
  by exists before, after.
Qed.

Example definition_matches_by_substring :
  find_definition "INV" ex_netlist = Ok ".subckt INVX2 A Y VDD VSS"%string
  ∧ find_definition "CKT" ex_netlist = Ok ".subckt INVX2 A Y VDD VSS"%string.
Proof. done. Qed.

Lemma defines_upper_fixed (name line : string) :
  defines name line = true → upper name = name.
Proof.
  intros H. apply andb_true_iff in H as [H _].
  by apply contains_upper_fixed in H.
Qed.

Lemma find_definition_upper_name (name : string) (lines : list string) :
  upper name ≠ name →
  find_definition name lines = Raised (ValueError NoDefinition).
Proof.
  intros Hname. induction lines as [|line rest IH]; [done|].
  cbn [find_definition]. fold (defines name line).
  destruct (defines name line) eqn:Hline; [|done].
  by apply defines_upper_fixed in Hline.
Qed.

(** X7.  The cell name is compared with the upper-cased line, the name
    itself is left as it is: for a cell whose name has a lower-case
    letter, [definition] finds no line in any netlist, whatever the
    netlist holds, and raises [ValueError]. *)
Theorem definition_never_found_for_lowercase_name (name : string)
    (lines : list string) :
  upper name ≠ name →
  find_definition name lines = Raised (ValueError NoDefinition)
  ∧ instance name lines = Raised (ValueError NoDefinition)
  ∧ read_definition name lines = None.
Proof.
  intros Hname. unfold instance, read_definition, definition_tokens.
  by rewrite find_definition_upper_name.
Qed.

Lemma definition_never_found_for_lowercase_name_witness :
  upper "inv" ≠ "inv"%string
  ∧ ".subckt inv a y vdd vss"%string ∈ ex_netlist
  ∧ find_definition "inv" ex_netlist = Raised (ValueError NoDefinition)
  ∧ instance "inv" ex_netlist = Raised (ValueError NoDefinition)
  ∧ read_definition "inv" ex_netlist = None.
Proof.
  assert (Hname : upper "inv" ≠ "inv"%string) by done.
  split; [exact Hname|]. split; [by repeat constructor|].
  exact (definition_never_found_for_lowercase_name "inv" ex_netlist Hname).
Defined.

(** X8.  [TestManager.instance] turns the definition line
    [<first> <circuit> <ports...>] into the words
    [XDUT <ports...> <circuit>]: splitting the string it returns gives
    exactly these.  It raises the [ValueError] of [definition], and
    [IndexError] when the definition line has a single word. *)
Theorem instance_reorders_definition (name : string) (lines : list string) :
  match instance name lines with
  | Ok s =>
      ∃ line first circuit ports,
        find_definition name lines = Ok line
        ∧ py_split line = first :: circuit :: ports
        ∧ py_split s = "XDUT"%string :: ports ++ [circuit]
  | Raised e =>
      (e = ValueError NoDefinition
       ∧ find_definition name lines = Raised (ValueError NoDefinition))
      ∨ (e = IndexError
         ∧ ∃ line, find_definition name lines = Ok line
                   ∧ (length (py_split line) <= 1)%nat)
  end.
Proof.
  unfold instance. pose proof (find_definition_spec name lines) as Hspec.
  destruct (find_definition name lines) as [line|e]; cbn [mbind result_bind].
  - pose proof (py_split_words line) as Hwords.
    destruct (py_split line) as [|first [|circuit ports]] eqn:Hsplit;
      cbn [tail].
    + right. split; [done|]. exists line. rewrite Hsplit. cbn. split; [done|lia].
    + right. split; [done|]. exists line. rewrite Hsplit. cbn. split; [done|lia].
    + exists line, first, circuit, ports. split_and!; [done|done|].
      apply py_split_join.
      apply Forall_cons in Hwords as [_ Hwords].
      apply Forall_cons in Hwords as [Hcircuit Hports].
      apply Forall_cons. split; [done|].
      apply Forall_app. split; [done|]. by apply Forall_singleton.
  - left. by destruct Hspec as [-> _].
Qed.

Example instance_of_inverter :
  instance "INVX2" ex_netlist = Ok "XDUT A Y VDD VSS INVX2"%string.
Proof. done. Qed.

Lemma last_plain_word_snoc (words : list string) (w : string) :
  last_plain_word (words ++ [w])
  = if contains "=" w then last_plain_word words else Some w.
Proof.
  unfold last_plain_word. rewrite reverse_snoc, filter_cons.
  destruct (contains "=" w) eqn:Hw.
  - by rewrite decide_False.
  - by rewrite decide_True.
Qed.

Lemma last_plain_word_spec (words : list string) (m : string) :
  last_plain_word words = Some m →
  ∃ before after, words = before ++ m :: after
                  ∧ contains "=" m = false
                  ∧ Forall (fun t => contains "=" t = true) after.
Proof.
  induction words as [|w words IH] using rev_ind; [done|].
  rewrite last_plain_word_snoc. destruct (contains "=" w) eqn:Hw.
  - intros H. destruct (IH H) as (before & after & -> & Hm & Hafter).
    exists before, (after ++ [w]). split_and!.
    + by rewrite <- app_assoc.
    + done.
    + apply Forall_app. split; [done|]. by apply Forall_singleton.
  - intros [= <-]. exists words, []. split_and!; [done|done|by apply Forall_nil].
Qed.

(** X9.  [TestManager.used_models] gives, for lines of the netlist that
    start with 'x' or 'X', the last word of the line that holds no '=':
    every name it returns is such a word of such a line, followed on
    that line by parameter assignments only; and it returns at most one
    name per such line. *)
Theorem used_models_are_last_plain_words (lines : list string) :
  Forall (fun m =>
            ∃ line before after,
              line ∈ lines ∧ starts_with_x line = true
              ∧ py_split line = before ++ m :: after
              ∧ contains "=" m = false
              ∧ Forall (fun t => contains "=" t = true) after)
    (used_models lines)
  ∧ (length (used_models lines)
     <= length (filter (fun line => starts_with_x line = true) lines))%nat.
Proof.
  unfold used_models. induction lines as [|line rest [IHall IHlen]].
  - split; [by apply Forall_nil|done].
  - rewrite bind_cons, filter_cons. split.
    + apply Forall_app. split.
      * destruct (starts_with_x line) eqn:Hx; [|by apply Forall_nil].
        destruct (last_plain_word (py_split line)) as [m|] eqn:Hm;
          [|by apply Forall_nil].
        apply Forall_singleton.
        destruct (last_plain_word_spec _ _ Hm) as (before & after & ? & ? & ?).
        exists line, before, after. split_and!; try done. by left.
      * eapply Forall_impl; [exact IHall|].
        intros m (l & before & after & Hl & ?). exists l, before, after.
        split; [by right|done].
    + rewrite length_app. destruct (starts_with_x line) eqn:Hx.
      * rewrite decide_True by done.
        destruct (last_plain_word (py_split line)); cbn; lia.
      * rewrite decide_False by done. cbn. lia.
Qed.

Example used_models_of_netlist :
  used_models ex_netlist = ["pfet"; "nfet"]%string.
Proof. done. Qed.

(** ** Ports that match *)

Lemma appended_appended conns x r :
  appended conns (appended x r) = appended (conns ++ x) r.
Proof. destruct r; cbn; [by rewrite app_assoc|done]. Qed.

Lemma wire_stable_port_app port stable : ∀ conns,
  wire_stable_port port stable conns
  = appended conns (wire_stable_port port stable []).
Proof.
  induction stable as [|p rest IH]; intros conns.
  - cbn. by rewrite app_nil_r.
  - cbn [wire_stable_port]. repeat case_match; try done.
    + rewrite (IH (conns ++ _)), (IH ([] ++ _)), appended_appended. done.
    + rewrite (IH (conns ++ _)), (IH ([] ++ _)), appended_appended. done.
Qed.

Lemma wire_nontarget_port_app port nontarget : ∀ conns,
  wire_nontarget_port port nontarget conns
  = conns ++ wire_nontarget_port port nontarget [].
Proof.
  induction nontarget as [|p rest IH]; intros conns.
  - cbn. by rewrite app_nil_r.
  - cbn [wire_nontarget_port]. case_match; [|done].
    rewrite (IH (conns ++ _)), (IH ([] ++ _)). by rewrite app_assoc.
Qed.

Lemma comb_wire_port_app settings h conns port :
  comb_wire_port settings h conns port
  = appended conns (comb_wire_port settings h [] port).
Proof.
  unfold comb_wire_port, wire_other_port. repeat case_match; try done.
  - apply wire_stable_port_app.
  - cbn. by rewrite wire_nontarget_port_app.
  - cbn. by rewrite app_nil_r.
Qed.

(** The node a port is wired to. *)
Lemma wire_stable_port_present port stable :
  NoDup (map pin_name stable) →
  Forall (fun p => state p = "0"%string ∨ state p = "1"%string) stable →
  port ∈ map pin_name stable →
  ∃ c, wire_stable_port port stable [] = Ok [c]
       ∧ (c = "vhigh"%string ∨ c = "vlow"%string).
Proof.
  induction stable as [|p rest IH]; intros Hnd Hst Hin.
  - by apply elem_of_nil in Hin.
  - cbn [map] in Hnd, Hin. apply NoDup_cons in Hnd as [Hp Hnd].
    apply Forall_cons in Hst as [Hs Hst].
    cbn [wire_stable_port]. case_bool_decide as Hport.
    + subst port.
      destruct Hs as [Hs|Hs]; rewrite Hs; repeat case_bool_decide; try done;
        rewrite wire_stable_port_absent by done; eexists; split; eauto.
    + apply IH; [done|done|].
      apply elem_of_cons in Hin as [?|?]; [done|done].
Qed.

Lemma wire_nontarget_port_present port nontarget :
  NoDup (map pin_name nontarget) →
  port ∈ map pin_name nontarget →
  ∃ s, wire_nontarget_port port nontarget [] = [("wfloat" ++ s)%string].
Proof.
  induction nontarget as [|p rest IH]; intros Hnd Hin.
  - by apply elem_of_nil in Hin.
  - cbn [map] in Hnd, Hin. apply NoDup_cons in Hnd as [Hp Hnd].
    cbn [wire_nontarget_port]. case_bool_decide as Hport.
    + subst port. rewrite wire_nontarget_port_absent by done. by eexists.
    + apply IH; [done|].
      apply elem_of_cons in Hin as [?|?]; [done|done].
Qed.

Lemma vin_not_wfloat (s : string) : "vin"%string ≠ ("wfloat" ++ s)%string.
Proof. by intros [=]. Qed.

(** A port with a role gets exactly one node, and the node 'vin' only
    when it is the target input. *)
Lemma comb_wire_port_matched settings h port :
  harness_ok h → port ∈ comb_roles settings h →
  ∃ c, comb_wire_port settings h [] port = Ok [c]
       ∧ (c = "vin"%string ↔ port = pin_name (target_in_port h)).
Proof.
  intros (Hs & Hn & Hv) Hrole. unfold comb_wire_port, wire_other_port.
  repeat case_bool_decide; try (by eexists; split; [done|]).
  - destruct (wire_stable_port_present port _ Hs Hv) as (c & -> & Hc); [done|].
    exists c. split; [done|]. by destruct Hc as [-> | ->].
  - destruct (wire_nontarget_port_present port _ Hn) as (s & ->); [done|].
    eexists. split; [done|]. split; [|done]. intros Hc.
    symmetry in Hc. by apply vin_not_wfloat in Hc.
  - exfalso. unfold comb_roles in Hrole. in_roles.
Qed.

Lemma comb_wiring_matched settings h :
  harness_ok h → ∀ ports conns,
  Forall (fun p => p ∈ comb_roles settings h) ports →
  ∃ added,
    for_each ports conns (comb_wire_port settings h) = Ok (conns ++ added)
    ∧ Forall2 (fun port c =>
                 comb_wire_port settings h [] port = Ok [c]
                 ∧ (c = "vin"%string ↔ port = pin_name (target_in_port h)))
        ports added.
Proof.
  intros Hok. induction ports as [|port ports IH]; intros conns Hall.
  - exists []. rewrite app_nil_r. split; [done|constructor].
  - apply Forall_cons in Hall as [Hport Hall].
    destruct (comb_wire_port_matched settings h port Hok Hport) as (c & Hc & Hvin).
    destruct (IH (conns ++ [c]) Hall) as (added & Hadded & Hf).
    exists (c :: added). cbn [for_each].
    rewrite comb_wire_port_app, Hc. cbn. rewrite Hadded.
    split; [by rewrite <- app_assoc|]. by constructor.
Qed.

Lemma len_is_not_same (a : nat) : (a <= 256)%nat → len_is_not a a = false.
Proof.
  intros Ha. unfold len_is_not. rewrite Nat.eqb_refl.
  cbn [negb orb]. by apply Nat.ltb_ge.
Qed.

Lemma len_is_not_large (a b : nat) : (256 < a)%nat → len_is_not a b = true.
Proof.
  intros Ha. unfold len_is_not. apply orb_true_iff. right.
  by apply Nat.ltb_lt.
Qed.

(** X10.  The other side of the wiring check: when every port of the
    definition has a role in a well-formed harness, and there are at most
    256 of them, [CombinationalTestManager._run_delay_trial] raises no
    wiring error; it calls the simulator exactly once, on the subcircuit
    of the definition, with one node per port in port order, 'vin' at
    the target input and nowhere else, and ends the run at 1000 slews. *)
Theorem comb_trial_runs_when_all_ports_match `{Simulator}
    (settings : LibrarySettings) (tm : TestManager) (h : Harness)
    (slew load : Q) (log : list sim_call) (name : string) (ports : list string) :
  harness_ok h → definition tm = Some (name :: ports) →
  Forall (fun p => p ∈ comb_roles settings h) ports →
  (length ports <= 256)%nat →
  ∃ req,
    comb_run_delay_trial settings tm h slew load log
    = (match transient req with
       | Some a => Ok a
       | None => Raised NameError
       end, log ++ [Transient req])
    ∧ subcircuit req = name
    ∧ Forall2 (fun port c =>
                 comb_wire_port settings h [] port = Ok [c]
                 ∧ (c = "vin"%string ↔ port = pin_name (target_in_port h)))
        ports (connections req)
    ∧ end_time req = 1000 * (slew * units_time settings)
    ∧ step_time req = _sim_timestep tm * units_time settings
    ∧ load_capacitance req = load * units_capacitance settings.
Proof.
  intros Hok Hdef Hall Hlen. unfold comb_run_delay_trial.
  destruct (comb_wiring_matched settings h Hok ports [] Hall) as (added & Hw & Hf).
  pose proof (Forall2_length _ _ _ Hf) as Hl.
  destruct (is_rise (in_direction h));
    unfold mbind, M_bind, lift, definition_ports; rewrite Hdef, Hw;
    cbn [app]; rewrite <- Hl, len_is_not_same by done;
    unfold run_transient; eexists; (split; [reflexivity|]); done.
Qed.

Lemma comb_trial_runs_when_all_ports_match_witness :
  harness_ok ex_inv_fall
  ∧ Forall (fun p => p ∈ comb_roles ex_settings ex_inv_fall)
      ["A"; "Y"; "VDD"; "VSS"]%string
  ∧ ∃ req,
      @comb_run_delay_trial ex_simulator ex_settings ex_inv ex_inv_fall
        (1 # 10) (1 # 100) []
      = (match @transient ex_simulator req with
         | Some a => Ok a
         | None => Raised NameError
         end, [Transient req])
      ∧ subcircuit req = "INV"%string
      ∧ length (connections req) = 4%nat.
Proof.
  assert (Hok : harness_ok ex_inv_fall).
  { split_and!; [apply NoDup_nil_2|apply NoDup_nil_2|apply Forall_nil_2]. }
  assert (Hall : Forall (fun p => p ∈ comb_roles ex_settings ex_inv_fall)
                   ["A"; "Y"; "VDD"; "VSS"]%string).
  { repeat (apply Forall_cons_2;
              [apply (bool_decide_unpack _); vm_compute; exact I|]).
    apply Forall_nil_2. }
  split; [exact Hok|]. split; [exact Hall|].
  destruct (@comb_trial_runs_when_all_ports_match ex_simulator ex_settings
              ex_inv ex_inv_fall (1 # 10) (1 # 100) [] "INV"
              ["A"; "Y"; "VDD"; "VSS"]%string Hok eq_refl Hall)
    as (req & Hrun & Hsub & Hconns & _).
  { cbn. lia. }
  exists req. split; [exact Hrun|]. split; [exact Hsub|].
  by rewrite <- (Forall2_length _ _ _ Hconns).
Defined.

(** X11.  The wiring check compares the two lengths with [is not], by
    identity: beyond the small integers, which end at 256, two equal
    lengths are two objects.  A combinational trial on a definition with
    more than 256 ports raises the wiring [ValueError] whether or not
    every port matched, and never reaches the simulator. *)
Theorem comb_trial_refuses_more_than_256_ports `{Simulator}
    (settings : LibrarySettings) (tm : TestManager) (h : Harness)
    (slew load : Q) (log : list sim_call) (name : string) (ports : list string) :
  harness_ok h → definition tm = Some (name :: ports) →
  Forall (fun p => p ∈ comb_roles settings h) ports →
  (256 < length ports)%nat →
  comb_run_delay_trial settings tm h slew load log
  = (Raised (ValueError UnmatchedPorts), log).
Proof.
  intros Hok Hdef Hall Hlen. unfold comb_run_delay_trial.
  destruct (comb_wiring_matched settings h Hok ports [] Hall) as (added & Hw & Hf).
  pose proof (Forall2_length _ _ _ Hf) as Hl.
  destruct (is_rise (in_direction h));
    unfold mbind, M_bind, lift, definition_ports; rewrite Hdef, Hw;
    cbn [app]; rewrite len_is_not_large by lia; done.
Qed.

Lemma comb_trial_refuses_more_than_256_ports_witness :
  harness_ok ex_inv_fall
  ∧ Forall (fun p => p ∈ comb_roles ex_settings ex_inv_fall)
      (replicate 257 "A"%string)
  ∧ (256 < length (replicate 257 "A"%string))%nat
  ∧ @comb_run_delay_trial ex_simulator ex_settings ex_wide ex_inv_fall
      (1 # 10) (1 # 100) []
    = (Raised (ValueError UnmatchedPorts), []).
Proof.
  assert (Hok : harness_ok ex_inv_fall).
  { split_and!; [apply NoDup_nil_2|apply NoDup_nil_2|apply Forall_nil_2]. }
  assert (Hall : Forall (fun p => p ∈ comb_roles ex_settings ex_inv_fall)
                   (replicate 257 "A"%string)).
  { apply Forall_replicate. apply (bool_decide_unpack _). vm_compute. exact I. }
  assert (Hlen : (256 < length (replicate 257 "A"%string))%nat).
  { rewrite length_replicate. lia. }
  split; [exact Hok|]. split; [exact Hall|]. split; [exact Hlen|].
  exact (@comb_trial_refuses_more_than_256_ports ex_simulator ex_settings
           ex_wide ex_inv_fall (1 # 10) (1 # 100) [] "WIDE"
           (replicate 257 "A"%string) Hok eq_refl Hall Hlen).
Defined.

(** The ports read from a netlist are in upper case. *)
Lemma read_definition_upper (name : string) (lines : list string)
    (tokens : list string) :
  read_definition name lines = Some tokens →
  Forall (fun t => upper t = t) tokens.
Proof.
  unfold read_definition, definition_tokens.
  destruct (find_definition name lines) as [line|e]; [|done].
  cbn [mbind result_bind]. intros [= <-].
  assert (Hall : Forall (fun t => upper t = t) (py_split (upper line))).
  { eapply Forall_impl.
    - apply (split_from_chars (fun c => negb (is_lower_letter c)));
        [done|]. apply upper_fixed, upper_idemp.
    - intros t Ht. by apply upper_fixed. }
  destruct (py_split (upper line)) as [|first rest]; [done|].
  by apply Forall_cons in Hall as [_ Hall].
Qed.

Lemma wire_stable_port_nodes port stable : ∀ added,
  wire_stable_port port stable [] = Ok added →
  Forall (fun c => c = "vhigh"%string ∨ c = "vlow"%string) added.
Proof.
  induction stable as [|p rest IH]; intros added.
  - intros [= <-]. apply Forall_nil_2.
  - cbn [wire_stable_port]. repeat case_match; try done; try apply IH.
    + rewrite wire_stable_port_app.
      destruct (wire_stable_port port rest []) as [a|] eqn:Hrest; [|done].
      intros [= <-]. apply Forall_cons. split; [by left|by apply IH].
    + rewrite wire_stable_port_app.
      destruct (wire_stable_port port rest []) as [a|] eqn:Hrest; [|done].
      intros [= <-]. apply Forall_cons. split; [by right|by apply IH].
Qed.

Lemma wire_nontarget_port_nodes port nontarget :
  Forall (fun c => ∃ s, c = ("wfloat" ++ s)%string)
    (wire_nontarget_port port nontarget []).
Proof.
  induction nontarget as [|p rest IH]; [apply Forall_nil_2|].
  cbn [wire_nontarget_port]. case_match; [|done].
  rewrite wire_nontarget_port_app. apply Forall_app. split; [|done].
  apply Forall_singleton. by eexists.
Qed.

(** Only the target input is wired to 'vin'. *)
Lemma comb_wire_port_vin settings h port added :
  comb_wire_port settings h [] port = Ok added →
  "vin"%string ∈ added → port = pin_name (target_in_port h).
Proof.
  unfold comb_wire_port, wire_other_port.
  repeat case_bool_decide; try done; intros Hw Hin.
  - injection Hw as <-. by apply list_elem_of_singleton in Hin.
  - injection Hw as <-. by apply list_elem_of_singleton in Hin.
  - injection Hw as <-. by apply list_elem_of_singleton in Hin.
  - apply wire_stable_port_nodes in Hw.
    apply (proj1 (Forall_forall _ _) Hw) in Hin. by destruct Hin.
  - injection Hw as <-.
    pose proof (wire_nontarget_port_nodes port (nontarget_out_ports h)) as Hn.
    apply (proj1 (Forall_forall _ _) Hn) in Hin as [s Hs].
    by apply vin_not_wfloat in Hs.
  - injection Hw as <-. by apply elem_of_nil in Hin.
Qed.

Lemma comb_wiring_vin settings h : ∀ ports conns conns',
  for_each ports conns (comb_wire_port settings h) = Ok conns' →
  "vin"%string ∈ conns' →
  "vin"%string ∈ conns ∨ pin_name (target_in_port h) ∈ ports.
Proof.
  induction ports as [|port ports IH]; intros conns conns'.
  - intros [= <-] Hin. by left.
  - cbn [for_each]. rewrite comb_wire_port_app.
    destruct (comb_wire_port settings h [] port) as [added|e] eqn:Hport;
      [|done].
    cbn. intros Hrest Hin.
    destruct (IH _ _ Hrest Hin) as [Hc|Hp].
    + apply elem_of_app in Hc as [Hc|Hc]; [by left|].
      right. apply elem_of_cons. left. symmetry.
      by eapply comb_wire_port_vin.
    + right. by right.
Qed.

(** X12.  Port names are taken from the upper-cased definition line and
    compared with the pin names as they are.  For a target input whose
    name has a lower-case letter, a combinational trial on a definition
    read from a netlist never wires a port to the input source 'vin':
    it raises before simulating, or simulates a circuit whose input
    source drives nothing. *)
Theorem lowercase_target_pin_is_never_driven `{Simulator}
    (settings : LibrarySettings) (tm : TestManager) (h : Harness)
    (lines : list string) (slew load : Q) (log : list sim_call) :
  definition tm = read_definition (cell_name tm) lines →
  upper (pin_name (target_in_port h)) ≠ pin_name (target_in_port h) →
  ∃ r, (comb_run_delay_trial settings tm h slew load log = (r, log)
        ∧ ∃ e, r = Raised e)
       ∨ ∃ req, comb_run_delay_trial settings tm h slew load log
                = (r, log ++ [Transient req])
                ∧ "vin"%string ∉ connections req.
Proof.
  intros Hdef Hlower. unfold comb_run_delay_trial.
  destruct (is_rise (in_direction h));
    unfold mbind, M_bind, lift, definition_ports;
    (destruct (definition tm) as [[|name ports]|] eqn:Hd;
      [eexists; left; split; [reflexivity|by eexists]
      | |eexists; left; split; [reflexivity|by eexists]]);
    (destruct (for_each ports [] (comb_wire_port settings h))
       as [conns|e] eqn:Hw;
      [|eexists; left; split; [reflexivity|by eexists]]);
    (destruct (len_is_not (length conns) (length ports));
      [eexists; left; split; [reflexivity|by eexists]|]);
    unfold run_transient; eexists; right; eexists; (split; [reflexivity|]);
    cbn [connections]; intros Hin;
    (destruct (comb_wiring_vin _ _ _ _ _ Hw Hin) as [Hnil|Hp];
      [by apply elem_of_nil in Hnil|]);
    symmetry in Hdef; apply read_definition_upper in Hdef;
    apply Forall_cons in Hdef as [_ Hports];
    by apply (proj1 (Forall_forall _ _) Hports) in Hp.
Qed.

Lemma lowercase_target_pin_is_never_driven_witness :
  upper "a" ≠ "a"%string
  ∧ definition ex_invx2 = Some ["INVX2"; "A"; "Y"; "VDD"; "VSS"]%string
  ∧ ∃ r, (@comb_run_delay_trial ex_simulator ex_settings ex_invx2
            ex_lower_harness (1 # 10) (1 # 100) [] = (r, [])
          ∧ ∃ e, r = Raised e)
         ∨ ∃ req, @comb_run_delay_trial ex_simulator ex_settings ex_invx2
                    ex_lower_harness (1 # 10) (1 # 100) []
                  = (r, [] ++ [Transient req])
                  ∧ "vin"%string ∉ connections req.
Proof.
  assert (Hlower : upper "a" ≠ "a"%string) by done.
  split; [exact Hlower|]. split; [reflexivity|].
  exact (@lowercase_target_pin_is_never_driven ex_simulator ex_settings
           ex_invx2 ex_lower_harness ex_netlist (1 # 10) (1 # 100) []
           eq_refl Hlower).
Defined.

Example lowercase_pins_fail_the_wiring_check :
  @comb_run_delay_trial ex_simulator ex_settings ex_invx2 ex_lower_harness
    (1 # 10) (1 # 100) []
  = (Raised (ValueError UnmatchedPorts), []).
Proof. by vm_compute. Qed.

Lemma v_port_is_vin (port : string) :
  ("v" ++ port)%string = "vin"%string → port = "in"%string.
Proof. by intros [=]. Qed.

(** X13.  [_run_input_capacitance] checks nothing about the wiring:
    given a definition, it always runs the AC sweep, once, with one node
    per port.  On a definition read from a netlist, a pin that is not
    among the ports, as every pin with a lower-case letter in its name,
    leaves the current source 'vin' connected to no port, and the sweep
    is run all the same. *)
Theorem input_capacitance_runs_without_wiring_check `{Simulator}
    (settings : LibrarySettings) (tm : TestManager) (lines : list string)
    (pin : string) (log : list sim_call) (sub : string) (ports : list string) :
  definition tm = read_definition (cell_name tm) lines →
  definition tm = Some (sub :: ports) →
  ∃ conns,
    _run_input_capacitance settings tm pin log
    = (match ac_capacitance pin sub conns with
       | Some c => Ok c
       | None => Raised NameError
       end, log ++ [AcSweep pin sub conns])
    ∧ length conns = length ports
    ∧ (pin ∉ ports ∨ upper pin ≠ pin → "vin"%string ∉ conns).
Proof.
  intros Hread Hdef. rewrite Hdef in Hread. symmetry in Hread.
  apply read_definition_upper in Hread.
  apply Forall_cons in Hread as [_ Hports].
  unfold _run_input_capacitance, mbind, M_bind, lift, definition_ports.
  rewrite Hdef. unfold run_ac. eexists. split; [reflexivity|].
  split; [by rewrite length_map|].
  intros Hpin Hin. apply list_elem_of_In, in_map_iff in Hin as (port & Hnode & Hport).
  apply list_elem_of_In in Hport.
  pose proof (proj1 (Forall_forall _ _) Hports port Hport) as Hup.
  repeat case_bool_decide; try done.
  - subst port. destruct Hpin as [Hpin|Hpin]; [done|]. by rewrite Hup in Hpin.
  - apply v_port_is_vin in Hnode. by subst port.
Qed.

Lemma input_capacitance_runs_without_wiring_check_witness :
  definition ex_invx2 = Some ["INVX2"; "A"; "Y"; "VDD"; "VSS"]%string
  ∧ ∃ conns,
      @_run_input_capacitance ex_simulator ex_settings ex_invx2 "a" []
      = (match @ac_capacitance ex_simulator "a" "INVX2" conns with
         | Some c => Ok c
         | None => Raised NameError
         end, [] ++ [AcSweep "a" "INVX2" conns])
      ∧ length conns = 4%nat
      ∧ (("a"%string ∉ ["A"; "Y"; "VDD"; "VSS"]%string ∨ upper "a" ≠ "a"%string)
         → "vin"%string ∉ conns).
Proof.
  split; [reflexivity|].
  exact (@input_capacitance_runs_without_wiring_check ex_simulator ex_settings
           ex_invx2 ex_netlist "a" [] "INVX2" ["A"; "Y"; "VDD"; "VSS"]%string
           eq_refl eq_refl).
Defined.

(** ** Settings *)

Ltac q_tenth :=
  unfold Qdiv in *; change (/ 10) with (1 # 10) in *; lra.

(** X14.  Setting the clock slew and reading it back.  A positive number
    is read back as it was set; 'auto' reads back as the smallest input
    slew; a number that is not positive, 'auto' without input slews, and
    any other value raise, in this order of tests, [ValueError],
    [ValueError] and [TypeError].  The input slews are left as they
    were. *)
Theorem clock_slew_set_then_get (tm : SequentialTestManager) (value : pyval) :
  match set_clock_slew tm value with
  | Ok tm' =>
      in_slews tm' = in_slews tm
      ∧ ((∃ v, as_number value = Some v ∧ 0 < v ∧ clock_slew tm' = v)
         ∨ (is_auto value = true
            ∧ ∃ s rest, in_slews tm = s :: rest
                        ∧ clock_slew tm' = py_min s rest))
  | Raised (ValueError MustBePositive) =>
      ∃ v, as_number value = Some v ∧ v <= 0
  | Raised (ValueError AutoNeedsSlews) =>
      is_auto value = true ∧ in_slews tm = []
  | Raised TypeError => as_number value = None ∧ is_auto value = false
  | Raised _ => False
  end.
Proof.
  unfold set_clock_slew. destruct (as_number value) as [v|] eqn:Hnum.
  - destruct (Qltb 0 v) eqn:Hpos.
    + apply Qltb_lt in Hpos. split; [done|]. left. exists v.
      split_and!; [done|done|].
      unfold clock_slew, in_slews, with_clock_slew. cbn [base _clock_slew].
      destruct (_in_slews (base tm)) as [|s rest]; [done|].
      destruct (Qeq_bool v 0) eqn:Hz; [|done].
      apply Qeq_bool_eq in Hz. lra.
    + apply Qltb_ge in Hpos. by exists v.
  - destruct (is_auto value) eqn:Hauto; [|done].
    destruct (in_slews tm) as [|s rest] eqn:Hslews; [done|].
    split; [done|]. right. split; [done|]. exists s, rest. split; [done|].
    unfold in_slews in Hslews.
    unfold clock_slew, in_slews, with_clock_slew. cbn [base _clock_slew].
    rewrite Hslews. by destruct (Qeq_bool _ _).
Qed.

(** X15.  [sim_timestep = 'auto'] sets a tenth of the smallest input
    slew: ten timesteps fit in every slew and fill one of them; without
    input slews it raises [ValueError].  A number is stored as it is,
    zero and negative numbers too: this setter has no sign test. *)
Theorem sim_timestep_auto_is_tenth_of_smallest_slew `{PyBuiltins}
    (tm : TestManager) :
  match set_sim_timestep tm (PyStr "auto") with
  | Ok tm' =>
      Forall (fun s => _sim_timestep tm' * 10 <= s) (_in_slews tm)
      ∧ Exists (fun s => _sim_timestep tm' * 10 == s) (_in_slews tm)
      ∧ _in_slews tm' = _in_slews tm
  | Raised e => e = ValueError AutoNeedsSlews ∧ _in_slews tm = []
  end
  ∧ (∀ q, ∃ tm', set_sim_timestep tm (PyFloat q) = Ok tm'
                 ∧ _sim_timestep tm' = q)
  ∧ (∀ z, ∃ tm', set_sim_timestep tm (PyInt z) = Ok tm'
                 ∧ _sim_timestep tm' = inject_Z z)
  ∧ set_sim_timestep tm PyNone = Raised TypeError.
Proof.
  split_and!.
  - unfold set_sim_timestep. cbn [is_auto].
    rewrite bool_decide_eq_true_2 by done.
    destruct (_in_slews tm) as [|s rest] eqn:Hslews; [done|].
    cbn [_sim_timestep with_sim_timestep _in_slews].
    destruct (py_min_spec s rest) as [Hin Hmin].
    split_and!; [|..|done].
    + eapply Forall_impl; [exact Hmin|]. intros x Hx. cbn beta in Hx. q_tenth.
    + apply Exists_exists. exists (py_min s rest). split; [done|]. q_tenth.
  - intros q. by eexists.
  - intros z. by eexists.
  - done.
Qed.

Lemma auto_value : is_auto (PyStr "auto") = true ∧ as_number (PyStr "auto") = None.
Proof. done. Qed.




Example auto_setup_bound_is_eight :
  Nat.max 1 (iteration_bound (py_max 1 [] * 10) (py_max 1 [] * -(10))
               (py_min 1 [] / 10)) = 8%nat.
Proof. by vm_compute. Qed.

(** X17.  The three hold settings, all 'auto', as the constructor
    assigns them: the assignment of 'highest' writes the lowest bound,
    the assignment of 'lowest' that follows writes it again, so the
    highest hold bound keeps the value it had (0 in a constructor), the
    lowest bound ends as -10 times the smallest slew and the timestep as
    a tenth of it. *)
Theorem configure_hold_auto_keeps_highest (tm : SequentialTestManager)
    (hold : gmap string pyval) (s : Q) (rest : list Q) :
  dict_get hold "highest" = PyStr "auto" →
  dict_get hold "lowest" = PyStr "auto" →
  dict_get hold "timestep" = PyStr "auto" →
  in_slews tm = s :: rest →
  ∃ tm', configure_hold tm hold = Ok tm'
         ∧ _sim_hold_highest tm' = _sim_hold_highest tm
         ∧ _sim_hold_lowest tm' = py_min s rest * -(10)
         ∧ _sim_hold_timestep tm' = py_min s rest / 10
         ∧ _sim_setup_highest tm' = _sim_setup_highest tm
         ∧ _sim_setup_lowest tm' = _sim_setup_lowest tm
         ∧ _sim_setup_timestep tm' = _sim_setup_timestep tm.
Proof.
  intros Hh Hl Ht Hslews. unfold configure_hold. rewrite Hh, Hl, Ht.
  unfold in_slews in Hslews.
  unfold set_sim_hold_highest. cbn [as_number is_auto].
  rewrite bool_decide_eq_true_2 by done. unfold in_slews. rewrite Hslews.
  cbn [mbind result_bind]. unfold set_sim_hold_lowest.
  cbn [as_number is_auto]. rewrite bool_decide_eq_true_2 by done.
  unfold in_slews. cbn [base with_sim_hold_lowest]. rewrite Hslews.
  cbn [mbind result_bind]. unfold set_sim_hold_timestep.
  cbn [as_number is_auto]. rewrite bool_decide_eq_true_2 by done.
  unfold in_slews. cbn [base with_sim_hold_lowest].
  rewrite Hslews. by eexists.
Qed.

Lemma configure_hold_auto_keeps_highest_witness :
  dict_get ex_auto "highest" = PyStr "auto"
  ∧ ∃ tm', configure_hold (init_sequential (ex_dff ex_flop_ports) "CLK" None None)
             ex_auto = Ok tm'
           ∧ _sim_hold_highest tm' = 0
           ∧ _sim_hold_lowest tm' = py_min 1 [] * -(10)
           ∧ _sim_hold_timestep tm' = py_min 1 [] / 10
           ∧ _sim_setup_highest tm' = 0
           ∧ _sim_setup_lowest tm' = 0
           ∧ _sim_setup_timestep tm' = 0.
Proof.
  split; [reflexivity|].
  exact (configure_hold_auto_keeps_highest
           (init_sequential (ex_dff ex_flop_ports) "CLK" None None)
           ex_auto 1 [] eq_refl eq_refl eq_refl eq_refl).
Defined.


(** ** More on the searches *)

(** One pass of the loop body, with what it does to the harness. *)
Lemma search_step_full trial ts k1 k2 st log :
  let t := (t_max st + t_min st) / 2 in
  match search_step trial ts k1 k2 st log with
  | (Raised e, log') => trial t log = (Raised e, log') ∧ is_NameError e = false
  | (Ok (st', stop), log') =>
      t_found st' = Some t
      ∧ iterations st' = S (iterations st)
      ∧ stop = negb (Qltb ts (Qabs (t - (t_max st' + t_min st') / 2)))
      ∧ ((∃ e, trial t log = (Raised e, log') ∧ is_NameError e = true
               ∧ harness_now st' = harness_now st
               ∧ t_min st' = t ∧ t_max st' = t_max st)
         ∨ (∃ a, trial t log = (Ok a, log')
                 ∧ harness_now st' = store_result (harness_now st) k1 k2 a
                 ∧ ((t_min st' = t ∧ t_max st' = t_max st)
                    ∨ (t_min st' = t_min st ∧ t_max st' = t))))
  end.
Proof.
  intros t. unfold search_step, try_trial, mbind, M_bind. fold t.
  destruct (trial t log) as [[a|e] log'].
  - rewrite lookup_store_result. unfold mret, M_ret.
    destruct (Qltb (prev_t_prop st) (prop_in_out a));
      match goal with |- context [negb ?b] => destruct b eqn:E end;
      cbn [negb t_min t_max t_found iterations harness_now]; rewrite ?E;
      (split_and!; [done|done|done|]); right; exists a; eauto 10.
  - destruct (is_NameError e) eqn:En; [|by auto].
    unfold mret, M_ret.
    match goal with |- context [negb ?b] => destruct b eqn:E end;
      cbn [negb t_min t_max t_found iterations harness_now]; rewrite ?E;
      (split_and!; [done|done|done|]); left; exists e; eauto 10.
Qed.







Example inverted_bounds_are_accepted :
  ∃ tm tm', set_sim_setup_highest ex_seq (PyInt 1) = Ok tm
            ∧ set_sim_setup_lowest tm (PyInt 5) = Ok tm'
            ∧ _sim_setup_highest tm' = 1 ∧ _sim_setup_lowest tm' = 5.
Proof. by eexists _, _. Qed.

Lemma lookup_store_result_ne h k1 k2 x a b :
  (a, b) ≠ (k1, k2) →
  lookup_result (store_result h k1 k2 x) a b = lookup_result h a b.
Proof.
  intros Hne. unfold lookup_result, store_result. cbn [results with_results].
  destruct (decide (a = k1)) as [->|Ha].
  - rewrite lookup_insert_eq. cbn.
    rewrite lookup_insert_ne by (intros ->; by apply Hne).
    by destruct (results h !! k1).
  - by rewrite lookup_insert_ne.
Qed.

Lemma same_but_slot_refl k1 k2 h : same_but_slot k1 k2 h h.
Proof. split; [by left|done]. Qed.

Lemma same_but_slot_store k1 k2 h a :
  same_but_slot k1 k2 h (store_result h k1 k2 a).
Proof.
  split; [right; by eexists|]. intros x y Hne. by apply lookup_store_result_ne.
Qed.

Lemma same_but_slot_trans k1 k2 h1 h2 h3 :
  same_but_slot k1 k2 h1 h2 → same_but_slot k1 k2 h2 h3 →
  same_but_slot k1 k2 h1 h3.
Proof.
  intros [Hs1 Hl1] [Hs2 Hl2]. split.
  - destruct Hs2 as [->|[r2 ->]]; [done|]. right.
    destruct Hs1 as [->|[r1 ->]]; by eexists.
  - intros a b Hne. by rewrite Hl2, Hl1.
Qed.

Lemma search_loop_frame fuel : ∀ trial ts k1 k2 st log,
  match search_loop fuel trial ts k1 k2 st log with
  | (Ok (Some st'), _) => same_but_slot k1 k2 (harness_now st) (harness_now st')
  | _ => True
  end.
Proof.
  induction fuel as [|fuel IH]; intros trial ts k1 k2 st log;
    cbn [search_loop]; destruct (Qle_bool (t_min st) (t_max st));
    try done; try apply same_but_slot_refl.
  unfold mbind at 1; unfold M_bind.
  pose proof (search_step_full trial ts k1 k2 st log) as Hstep.
  cbv zeta in Hstep.
  destruct (search_step trial ts k1 k2 st log) as [[[st' stop]|e] log'];
    [|done].
  destruct Hstep as (_ & _ & _ & Hh).
  assert (Hone : same_but_slot k1 k2 (harness_now st) (harness_now st')).
  { destruct Hh as [(e & _ & _ & -> & _)|(a & _ & -> & _)];
      [apply same_but_slot_refl|apply same_but_slot_store]. }
  destruct stop; [done|].
  specialize (IH trial ts k1 k2 st' log').
  destruct (search_loop fuel trial ts k1 k2 st' log') as [[[st''|]|e] log''];
    try done.
  by eapply same_but_slot_trans.
Qed.

Lemma binary_search_frame fuel trial highest lowest timestep units k1 k2 h log :
  match binary_search fuel trial highest lowest timestep units k1 k2 h log with
  | (Ok (Some res), _) => same_but_slot k1 k2 h (harness_after res)
  | _ => True
  end.
Proof.
  pose proof (search_loop_frame fuel trial (timestep * units) k1 k2
                (initial_state highest lowest timestep units h) log) as Hloop.
  unfold binary_search, mbind, M_bind.
  destruct (search_loop fuel trial (timestep * units) k1 k2
              (initial_state highest lowest timestep units h) log)
    as [[[st'|]|e] log']; [|done|done].
  by destruct (t_found st').
Qed.

(** X20.  The searches write one slot.  Whatever the simulator answers,
    the harness that [_find_setup_time], [_find_hold_time] and the
    sequential [_run_delay] leave behind is the harness they were given
    but for its results, and its results are unchanged outside the slot
    of the slew and the load of the call. *)
Theorem searches_touch_one_result_slot `{Simulator} `{PyFormat}
    (fuel : nat) (settings : LibrarySettings) (tm : SequentialTestManager)
    (harness : Harness) (slew load t_other : Q) (log : list sim_call) :
  match _find_setup_time fuel settings tm harness slew load t_other log with
  | (Ok (Some res), _) =>
      same_but_slot (str_float slew) (str_float load) harness (harness_after res)
  | _ => True
  end
  ∧ match _find_hold_time fuel settings tm harness slew load t_other log with
    | (Ok (Some res), _) =>
        same_but_slot (str_float slew) (str_float load) harness
          (harness_after res)
    | _ => True
    end
  ∧ match seq_run_delay fuel settings tm harness slew load log with
    | (Ok (Some harness'), _) =>
        same_but_slot (str_float slew) (str_float load) harness harness'
    | _ => True
    end.
Proof.
  split_and!.
  - apply binary_search_frame.
  - apply binary_search_frame.
  - unfold seq_run_delay. rewrite MF_bind_unfold.
    pose proof (binary_search_frame fuel
      (fun t_setup => seq_run_delay_trial settings tm harness slew load t_setup
                        (_sim_hold_highest tm * units_time settings))
      (_sim_setup_highest tm) (_sim_setup_lowest tm) (_sim_setup_timestep tm)
      (units_time settings) (str_float slew) (str_float load) harness log) as H1.
    unfold _find_setup_time.
    destruct (binary_search fuel _ (_sim_setup_highest tm) _ _ _ _ _ harness log)
      as [[[setup|]|e] log1]; try done.
    rewrite MF_bind_unfold.
    pose proof (binary_search_frame fuel
      (fun t_hold => seq_run_delay_trial settings tm (harness_after setup)
                       slew load (found setup) t_hold)
      (_sim_hold_highest tm) (_sim_hold_lowest tm) (_sim_hold_timestep tm)
      (units_time settings) (str_float slew) (str_float load)
      (harness_after setup) log1) as H2.
    unfold _find_hold_time.
    destruct (binary_search fuel _ (_sim_hold_highest tm) _ _ _ _ _
                (harness_after setup) log1)
      as [[[hold|]|e] log2]; try done.
    unfold mret, MF_ret, mret, M_ret. cbn.
    by eapply same_but_slot_trans.
Qed.

Example run_delay_stores_one_result :
  ∃ harness' log a,
    @seq_run_delay ex_simulator ex_format 3 ex_settings ex_seq_wide ex_seq_rise
      1 1 [] = (Ok (Some harness'), log)
    ∧ lookup_result harness' (@str_float ex_format 1) (@str_float ex_format 1)
      = Some a
    ∧ length log = 6%nat.
Proof.
  eexists _, _, _. split; [vm_compute; reflexivity|]. split; reflexivity.
Qed.

Lemma wire_other_port_matched h conns port :
  harness_ok h →
  port ∈ map pin_name (stable_in_ports h) ++ map pin_name (nontarget_out_ports h) →
  ∃ c, wire_other_port h conns port = Ok (conns ++ [c]).
Proof.
  intros (Hs & Hn & Hv) Hin. unfold wire_other_port.
  case_bool_decide as H1; [|case_bool_decide as H2].
  - rewrite wire_stable_port_app.
    destruct (wire_stable_port_present port _ Hs Hv H1) as (c & -> & _).
    by exists c.
  - rewrite wire_nontarget_port_app.
    destruct (wire_nontarget_port_present port _ Hn H2) as (s & ->).
    by eexists.
  - apply elem_of_app in Hin as [?|?]; done.
Qed.

Lemma seq_wire_port_matched settings tm h conns port :
  seq_harness_ok tm h → port ∈ seq_roles settings tm h →
  ∃ c, seq_wire_port settings tm h conns port = Ok (conns ++ [c]).
Proof.
  intros (Hok & [c Hc] & Hreset & Hset).
  unfold seq_wire_port, seq_roles, comb_roles. rewrite Hc.
  assert (Hr : reset_name tm = None ∨ ∃ n r, reset_name tm = Some n ∧ reset_port h = Some r).
  { destruct (reset_name tm); [right|by left].
    destruct Hreset as [r ->]; eauto. }
  assert (Hs : set_name tm = None ∨ ∃ n r, set_name tm = Some n ∧ set_port h = Some r).
  { destruct (set_name tm); [right|by left].
    destruct Hset as [r ->]; eauto. }
  destruct Hr as [->|(nr & r & -> & ->)]; destruct Hs as [->|(ns & s & -> & ->)];
    cbn [port_name mbind result_bind];
    intros Hrole; repeat case_bool_decide; try (by eexists);
    apply wire_other_port_matched; try done; in_roles.
Qed.

Lemma for_each_matched (body : list string → string → result (list string))
    (P : string → Prop) :
  (∀ conns port, P port → ∃ c, body conns port = Ok (conns ++ [c])) →
  ∀ ports conns, Forall P ports →
    ∃ added, for_each ports conns body = Ok (conns ++ added)
             ∧ length added = length ports.
Proof.
  intros Hbody. induction ports as [|port ports IH]; intros conns Hall.
  - exists []. by rewrite app_nil_r.
  - apply Forall_cons in Hall as [Hport Hall].
    destruct (Hbody conns port Hport) as (c & Hc).
    destruct (IH (conns ++ [c]) Hall) as (added & Hadded & Hlen).
    exists (c :: added). cbn [for_each]. rewrite Hc. cbn.
    rewrite Hadded, <- app_assoc. split; [done|]. cbn. by rewrite Hlen.
Qed.

Lemma wire_subcircuit_matched settings tm h name ports :
  seq_harness_ok tm h → definition (base tm) = Some (name :: ports) →
  Forall (fun p => p ∈ seq_roles settings tm h) ports →
  (length ports < 256)%nat →
  ∃ conns, _wire_subcircuit settings tm h = Ok (name :: conns)
           ∧ length conns = length ports.
Proof.
  intros Hok Hdef Hall Hlen. unfold _wire_subcircuit, definition_ports.
  rewrite Hdef. cbn [mbind result_bind].
  destruct (for_each_matched (seq_wire_port settings tm h) _
              (fun c p => seq_wire_port_matched settings tm h c p Hok)
              ports [name] Hall) as (added & -> & Hadded).
  cbn [mbind result_bind app length].
  replace (length ports + 1)%nat with (S (length added)) by lia.
  rewrite len_is_not_same by lia. by exists added.
Qed.

Lemma seq_trial_runs `{Simulator} settings tm h slew load t_setup t_hold log
    name ports :
  seq_harness_ok tm h → definition (base tm) = Some (name :: ports) →
  Forall (fun p => p ∈ seq_roles settings tm h) ports →
  (length ports < 256)%nat →
  in_direction h = "rise"%string ∨ in_direction h = "fall"%string →
  out_direction h = "rise"%string ∨ out_direction h = "fall"%string →
  ∃ req,
    seq_run_delay_trial settings tm h slew load t_setup t_hold log
    = (match transient req with
       | Some a => Ok a
       | None => Raised NameError
       end, log ++ [Transient req])
    ∧ subcircuit req = name
    ∧ length (connections req) = length ports
    ∧ meas_name <$> measures req
      = ["prop_in_out"; "trans_out"; "t_setup"; "t_hold"]%string
    ∧ step_time req = sim_timestep tm * units_time settings
    ∧ load_capacitance req = load * units_capacitance settings.
Proof.
  intros Hok Hdef Hall Hlen Hin Hout.
  destruct (wire_subcircuit_matched settings tm h name ports Hok Hdef Hall Hlen)
    as (conns & Hw & Hconns).
  unfold seq_run_delay_trial, seq_measures. rewrite Hw.
  destruct Hin as [Hin|Hin], Hout as [Hout|Hout]; rewrite Hin, Hout;
    cbn [is_rise]; rewrite ?bool_decide_eq_true_2 by done;
    rewrite ?(bool_decide_eq_false_2 ("fall"%string = "rise"%string)) by done;
    repeat match goal with
           | |- context [bool_decide (timing_type_clock h = ?s)] =>
               destruct (bool_decide (timing_type_clock h = s))
           end;
    unfold mbind, M_bind, lift, run_transient; cbn [mbind result_bind];
    eexists; (split; [reflexivity|]); done.
Qed.

(** X21.  The other side of the sequential wiring check: when every
    port of the definition has a role, there are fewer than 256 of them
    and the two directions are 'rise' or 'fall',
    [SequentialTestManager._run_delay_trial] raises nothing of its own;
    it calls the simulator exactly once, on the subcircuit of the
    definition, with one node per port and with the four measurements
    prop_in_out, trans_out, t_setup and t_hold, in this order. *)
Theorem seq_trial_runs_when_all_ports_match `{Simulator}
    (settings : LibrarySettings) (tm : SequentialTestManager) (h : Harness)
    (slew load t_setup t_hold : Q) (log : list sim_call)
    (name : string) (ports : list string) :
  seq_harness_ok tm h → definition (base tm) = Some (name :: ports) →
  Forall (fun p => p ∈ seq_roles settings tm h) ports →
  (length ports < 256)%nat →
  in_direction h = "rise"%string ∨ in_direction h = "fall"%string →
  out_direction h = "rise"%string ∨ out_direction h = "fall"%string →
  ∃ req,
    seq_run_delay_trial settings tm h slew load t_setup t_hold log
    = (match transient req with
       | Some a => Ok a
       | None => Raised NameError
       end, log ++ [Transient req])
    ∧ subcircuit req = name
    ∧ length (connections req) = length ports
    ∧ meas_name <$> measures req
      = ["prop_in_out"; "trans_out"; "t_setup"; "t_hold"]%string
    ∧ step_time req = sim_timestep tm * units_time settings
    ∧ load_capacitance req = load * units_capacitance settings.
Proof. apply seq_trial_runs. Qed.

Lemma ex_seq_rise_ok : seq_harness_ok ex_seq_wide ex_seq_rise.
Proof.
  unfold seq_harness_ok. split_and!.
  - split_and!; constructor.
  - by eexists.
  - by intros [? [=]].
  - by intros [? [=]].
Defined.

Lemma ex_seq_rise_roles :
  Forall (fun p => p ∈ seq_roles ex_settings ex_seq_wide ex_seq_rise)
    ex_flop_ports.
Proof.
  repeat (apply Forall_cons_2;
            [apply (bool_decide_unpack _); vm_compute; exact I|]).
  apply Forall_nil_2.
Defined.

Lemma seq_trial_runs_when_all_ports_match_witness :
  seq_harness_ok ex_seq_wide ex_seq_rise
  ∧ Forall (fun p => p ∈ seq_roles ex_settings ex_seq_wide ex_seq_rise)
      ex_flop_ports
  ∧ ∃ req,
      @seq_run_delay_trial ex_simulator ex_settings ex_seq_wide ex_seq_rise
        1 1 5 9 []
      = (match @transient ex_simulator req with
         | Some a => Ok a
         | None => Raised NameError
         end, [] ++ [Transient req])
      ∧ subcircuit req = "DFF"%string
      ∧ length (connections req) = length ex_flop_ports
      ∧ meas_name <$> measures req
        = ["prop_in_out"; "trans_out"; "t_setup"; "t_hold"]%string
      ∧ step_time req = sim_timestep ex_seq_wide * units_time ex_settings
      ∧ load_capacitance req = 1 * units_capacitance ex_settings.
Proof.
  split; [exact ex_seq_rise_ok|]. split; [exact ex_seq_rise_roles|].
  refine (@seq_trial_runs_when_all_ports_match ex_simulator ex_settings
            ex_seq_wide ex_seq_rise 1 1 5 9 [] "DFF" ex_flop_ports
            ex_seq_rise_ok eq_refl ex_seq_rise_roles _ (or_introl eq_refl)
            (or_introl eq_refl)).
  cbn. lia.
Defined.




(** ** Sources, test vectors and the characterizer *)

Lemma new_calls_none {A : Type} (log : list sim_call) (r : result A) :
  new_calls log (r, log) = [].
Proof. unfold new_calls. cbn. by rewrite drop_all. Qed.

Lemma new_calls_one {A : Type} (log : list sim_call) (r : result A) c :
  new_calls log (r, log ++ [c]) = [c].
Proof. unfold new_calls. cbn. by rewrite drop_app_length. Qed.

(** X23.  The voltage sources of a trial go forward in time.  For a
    slew, a clock slew, a time unit and setup and hold candidates that
    are not negative, every piecewise-linear source that a
    combinational or a sequential trial hands to the simulator has its
    time points in non-decreasing order, and its last point is the end
    of the run. *)
Theorem trial_sources_advance_in_time `{Simulator}
    (settings : LibrarySettings) (ctm : TestManager)
    (stm : SequentialTestManager) (ch sh : Harness)
    (slew load t_setup t_hold : Q) (log : list sim_call) :
  0 <= units_time settings → 0 <= slew → 0 <= clock_slew stm →
  0 <= t_setup → 0 <= t_hold →
  transient_calls_advance
    (new_calls log (comb_run_delay_trial settings ctm ch slew load log))
  ∧ transient_calls_advance
      (new_calls log
         (seq_run_delay_trial settings stm sh slew load t_setup t_hold log)).
Proof.
  intros Hu Hslew Hclk Hsetup Hhold.
  assert (Hds : 0 <= slew * units_time settings)
    by (by apply Qmult_le_0_compat).
  assert (Hcs : 0 <= clock_slew stm * units_time settings)
    by (by apply Qmult_le_0_compat).
  set (ds := slew * units_time settings) in *.
  set (cs := clock_slew stm * units_time settings) in *.
  split.
  - unfold comb_run_delay_trial. fold ds.
    destruct (is_rise (in_direction ch));
      unfold mbind, M_bind, lift;
      (destruct (definition_ports ctm) as [[name ports]|e];
        [|rewrite new_calls_none; by apply Forall_nil_2]);
      (destruct (for_each ports [] (comb_wire_port settings ch)) as [conns|e];
        [|rewrite new_calls_none; by apply Forall_nil_2]);
      (destruct (len_is_not (length conns) (length ports));
        [unfold raise; rewrite new_calls_none; by apply Forall_nil_2|]);
      unfold run_transient; rewrite new_calls_one;
      apply Forall_singleton, Forall_singleton;
      cbn [snd pwl_times fmap list_fmap fst chain last end_time];
      (split; [|done]); split_and!; try done; lra.
  - unfold seq_run_delay_trial. fold ds. fold cs.
    destruct (bool_decide (timing_type_clock sh = "falling_edge"%string));
      destruct (is_rise (in_direction sh));
      unfold mbind, M_bind, lift;
      (destruct (_wire_subcircuit settings stm sh) as [conns|e];
        [|rewrite new_calls_none; by apply Forall_nil_2]);
      (destruct (seq_measures settings sh _) as [meas|e];
        [|rewrite new_calls_none; by apply Forall_nil_2]);
      unfold run_transient; rewrite new_calls_one;
      apply Forall_singleton;
      (apply Forall_cons_2; [|apply Forall_singleton]);
      cbn [snd pwl_times fmap list_fmap fst chain last end_time];
      (split; [|done]); split_and!; try done; lra.
Qed.

Lemma trial_sources_advance_in_time_witness :
  0 <= units_time ex_settings ∧ 0 <= clock_slew ex_seq_wide
  ∧ transient_calls_advance
      (new_calls []
         (@comb_run_delay_trial ex_simulator ex_settings ex_inv ex_inv_fall
            (1 # 10) (1 # 100) []))
  ∧ transient_calls_advance
      (new_calls []
         (@seq_run_delay_trial ex_simulator ex_settings ex_seq_wide ex_seq_rise
            (1 # 10) (1 # 100) 5 9 [])).
Proof.
  assert (Hu : 0 <= units_time ex_settings) by (by vm_compute).
  assert (Hc : 0 <= clock_slew ex_seq_wide) by (by vm_compute).
  assert (Hs : 0 <= 1 # 10) by (by vm_compute).
  assert (H5 : 0 <= 5) by (by vm_compute).
  assert (H9 : 0 <= 9) by (by vm_compute).
  split; [exact Hu|]. split; [exact Hc|].
  exact (@trial_sources_advance_in_time ex_simulator ex_settings ex_inv
           ex_seq_wide ex_inv_fall ex_seq_rise (1 # 10) (1 # 100) 5 9 []
           Hu Hs Hc H5 H9).
Defined.

Example negative_setup_candidate_goes_back_in_time :
  ¬ transient_calls_advance
      (new_calls []
         (@seq_run_delay_trial ex_simulator ex_settings ex_seq_wide ex_seq_rise
            1 1 (-(2)) 0 [])).
Proof.
  intros Hadv. unfold new_calls in Hadv. vm_compute in Hadv.
  inversion Hadv as [|? ? Hreq _]. inversion Hreq as [|? ? [Hchain _] _].
  destruct Hchain as (Hbad & _). by apply Hbad.
Qed.

Lemma test_vectors_of_arcs (pins : SequentialPins) (ins outs : list string)
    (qs ds : list string) :
  (q_target ← qs; d_target ← ds;
   direction ← ["01"%string; "10"%string];
   [seq_test_vector pins ins outs q_target d_target direction])
  = arc_test_vector pins ins outs <$> arcs qs ds.
Proof.
  unfold arcs. induction qs as [|q qs IH]; [done|].
  rewrite !bind_cons, fmap_app, IH. apply (f_equal (fun l => l ++ _)).
  clear IH. induction ds as [|d ds IH]; [done|].
  by rewrite !bind_cons, fmap_app, IH.
Qed.

Lemma seq_test_vectors_arcs (pins : SequentialPins) (ins outs : list string) :
  seq_test_vectors [] pins ins outs
  = arc_test_vector pins ins outs <$> arcs outs ins.
Proof. apply test_vectors_of_arcs. Qed.

Lemma arcs_length (outs ins : list string) :
  length (arcs outs ins) = (2 * length outs * length ins)%nat.
Proof.
  unfold arcs. induction outs as [|q outs IH]; [done|].
  rewrite bind_cons, length_app, IH. cbn [length].
  assert (Hin : length (ins ≫= fun in_port =>
                  direction ← ["rise"%string; "fall"%string];
                  [(q, in_port, direction)]) = (2 * length ins)%nat).
  { clear. induction ins as [|d ins IH]; [done|].
    rewrite bind_cons, length_app, IH. cbn. lia. }
  rewrite Hin. lia.
Qed.

(** X24.  The test vectors a sequential manager generates.  Without
    stored vectors, [test_vectors] gives exactly one vector per output,
    input and direction, in the order in which [characterize] later
    walks the arcs, '01' for rise and '10' for fall: two vectors per
    D->Q path.  Each vector has one entry per pin, and among the data
    inputs only the target input carries the transition, the others are
    held at '0'.  Stored vectors, when there are any, are returned as
    they are. *)
Theorem seq_test_vectors_follow_the_arcs (pins : SequentialPins)
    (ins outs : list string) :
  seq_test_vectors [] pins ins outs
  = arc_test_vector pins ins outs <$> arcs outs ins
  ∧ length (seq_test_vectors [] pins ins outs)
    = (2 * length outs * length ins)%nat
  ∧ Forall (fun arc =>
              length (arc_test_vector pins ins outs arc)
              = (data_offset pins + length ins + length outs)%nat
              ∧ ∀ i d, ins !! i = Some d →
                  arc_test_vector pins ins outs arc !! (data_offset pins + i)%nat
                  = Some (if bool_decide (d = arc.1.2)
                          then direction_code arc.2 else "0"%string))
      (arcs outs ins)
  ∧ ∀ v stored, seq_test_vectors (v :: stored) pins ins outs = v :: stored.
Proof.
  split_and!.
  - apply seq_test_vectors_arcs.
  - by rewrite seq_test_vectors_arcs, length_fmap, arcs_length.
  - apply Forall_forall. intros [[q d] dir] _.
    unfold arc_test_vector, seq_test_vector, data_offset. cbn [fst snd].
    set (clk := if bool_decide (clock_trigger pins = "posedge"%string)
                then "0101"%string else "1010"%string).
    set (prefix := [clk] ++ option_list (inactive_level <$> set_trigger pins)
                   ++ option_list (inactive_level <$> reset_trigger pins)
                   ++ ((fun _ => "0"%string) <$> flops pins)).
    assert (Hprefix : length prefix
                      = (1 + length (option_list (set_trigger pins))
                         + length (option_list (reset_trigger pins))
                         + length (flops pins))%nat).
    { unfold prefix. rewrite !length_app, length_fmap.
      destruct (set_trigger pins), (reset_trigger pins); cbn; lia. }
    rewrite <- Hprefix.
    replace ([clk] ++ option_list (inactive_level <$> set_trigger pins)
             ++ option_list (inactive_level <$> reset_trigger pins)
             ++ ((fun _ => "0"%string) <$> flops pins)
             ++ ((fun d0 => if bool_decide (d0 = d) then direction_code dir
                            else "0"%string) <$> ins)
             ++ ((fun q0 => if bool_decide (q0 = q) then direction_code dir
                            else "0"%string) <$> outs))
      with (prefix
            ++ ((fun d0 => if bool_decide (d0 = d) then direction_code dir
                           else "0"%string) <$> ins)
            ++ ((fun q0 => if bool_decide (q0 = q) then direction_code dir
                           else "0"%string) <$> outs))
      by (unfold prefix; by rewrite <- !app_assoc).
    split.
    + rewrite !length_app, !length_fmap. lia.
    + intros i d' Hi.
      clearbody prefix. rewrite (lookup_app_r prefix); [|lia].
      replace (length prefix + i - length prefix)%nat with i by lia.
      rewrite lookup_app_l by (rewrite length_fmap; by eapply lookup_lt_Some).
      by rewrite list_lookup_fmap, Hi.
  - done.
Qed.

Example dff_test_vectors :
  seq_test_vectors [] ex_dff_pins ["D"]%string ["Q"]%string
  = [["0101"; "1"; "0"; "01"; "01"]; ["0101"; "1"; "0"; "10"; "10"]]%string.
Proof. done. Qed.

(** X25.  [add_cell] and [add_flop] append, [last_cell] reads the end:
    after a cell is added, [last_cell] returns that cell and the cells
    added before are all still there, in their order; on a characterizer
    without cells [last_cell] raises [IndexError]. *)
Theorem last_cell_is_the_cell_added {C : Type} (ch : Characterizer C) (c : C) :
  last_cell (add_cell ch c) = Ok c
  ∧ cells (add_cell ch c) = cells ch ++ [c]
  ∧ (∀ i x, cells ch !! i = Some x → cells (add_cell ch c) !! i = Some x)
  ∧ num_files_generated (add_cell ch c) = num_files_generated ch
  ∧ last_cell (@new_characterizer C) = Raised IndexError
  ∧ match last_cell ch with
    | Ok x => ∃ before, cells ch = before ++ [x]
    | Raised e => e = IndexError ∧ cells ch = []
    end.
Proof.
  split_and!; try done.
  - unfold last_cell, add_cell. cbn [cells]. by rewrite last_snoc.
  - intros i x Hi. cbn [add_cell cells]. by apply lookup_app_l_Some.
  - unfold last_cell. destruct (cells ch) as [|x l] using rev_ind; [done|].
    rewrite last_snoc. by exists l.
Qed.

Lemma for_each_M_app {A S : Type} (body : S → A → M S) (l1 l2 : list A)
    (s : S) (log : list sim_call) :
  for_each (l1 ++ l2) s body log
  = match for_each l1 s body log with
    | (Ok s', log') => for_each l2 s' body log'
    | (Raised e, log') => (Raised e, log')
    end.
Proof.
  revert s log. induction l1 as [|x l1 IH]; intros s log; [done|].
  cbn [app for_each]. rewrite !M_bind_unfold.
  destruct (body s x log) as [[s'|e] log']; [apply IH|done].
Qed.

Lemma for_each_M_raises {A S : Type} (body : S → A → M S) (l : list A) :
  ∀ s log e log',
    for_each l s body log = (Raised e, log') →
    ∃ before x after s1 log1,
      l = before ++ x :: after
      ∧ for_each before s body log = (Ok s1, log1)
      ∧ body s1 x log1 = (Raised e, log').
Proof.
  induction l as [|x l IH]; intros s log e log'; [done|].
  cbn [for_each]. rewrite M_bind_unfold.
  destruct (body s x log) as [[s'|e'] log1] eqn:Hx.
  - intros Hrest. destruct (IH _ _ _ _ Hrest)
      as (before & y & after & s1 & log2 & -> & Hbefore & Hy).
    exists (x :: before), y, after, s1, log2. split_and!; [done| |done].
    cbn [for_each]. by rewrite M_bind_unfold, Hx.
  - intros [= <- <-]. by exists [], x, l, s, log.
Qed.

(** X26.  [Characterizer.characterize] goes through the cells passed,
    or through all its cells when none is passed, in order, and stops at
    the first cell whose characterization raises: the cells before it
    were characterized, the exception is the one that cell raised, and
    no cell after it is run. *)
Theorem characterize_stops_at_first_failing_cell {C : Type}
    (run : C → M unit) (ch : Characterizer C) (given : list C)
    (log : list sim_call) :
  match characterize run ch given log with
  | (Raised e, log') =>
      ∃ before cell after log1,
        targets ch given = before ++ cell :: after
        ∧ for_each before tt (fun _ c => run c) log = (Ok tt, log1)
        ∧ run cell log1 = (Raised e, log')
        ∧ characterize run ch (before ++ [cell]) log = (Raised e, log')
  | (Ok _, log') =>
      for_each (targets ch given) tt (fun _ c => run c) log = (Ok tt, log')
  end.
Proof.
  unfold characterize. fold (targets ch given).
  destruct (for_each (targets ch given) tt (fun _ c => run c) log)
    as [[[]|e] log'] eqn:Hrun; [done|].
  destruct (for_each_M_raises _ _ _ _ _ _ Hrun)
    as (before & cell & after & [] & log1 & Htargets & Hbefore & Hcell).
  exists before, cell, after, log1. split_and!; try done.
  replace (match before ++ [cell] with
           | [] => cells ch
           | _ :: _ => before ++ [cell]
           end) with (before ++ [cell]) by (by destruct before).
  rewrite for_each_M_app, Hbefore. cbn [for_each].
  by rewrite M_bind_unfold, Hcell.
Qed.

Example characterize_skips_cells_after_failure :
  characterize ex_run
    (add_cell (add_cell (add_cell new_characterizer 1%nat) 2%nat) 3%nat) [] []
  = (Raised TypeError, [AcSweep "1" "" []])
  ∧ characterize ex_run (add_cell (add_cell new_characterizer 2%nat) 4%nat)
      [4%nat; 5%nat] []
    = (Ok tt, [AcSweep "4" "" []; AcSweep "5" "" []]).
Proof. by vm_compute. Qed.

(** ** Threads and the simulation settings *)

Lemma sweep_in_thread_unmatched `{Simulator} `{PyFormat}
    settings tm h name ports :
  harness_ok h → definition tm = Some (name :: ports) →
  Exists (fun p => p ∉ comb_roles settings h) ports →
  ∀ slews loads log,
    sweep slews loads h
      (fun h slew load => in_thread (comb_run_delay settings tm h slew load) h)
      log
    = (Ok h, log).
Proof.
  intros Hok Hdef Hex. unfold sweep.
  induction slews as [|slew slews IH]; intros loads log; [done|].
  rewrite for_each_cons, M_bind_unfold.
  assert (Hloads : ∀ l, for_each l h
                          (fun s load =>
                             in_thread (comb_run_delay settings tm s slew load) s)
                          log = (Ok h, log)).
  { induction l as [|load l IHl]; [done|].
    rewrite for_each_cons, M_bind_unfold. unfold in_thread at 1.
    unfold comb_run_delay at 1. rewrite M_bind_unfold.
    by rewrite (comb_trial_unmatched settings tm h slew load log name ports). }
  rewrite Hloads. apply IH.
Qed.

Lemma in_thread_returns (job : M Harness) (h : Harness) (log : list sim_call) :
  ∃ h' log', in_thread job h log = (Ok h', log').
Proof.
  unfold in_thread. destruct (job log) as [[h'|e] log']; by eexists _, _.
Qed.

Lemma for_each_M_returns {A S : Type} (body : S → A → M S) :
  (∀ s x log, ∃ s' log', body s x log = (Ok s', log')) →
  ∀ l s log, ∃ s' log', for_each l s body log = (Ok s', log').
Proof.
  intros Hbody. induction l as [|x l IH]; intros s log.
  - by eexists _, _.
  - rewrite for_each_cons, M_bind_unfold.
    destruct (Hbody s x log) as (s' & log' & ->). apply IH.
Qed.

Lemma threaded_delays_return `{Simulator} `{PyFormat} `{HarnessModule}
    settings tm :
  use_multithreaded settings = true →
  simulator settings ≠ "ngspice-shared"%string →
  ∀ tvs acc log,
    ∃ hs log',
      for_each tvs acc (fun unsorted test_vector =>
        let harness := CombinationalHarness tm test_vector in
        harness ←
          (if use_multithreaded settings
              && negb (bool_decide (simulator settings = "ngspice-shared"%string))
           then sweep (_in_slews tm) (_out_loads tm) harness
                  (fun h slew load =>
                     in_thread (comb_run_delay settings tm h slew load) h)
           else sweep (_in_slews tm) (_out_loads tm) harness
                  (fun h slew load => comb_run_delay settings tm h slew load));
        mret (unsorted ++ [harness])) log
      = (Ok (acc ++ hs), log')
      ∧ length hs = length tvs
      ∧ ((∀ name ports, definition tm = Some (name :: ports) →
          Forall (fun tv =>
                    harness_ok (CombinationalHarness tm tv)
                    ∧ Exists (fun p => p ∉ comb_roles settings
                                             (CombinationalHarness tm tv)) ports)
            tvs →
          hs = CombinationalHarness tm <$> tvs ∧ log' = log)).
Proof.
  intros Hmt Hsim.
  set (body := fun (unsorted : list Harness) (test_vector : test_vector) =>
        let harness := CombinationalHarness tm test_vector in
        harness ←
          (if use_multithreaded settings
              && negb (bool_decide (simulator settings = "ngspice-shared"%string))
           then sweep (_in_slews tm) (_out_loads tm) harness
                  (fun h slew load =>
                     in_thread (comb_run_delay settings tm h slew load) h)
           else sweep (_in_slews tm) (_out_loads tm) harness
                  (fun h slew load => comb_run_delay settings tm h slew load));
        mret (M := M) (unsorted ++ [harness])).
  assert (Hbody : ∀ acc tv log,
            body acc tv log
            = match sweep (_in_slews tm) (_out_loads tm)
                      (CombinationalHarness tm tv)
                      (fun h slew load =>
                         in_thread (comb_run_delay settings tm h slew load) h)
                      log with
              | (Ok h, log') => (Ok (acc ++ [h]), log')
              | (Raised e, log') => (Raised e, log')
              end).
  { intros acc tv log. unfold body. cbv zeta.
    by rewrite M_bind_unfold, Hmt, bool_decide_eq_false_2 by done. }
  clearbody body.
  induction tvs as [|tv tvs IH]; intros acc log.
  - exists [], log. rewrite app_nil_r. by split_and!.
  - rewrite for_each_cons, M_bind_unfold, Hbody.
    destruct (for_each_M_returns
                (fun s slew => for_each (_out_loads tm) s
                   (fun s load =>
                      in_thread (comb_run_delay settings tm s slew load) s))
                (fun s slew l =>
                   for_each_M_returns _
                     (fun s load l => in_thread_returns _ s l)
                     (_out_loads tm) s l)
                (_in_slews tm) (CombinationalHarness tm tv) log)
      as (h1 & log1 & Hsweep).
    unfold sweep at 1. rewrite Hsweep.
    destruct (IH (acc ++ [h1]) log1) as (hs & log' & -> & Hlen & Hquiet).
    exists (h1 :: hs), log'. rewrite <- app_assoc. split_and!; [done|cbn; lia|].
    intros name ports Hdef Hall. apply Forall_cons in Hall as [[Hok Hex] Hall].
    pose proof (sweep_in_thread_unmatched settings tm _ name ports Hok Hdef Hex
                  (_in_slews tm) (_out_loads tm) log) as Hsw.
    unfold sweep in Hsw. rewrite Hsw in Hsweep. injection Hsweep as <- <-.
    destruct (Hquiet name ports Hdef Hall) as [-> ->]. done.
Qed.

(** X27.  Trials run in threads cannot stop a characterization.  With
    multithreading on and a simulator other than 'ngspice-shared', an
    exception of a trial ends its thread and nothing else: the delay
    stage of [CombinationalTestManager.characterize] always returns,
    with one harness per test vector.  A definition with a port that
    matches no role, which raises the wiring [ValueError] when the
    trials run in turn, then goes unreported: no simulation is made and
    every harness comes back as it was constructed, without results. *)
Theorem threaded_trials_swallow_wiring_errors `{Simulator} `{PyFormat}
    `{HarnessModule} (settings : LibrarySettings) (tm : TestManager)
    (name : string) (ports : list string) (log : list sim_call) :
  use_multithreaded settings = true →
  simulator settings ≠ "ngspice-shared"%string →
  definition tm = Some (name :: ports) →
  Forall (fun tv =>
            harness_ok (CombinationalHarness tm tv)
            ∧ Exists (fun p => p ∉ comb_roles settings
                                     (CombinationalHarness tm tv)) ports)
    (test_vectors tm) →
  comb_run_all_delays settings tm log
  = (Ok (CombinationalHarness tm <$> test_vectors tm), log)
  ∧ ∀ tm' log0, ∃ hs log',
      comb_run_all_delays settings tm' log0 = (Ok hs, log')
      ∧ length hs = length (test_vectors tm').
Proof.
  intros Hmt Hsim Hdef Hall. split.
  - destruct (threaded_delays_return settings tm Hmt Hsim (test_vectors tm) [] log)
      as (hs & log' & Hrun & _ & Hquiet).
    destruct (Hquiet name ports Hdef Hall) as [-> ->]. exact Hrun.
  - intros tm' log0.
    destruct (threaded_delays_return settings tm' Hmt Hsim (test_vectors tm') []
                log0) as (hs & log' & Hrun & Hlen & _).
    by exists hs, log'.
Qed.

Lemma threaded_trials_swallow_wiring_errors_witness :
  use_multithreaded ex_threaded_settings = true
  ∧ simulator ex_threaded_settings ≠ "ngspice-shared"%string
  ∧ @comb_run_all_delays ex_simulator ex_format ex_harness_module
      ex_threaded_settings ex_inv_extra_port []
    = (Ok (ex_comb_harness ex_inv_extra_port
             <$> test_vectors ex_inv_extra_port), [])
  ∧ @comb_run_all_delays ex_simulator ex_format ex_harness_module
      ex_settings ex_inv_extra_port []
    = (Raised (ValueError UnmatchedPorts), []).
Proof.
  assert (Hsim : simulator ex_threaded_settings ≠ "ngspice-shared"%string)
    by done.
  assert (Hall : Forall (fun tv =>
                   harness_ok (ex_comb_harness ex_inv_extra_port tv)
                   ∧ Exists (fun p => p ∉ comb_roles ex_threaded_settings
                                            (ex_comb_harness ex_inv_extra_port tv))
                       ["A"; "EN"; "Y"; "VDD"; "VSS"]%string)
                  (test_vectors ex_inv_extra_port)).
  { apply Forall_cons_2; [|apply Forall_cons_2; [|apply Forall_nil_2]].
    - split; [split_and!; constructor|].
      apply Exists_cons_tl, Exists_cons_hd. not_in_list.
    - split; [split_and!; constructor|].
      apply Exists_cons_tl, Exists_cons_hd. not_in_list. }
  split; [reflexivity|]. split; [exact Hsim|]. split.
  - exact (proj1 (@threaded_trials_swallow_wiring_errors ex_simulator ex_format
                    ex_harness_module ex_threaded_settings ex_inv_extra_port
                    "INV" ["A"; "EN"; "Y"; "VDD"; "VSS"]%string []
                    eq_refl Hsim eq_refl Hall)).
  - by vm_compute.
Defined.

Lemma accepted_key (d : gmap string pyval) (key : string) :
  accepted (dict_get d key) → ∃ v, d !! key = Some v ∧ accepted v.
Proof.
  unfold dict_get. destruct (d !! key) as [v|]; [by exists v|].
  by intros [?|(q & ? & _)].
Qed.

Ltac setter_accepts :=
  let Hnum := fresh in let Hpos := fresh in let Hauto := fresh in
  match goal with
  | |- context [as_number ?v] =>
      unfold accepted;
      destruct (as_number v) as [?|] eqn:Hnum;
        [destruct (Qltb 0 _) eqn:Hpos;
           [apply Qltb_lt in Hpos; intros [= <-]; split; [|done]; right; eauto
           |done]
        |destruct (is_auto v) eqn:Hauto; [|done];
         unfold in_slews; destruct (_in_slews _);
         try done; intros [= <-]; (split; [by left|done])]
  end.

Lemma set_sim_setup_highest_accepts tm v tm' :
  set_sim_setup_highest tm v = Ok tm' → accepted v ∧ base tm' = base tm.
Proof. unfold set_sim_setup_highest. setter_accepts. Qed.

Lemma set_sim_setup_lowest_accepts tm v tm' :
  set_sim_setup_lowest tm v = Ok tm' → accepted v ∧ base tm' = base tm.
Proof. unfold set_sim_setup_lowest. setter_accepts. Qed.

Lemma set_sim_setup_timestep_accepts tm v tm' :
  set_sim_setup_timestep tm v = Ok tm' → accepted v ∧ base tm' = base tm.
Proof. unfold set_sim_setup_timestep. setter_accepts. Qed.

Lemma set_sim_hold_highest_accepts tm v tm' :
  set_sim_hold_highest tm v = Ok tm' → accepted v ∧ base tm' = base tm.
Proof. unfold set_sim_hold_highest. setter_accepts. Qed.

Lemma set_sim_hold_lowest_accepts tm v tm' :
  set_sim_hold_lowest tm v = Ok tm' → accepted v ∧ base tm' = base tm.
Proof. unfold set_sim_hold_lowest. setter_accepts. Qed.

Lemma set_sim_hold_timestep_accepts tm v tm' :
  set_sim_hold_timestep tm v = Ok tm' → accepted v ∧ base tm' = base tm.
Proof. unfold set_sim_hold_timestep. setter_accepts. Qed.

Lemma configure_setup_accepts tm setup tm' :
  configure_setup tm setup = Ok tm' →
  Forall (fun key => ∃ v, setup !! key = Some v ∧ accepted v)
    ["highest"; "lowest"; "timestep"]%string
  ∧ base tm' = base tm.
Proof.
  unfold configure_setup.
  destruct (set_sim_setup_highest tm _) as [tm1|] eqn:H1; [|done].
  cbn [mbind result_bind].
  destruct (set_sim_setup_lowest tm1 _) as [tm2|] eqn:H2; [|done].
  cbn [mbind result_bind]. intros H3.
  apply set_sim_setup_highest_accepts in H1 as [A1 B1].
  apply set_sim_setup_lowest_accepts in H2 as [A2 B2].
  apply set_sim_setup_timestep_accepts in H3 as [A3 B3].
  split; [|congruence].
  repeat (apply Forall_cons_2; [by apply accepted_key|]). apply Forall_nil_2.
Qed.

Lemma configure_hold_accepts tm hold tm' :
  configure_hold tm hold = Ok tm' →
  Forall (fun key => ∃ v, hold !! key = Some v ∧ accepted v)
    ["highest"; "lowest"; "timestep"]%string
  ∧ base tm' = base tm.
Proof.
  unfold configure_hold.
  destruct (set_sim_hold_highest tm _) as [tm1|] eqn:H1; [|done].
  cbn [mbind result_bind].
  destruct (set_sim_hold_lowest tm1 _) as [tm2|] eqn:H2; [|done].
  cbn [mbind result_bind]. intros H3.
  apply set_sim_hold_highest_accepts in H1 as [A1 B1].
  apply set_sim_hold_lowest_accepts in H2 as [A2 B2].
  apply set_sim_hold_timestep_accepts in H3 as [A3 B3].
  split; [|congruence].
  repeat (apply Forall_cons_2; [by apply accepted_key|]). apply Forall_nil_2.
Qed.

(** X28.  The constructor reads the search settings with [dict.get],
    which gives [None] for a missing key, and hands each to its setter:
    a 'setup' or 'hold' dictionary is taken only when it holds all of
    'highest', 'lowest' and 'timestep', each 'auto' or a positive
    number.  One key missing raises [TypeError], whatever the other
    keys hold.  Without a 'simulation' keyword nothing is assigned, and
    the slews, the loads and the rest of the base manager are never
    touched. *)
Theorem simulation_settings_need_every_key (tm : SequentialTestManager)
    (sim : gmap string (gmap string pyval)) :
  match configure_simulation tm (Some sim) with
  | Ok tm' =>
      base tm' = base tm
      ∧ (∀ setup, sim !! "setup"%string = Some setup →
           Forall (fun key => ∃ v, setup !! key = Some v ∧ accepted v)
             ["highest"; "lowest"; "timestep"]%string)
      ∧ (∀ hold, sim !! "hold"%string = Some hold →
           Forall (fun key => ∃ v, hold !! key = Some v ∧ accepted v)
             ["highest"; "lowest"; "timestep"]%string)
  | Raised _ => True
  end
  ∧ configure_simulation tm None = Ok tm
  ∧ (∀ d, d !! "highest"%string = None →
          configure_setup tm d = Raised TypeError
          ∧ configure_hold tm d = Raised TypeError).
Proof.
  split_and!; [|done|].
  - unfold configure_simulation.
    destruct (sim !! "setup"%string) as [setup|];
      destruct (sim !! "hold"%string) as [hold|]; cbn [mbind result_bind].
    + destruct (configure_setup tm setup) as [tm1|] eqn:H1; [|done].
      cbn [mbind result_bind].
      destruct (configure_hold tm1 hold) as [tm2|] eqn:H2; [|done].
      apply configure_setup_accepts in H1 as [A1 B1].
      apply configure_hold_accepts in H2 as [A2 B2].
      split_and!; [congruence|by intros ? [= <-]|by intros ? [= <-]].
    + destruct (configure_setup tm setup) as [tm1|] eqn:H1; [|done].
      cbn [mbind result_bind].
      apply configure_setup_accepts in H1 as [A1 B1].
      split_and!; [done|by intros ? [= <-]|done].
    + destruct (configure_hold tm hold) as [tm2|] eqn:H2; [|done].
      apply configure_hold_accepts in H2 as [A2 B2].
      split_and!; [done|done|by intros ? [= <-]].
    + done.
  - intros d Hd. unfold configure_setup, configure_hold, dict_get.
    by rewrite Hd.
Qed.

Example explicit_settings_are_taken :
  ∃ tm', configure_simulation
           (init_sequential (ex_dff ex_flop_ports) "CLK" None None)
           (Some (<["setup"%string :=
                      <["highest"%string := PyInt 9]>
                        (<["lowest"%string := PyInt 1]>
                           (<["timestep"%string := PyFloat (1 # 2)]> ∅))]> ∅))
         = Ok tm'
         ∧ _sim_setup_highest tm' = 9 ∧ _sim_setup_lowest tm' = 1
         ∧ _sim_setup_timestep tm' = 1 # 2 ∧ _sim_hold_highest tm' = 0.
Proof. by eexists. Qed.
(** * The searches on floats: properties *)

(** ** Rounding to binary64 *)

Lemma floor_bounds (q : Q) :
  inject_Z (Qfloor q) <= q ∧ q < inject_Z (Qfloor q) + 1.
Proof.
  split; [apply Qfloor_le|].
  pose proof (Qlt_floor q) as H. rewrite inject_Z_plus in H. exact H.
Qed.

Lemma inject_Z_succ (z : Z) : inject_Z (z + 1) == inject_Z z + 1.
Proof. by rewrite inject_Z_plus. Qed.

Lemma round_half_even_cases (q : Q) :
  (round_half_even q = Qfloor q ∧ q - inject_Z (Qfloor q) <= 1 # 2)
  ∨ (round_half_even q = (Qfloor q + 1)%Z ∧ 1 # 2 <= q - inject_Z (Qfloor q)).
Proof.
  unfold round_half_even. cbv zeta.
  destruct (Qcompare_spec (q - inject_Z (Qfloor q)) (1 # 2)) as [E|L|G].
  - destruct (Z.even (Qfloor q)); [left|right]; (split; [done|]); lra.
  - left. split; [done|lra].
  - right. split; [done|lra].
Qed.

Lemma round_half_even_close (q : Q) :
  q - (1 # 2) <= inject_Z (round_half_even q)
  ∧ inject_Z (round_half_even q) <= q + (1 # 2).
Proof.
  destruct (floor_bounds q) as [H1 H2].
  destruct (round_half_even_cases q) as [[-> H]|[-> H]];
    rewrite ?inject_Z_succ; split; lra.
Qed.

Lemma round_half_even_eq (q q' : Q) :
  q == q' → round_half_even q = round_half_even q'.
Proof.
  intros E. unfold round_half_even. cbv zeta.
  assert (Ef : Qfloor q = Qfloor q') by (by rewrite E).
  rewrite Ef.
  assert (Ec : Qcompare (q - inject_Z (Qfloor q')) (1 # 2)
               = Qcompare (q' - inject_Z (Qfloor q')) (1 # 2))
    by (by rewrite E).
  by rewrite Ec.
Qed.

Lemma round_half_even_Z (z : Z) : round_half_even (inject_Z z) = z.
Proof.
  destruct (round_half_even_cases (inject_Z z)) as [[-> _]|[_ H]].
  - apply Qfloor_Z.
  - rewrite Qfloor_Z in H. lra.
Qed.

Lemma round_half_even_mono (q q' : Q) :
  q <= q' → (round_half_even q <= round_half_even q')%Z.
Proof.
  intros Hle.
  pose proof (Qfloor_resp_le q q' Hle) as Hf.
  destruct (Z.eq_dec (Qfloor q) (Qfloor q')) as [E|N].
  - unfold round_half_even. cbv zeta. rewrite E.
    destruct (Qcompare_spec (q - inject_Z (Qfloor q')) (1 # 2)) as [E1|L1|G1];
      destruct (Qcompare_spec (q' - inject_Z (Qfloor q')) (1 # 2)) as [E2|L2|G2];
      try lia; try (exfalso; lra);
      destruct (Z.even (Qfloor q')); lia.
  - destruct (round_half_even_cases q) as [[-> _]|[-> _]];
      destruct (round_half_even_cases q') as [[-> _]|[-> _]]; lia.
Qed.
Lemma two_pow_pos (e : Z) : 0 < 2 ^ e.
Proof. by apply Qpower_0_lt. Qed.

Lemma two_pow_succ (e : Z) : 2 ^ (e + 1) == 2 * 2 ^ e.
Proof. rewrite Qpower_plus by done. change (2 ^ 1) with 2. ring. Qed.

Lemma two_pow_pred (e : Z) : 2 ^ (e - 1) == 2 ^ e / 2.
Proof.
  replace e with ((e - 1) + 1)%Z at 2 by lia. rewrite two_pow_succ. field.
Qed.

Lemma two_pow_lt (e f : Z) : 2 ^ e < 2 ^ f → (e < f)%Z.
Proof. intros H. by apply (Qpower_lt_compat_l_inv 2). Qed.

Lemma two_pow_le (e f : Z) : (e <= f)%Z → 2 ^ e <= 2 ^ f.
Proof. intros H. by apply Qpower_le_compat_l. Qed.

Lemma two_pow_Z (n : Z) : (0 <= n)%Z → inject_Z (2 ^ n) == 2 ^ n.
Proof. intros H. by rewrite Zpower_Qpower. Qed.

(** The exponent of the leading bit is unique. *)
Lemma binade_unique (q : Q) (f g : Z) :
  2 ^ f <= q → q < 2 ^ (f + 1) → 2 ^ g <= q → q < 2 ^ (g + 1) → f = g.
Proof.
  intros F1 F2 G1 G2.
  assert (H1 : (f < g + 1)%Z) by (apply two_pow_lt; lra).
  assert (H2 : (g < f + 1)%Z) by (apply two_pow_lt; lra).
  lia.
Qed.

Lemma Zlog2_bounds (n : Z) :
  (0 < n)%Z →
  2 ^ Z.log2 n <= inject_Z n ∧ inject_Z n < 2 * 2 ^ Z.log2 n.
Proof.
  intros Hn. destruct (Z.log2_spec n Hn) as [H1 H2].
  pose proof (Z.log2_nonneg n) as H0.
  rewrite <- two_pow_Z by done. split.
  - by rewrite <- Zle_Qle.
  - replace (Z.succ (Z.log2 n)) with (Z.log2 n + 1)%Z in H2 by lia.
    rewrite Z.pow_add_r, Z.pow_1_r in H2 by lia.
    change 2 with (inject_Z 2). rewrite <- inject_Z_mult, <- Zlt_Qlt. lia.
Qed.

Lemma ilog2_spec (q : Q) :
  0 < q → 2 ^ ilog2 q <= q ∧ q < 2 ^ (ilog2 q + 1).
Proof.
  intros Hq. destruct q as [n d].
  assert (Hn : (0 < n)%Z).
  { unfold Qlt in Hq. cbn in Hq. lia. }
  destruct (Zlog2_bounds n Hn) as [N1 N2].
  destruct (Zlog2_bounds (Zpos d) eq_refl) as [D1 D2].
  pose proof (two_pow_pos (Z.log2 n)) as PX.
  pose proof (two_pow_pos (Z.log2 (Zpos d))) as PY.
  set (X := 2 ^ Z.log2 n) in *. set (Y := 2 ^ Z.log2 (Zpos d)) in *.
  assert (Eq : n # d == inject_Z n / inject_Z (Zpos d)) by apply Qmake_Qdiv.
  set (N := inject_Z n) in *. set (D := inject_Z (Zpos d)) in *.
  assert (Ec : 2 ^ (Z.log2 n - Z.log2 (Zpos d)) == X / Y).
  { unfold X, Y. by rewrite Qpower_minus. }
  assert (HD : 0 < D) by lra.
  assert (Hlo : X / Y / 2 < N / D).
  { apply Qlt_shift_div_l; [done|].
    assert (E : X / Y / 2 * D == X * (D / (2 * Y))) by (field; lra).
    rewrite E.
    assert (HDY : D / (2 * Y) < 1).
    { apply Qlt_shift_div_r; lra. }
    assert (X * (D / (2 * Y)) < X * 1); [|lra].
    apply Qmult_lt_l; lra. }
  assert (Hhi : N / D < 2 * (X / Y)).
  { apply Qlt_shift_div_r; [done|].
    assert (E : 2 * (X / Y) * D == (2 * X) * (D / Y)) by (field; lra).
    rewrite E.
    assert (HDY : 1 <= D / Y).
    { apply Qle_shift_div_l; lra. }
    assert ((2 * X) * 1 <= (2 * X) * (D / Y)); [|lra].
    apply Qmult_le_l; lra. }
  unfold ilog2. cbn [Qnum Qden].
  set (c := (Z.log2 n - Z.log2 (Zpos d))%Z) in *.
  destruct (Qle_bool (2 ^ c) (n # d)) eqn:Hb.
  - apply Qle_bool_iff in Hb. split; [done|].
    rewrite two_pow_succ, Ec, Eq. lra.
  - assert (Hlt : n # d < 2 ^ c).
    { apply Qnot_le_lt. intros H. apply Qle_bool_iff in H. congruence. }
    replace (c - 1 + 1)%Z with c by lia. split; [|done].
    rewrite two_pow_pred, Ec, Eq. lra.
Qed.

Lemma ilog2_unique (q : Q) (f : Z) :
  2 ^ f <= q → q < 2 ^ (f + 1) → ilog2 q = f.
Proof.
  intros F1 F2.
  assert (Hq : 0 < q) by (pose proof (two_pow_pos f); lra).
  destruct (ilog2_spec q Hq) as [G1 G2].
  by eapply binade_unique.
Qed.

Lemma ilog2_eq (q q' : Q) : 0 < q → q == q' → ilog2 q = ilog2 q'.
Proof.
  intros Hq E. destruct (ilog2_spec q Hq) as [G1 G2].
  symmetry. apply ilog2_unique; by rewrite <- E.
Qed.

Lemma ilog2_half (q : Q) : 0 < q → ilog2 (q / 2) = (ilog2 q - 1)%Z.
Proof.
  intros Hq. destruct (ilog2_spec q Hq) as [G1 G2].
  apply ilog2_unique.
  - rewrite two_pow_pred. q_arith.
  - replace (ilog2 q - 1 + 1)%Z with (ilog2 q) by lia.
    rewrite two_pow_succ in G2. q_arith.
Qed.

Lemma ilog2_mono (q q' : Q) : 0 < q → q <= q' → (ilog2 q <= ilog2 q')%Z.
Proof.
  intros Hq Hle.
  destruct (ilog2_spec q Hq) as [G1 G2].
  destruct (ilog2_spec q') as [G1' G2']; [lra|].
  assert ((ilog2 q < ilog2 q' + 1)%Z) by (apply two_pow_lt; lra). lia.
Qed.

Lemma ilog2_two_pow (f : Z) : ilog2 (2 ^ f) = f.
Proof.
  apply ilog2_unique; [lra|]. rewrite two_pow_succ.
  pose proof (two_pow_pos f). lra.
Qed.
(** The scaled value of a positive number: between 2^52 and 2^53. *)
Lemma scaled_range (q : Q) :
  0 < q →
  2 ^ 52 <= q / 2 ^ (ilog2 q - 52) ∧ q / 2 ^ (ilog2 q - 52) < 2 ^ 53.
Proof.
  intros Hq. destruct (ilog2_spec q Hq) as [G1 G2].
  pose proof (two_pow_pos (ilog2 q - 52)) as HP.
  assert (E1 : 2 ^ ilog2 q == 2 ^ 52 * 2 ^ (ilog2 q - 52)).
  { rewrite <- Qpower_plus by done. by replace (52 + (ilog2 q - 52))%Z
      with (ilog2 q) by lia. }
  assert (E2 : 2 ^ (ilog2 q + 1) == 2 ^ 53 * 2 ^ (ilog2 q - 52)).
  { rewrite <- Qpower_plus by done. by replace (53 + (ilog2 q - 52))%Z
      with (ilog2 q + 1)%Z by lia. }
  split.
  - apply Qle_shift_div_l; [done|]. by rewrite <- E1.
  - apply Qlt_shift_div_r; [done|]. by rewrite <- E2.
Qed.

Lemma mantissa_range (q : Q) :
  0 < q →
  (2 ^ 52 <= round_half_even (q / 2 ^ (ilog2 q - 52)) <= 2 ^ 53)%Z.
Proof.
  intros Hq. destruct (scaled_range q Hq) as [S1 S2].
  rewrite <- (round_half_even_Z (2 ^ 52)), <- (round_half_even_Z (2 ^ 53)).
  split; apply round_half_even_mono.
  - by rewrite two_pow_Z.
  - rewrite two_pow_Z by done. lra.
Qed.

Lemma scale_back (x P : Q) : 0 < P → x / P * P == x.
Proof. intros HP. field. lra. Qed.

(** Rounding a positive number moves it by at most half a unit in the
    last place. *)
Lemma round_pos_close (q : Q) :
  0 < q →
  q - 2 ^ (ilog2 q - 52) / 2 <= round_pos q
  ∧ round_pos q <= q + 2 ^ (ilog2 q - 52) / 2.
Proof.
  intros Hq. unfold round_pos. cbv zeta.
  pose proof (two_pow_pos (ilog2 q - 52)) as HP.
  set (P := 2 ^ (ilog2 q - 52)) in *.
  destruct (round_half_even_close (q / P)) as [C1 C2].
  set (n := inject_Z (round_half_even (q / P))) in *.
  pose proof (scale_back q P HP) as E.
  split.
  - assert (H : (q / P - (1 # 2)) * P <= n * P)
      by (apply Qmult_le_compat_r; lra).
    assert (E' : (q / P - (1 # 2)) * P == q / P * P - P / 2) by (field; lra).
    rewrite E', E in H. exact H.
  - assert (H : n * P <= (q / P + (1 # 2)) * P)
      by (apply Qmult_le_compat_r; lra).
    assert (E' : (q / P + (1 # 2)) * P == q / P * P + P / 2) by (field; lra).
    rewrite E', E in H. exact H.
Qed.

Lemma ulp_small (q : Q) :
  0 < q → 2 ^ (ilog2 q - 52) / 2 <= (1 # 9007199254740992) * q.
Proof.
  intros Hq. destruct (ilog2_spec q Hq) as [G1 _].
  assert (E : 2 ^ (ilog2 q - 52) == 2 ^ ilog2 q * (1 # 4503599627370496)).
  { rewrite Qpower_minus by done. by vm_compute (2 ^ 52). }
  rewrite E.
  assert (Ed : 2 ^ ilog2 q * (1 # 4503599627370496) / 2
               == (1 # 9007199254740992) * 2 ^ ilog2 q) by field.
  rewrite Ed. apply Qmult_le_l; [done|exact G1].
Qed.

(** The result stays in the binade of its argument, ends included. *)
Lemma round_pos_binade (q : Q) :
  0 < q →
  2 ^ ilog2 q <= round_pos q ∧ round_pos q <= 2 ^ (ilog2 q + 1).
Proof.
  intros Hq. destruct (mantissa_range q Hq) as [M1 M2].
  unfold round_pos. cbv zeta.
  pose proof (two_pow_pos (ilog2 q - 52)) as HP.
  assert (E1 : 2 ^ ilog2 q == 2 ^ 52 * 2 ^ (ilog2 q - 52)).
  { rewrite <- Qpower_plus by done. by replace (52 + (ilog2 q - 52))%Z
      with (ilog2 q) by lia. }
  assert (E2 : 2 ^ (ilog2 q + 1) == 2 ^ 53 * 2 ^ (ilog2 q - 52)).
  { rewrite <- Qpower_plus by done. by replace (53 + (ilog2 q - 52))%Z
      with (ilog2 q + 1)%Z by lia. }
  rewrite E1, E2. split; apply Qmult_le_compat_r; try lra.
  - rewrite <- (two_pow_Z 52) by done. by rewrite <- Zle_Qle.
  - rewrite <- (two_pow_Z 53) by done. by rewrite <- Zle_Qle.
Qed.

Lemma round_pos_pos (q : Q) : 0 < q → 0 < round_pos q.
Proof.
  intros Hq. destruct (round_pos_binade q Hq) as [B _].
  pose proof (two_pow_pos (ilog2 q)). lra.
Qed.

Lemma round_pos_eq (q q' : Q) : 0 < q → q == q' → round_pos q == round_pos q'.
Proof.
  intros Hq E. unfold round_pos. cbv zeta.
  rewrite <- (ilog2_eq q q' Hq E).
  assert (Es : q / 2 ^ (ilog2 q - 52) == q' / 2 ^ (ilog2 q - 52))
    by (apply Qdiv_comp; [exact E|reflexivity]).
  by rewrite (round_half_even_eq _ _ Es).
Qed.

Lemma round_pos_half (q : Q) : 0 < q → round_pos (q / 2) == round_pos q / 2.
Proof.
  intros Hq. unfold round_pos. cbv zeta. rewrite (ilog2_half q Hq).
  pose proof (two_pow_pos (ilog2 q - 52)) as HP.
  assert (Ee : 2 ^ (ilog2 q - 1 - 52) == 2 ^ (ilog2 q - 52) / 2).
  { replace (ilog2 q - 1 - 52)%Z with (ilog2 q - 52 - 1)%Z by lia.
    apply two_pow_pred. }
  assert (Es : q / 2 / 2 ^ (ilog2 q - 1 - 52) == q / 2 ^ (ilog2 q - 52)).
  { rewrite Ee. field. lra. }
  rewrite (round_half_even_eq _ _ Es), Ee. field.
Qed.

(** A number with a 53-bit mantissa is left as it is. *)
Lemma round_pos_exact (n e : Z) :
  (2 ^ 52 <= n <= 2 ^ 53)%Z →
  round_pos (inject_Z n * 2 ^ e) == inject_Z n * 2 ^ e.
Proof.
  intros [N1 N2].
  pose proof (two_pow_pos e) as HP.
  assert (Q1 : 2 ^ 52 <= inject_Z n).
  { rewrite <- (two_pow_Z 52) by done. by rewrite <- Zle_Qle. }
  assert (Q2 : inject_Z n <= 2 ^ 53).
  { rewrite <- (two_pow_Z 53) by done. by rewrite <- Zle_Qle. }
  destruct (Z.eq_dec n (2 ^ 53)%Z) as [->|Hne].
  - assert (E : inject_Z (2 ^ 53) * 2 ^ e == 2 ^ (53 + e)).
    { rewrite two_pow_Z by done. by rewrite Qpower_plus. }
    assert (Hpos : 0 < inject_Z (2 ^ 53) * 2 ^ e)
      by (rewrite E; apply two_pow_pos).
    rewrite (round_pos_eq _ _ Hpos E), E.
    unfold round_pos. cbv zeta. rewrite ilog2_two_pow.
    assert (Es : 2 ^ (53 + e) / 2 ^ (53 + e - 52) == inject_Z (2 ^ 52)).
    { rewrite <- Qpower_minus by done.
      replace (53 + e - (53 + e - 52))%Z with 52%Z by lia.
      by rewrite two_pow_Z. }
    rewrite (round_half_even_eq _ _ Es), round_half_even_Z.
    rewrite two_pow_Z by done. rewrite <- Qpower_plus by done.
    by replace (52 + (53 + e - 52))%Z with (53 + e)%Z by lia.
  - assert (N3 : (n < 2 ^ 53)%Z) by lia.
    assert (Q3 : inject_Z n < 2 ^ 53).
    { rewrite <- (two_pow_Z 53) by done. by rewrite <- Zlt_Qlt. }
    assert (Hi : ilog2 (inject_Z n * 2 ^ e) = (52 + e)%Z).
    { apply ilog2_unique.
      - rewrite Qpower_plus by done. apply Qmult_le_compat_r; lra.
      - replace (52 + e + 1)%Z with (53 + e)%Z by lia.
        rewrite Qpower_plus by done. apply Qmult_lt_compat_r; lra. }
    unfold round_pos. cbv zeta. rewrite Hi.
    replace (52 + e - 52)%Z with e by lia.
    assert (Es : inject_Z n * 2 ^ e / 2 ^ e == inject_Z n) by (field; lra).
    by rewrite (round_half_even_eq _ _ Es), round_half_even_Z.
Qed.

Lemma round_pos_idem (q : Q) : 0 < q → round_pos (round_pos q) == round_pos q.
Proof.
  intros Hq. unfold round_pos at 2 3. cbv zeta.
  apply round_pos_exact. by apply mantissa_range.
Qed.

Lemma round_pos_mono (q q' : Q) :
  0 < q → q <= q' → round_pos q <= round_pos q'.
Proof.
  intros Hq Hle. assert (Hq' : 0 < q') by lra.
  pose proof (ilog2_mono q q' Hq Hle) as Hi.
  destruct (Z.eq_dec (ilog2 q) (ilog2 q')) as [E|N].
  - unfold round_pos. cbv zeta. rewrite E.
    pose proof (two_pow_pos (ilog2 q' - 52)) as HP.
    apply Qmult_le_compat_r; [|lra].
    rewrite <- Zle_Qle. apply round_half_even_mono.
    apply Qmult_le_compat_r; [done|].
    apply Qlt_le_weak, Qinv_lt_0_compat, HP.
  - destruct (round_pos_binade q Hq) as [_ B1].
    destruct (round_pos_binade q' Hq') as [B2 _].
    assert (2 ^ (ilog2 q + 1) <= 2 ^ ilog2 q') by (apply two_pow_le; lia).
    lra.
Qed.
Lemma round64_pos (q : Q) : 0 < q → round64 q = round_pos q.
Proof.
  intros Hq. unfold round64.
  destruct (Qcompare_spec q 0) as [E|L|G]; [lra|lra|done].
Qed.

Lemma round64_neg (q : Q) : q < 0 → round64 q = - round_pos (- q).
Proof.
  intros Hq. unfold round64.
  destruct (Qcompare_spec q 0) as [E|L|G]; [lra|done|lra].
Qed.

Lemma round64_zero (q : Q) : q == 0 → round64 q = 0.
Proof.
  intros Hq. unfold round64.
  destruct (Qcompare_spec q 0) as [E|L|G]; [done|lra|lra].
Qed.

Lemma Q_sign (q : Q) : q < 0 ∨ q == 0 ∨ 0 < q.
Proof.
  destruct (Qcompare_spec q 0) as [E|L|G]; [right; by left|by left|right; by right].
Qed.

Lemma round64_sign (q : Q) :
  (q < 0 → round64 q < 0) ∧ (q == 0 → round64 q == 0) ∧ (0 < q → 0 < round64 q).
Proof.
  split_and!; intros Hq.
  - rewrite round64_neg by done.
    pose proof (round_pos_pos (- q)) as H. lra.
  - by rewrite round64_zero.
  - rewrite round64_pos by done. by apply round_pos_pos.
Qed.

Lemma round64_eq (x y : Q) : x == y → round64 x == round64 y.
Proof.
  intros E. destruct (Q_sign x) as [Hx|[Hx|Hx]].
  - rewrite !round64_neg by lra.
    assert (E' : - x == - y) by lra.
    assert (Hp : 0 < - x) by lra.
    by rewrite (round_pos_eq _ _ Hp E').
  - rewrite !round64_zero by lra. done.
  - rewrite !round64_pos by lra. by apply round_pos_eq.
Qed.

Lemma round64_close (x : Q) :
  Qabs (round64 x - x) <= unit_roundoff * Qabs x.
Proof.
  unfold unit_roundoff. destruct (Q_sign x) as [Hx|[Hx|Hx]].
  - rewrite round64_neg by done.
    assert (Hp : 0 < - x) by lra.
    destruct (round_pos_close (- x) Hp) as [C1 C2].
    pose proof (ulp_small (- x) Hp) as U.
    rewrite (Qabs_neg x) by lra.
    apply Qabs_Qle_condition. split; lra.
  - rewrite round64_zero by done.
    assert (E : 0 - x == 0) by lra. rewrite E, Hx. by vm_compute.
  - rewrite round64_pos by done.
    destruct (round_pos_close x Hx) as [C1 C2].
    pose proof (ulp_small x Hx) as U.
    rewrite (Qabs_pos x) by lra.
    apply Qabs_Qle_condition. split; lra.
Qed.

Lemma round64_mono (x y : Q) : x <= y → round64 x <= round64 y.
Proof.
  intros Hle.
  destruct (round64_sign x) as (Sx1 & Sx2 & Sx3).
  destruct (round64_sign y) as (Sy1 & Sy2 & Sy3).
  destruct (Q_sign x) as [Hx|[Hx|Hx]]; destruct (Q_sign y) as [Hy|[Hy|Hy]];
    try (exfalso; lra);
    try (specialize (Sx1 Hx)); try (specialize (Sx2 Hx));
    try (specialize (Sx3 Hx)); try (specialize (Sy1 Hy));
    try (specialize (Sy2 Hy)); try (specialize (Sy3 Hy)); try lra.
  - rewrite !round64_neg by done.
    assert (H : round_pos (- y) <= round_pos (- x))
      by (apply round_pos_mono; lra).
    lra.
  - rewrite !round64_pos by done. by apply round_pos_mono.
Qed.

Lemma round64_idem (x : Q) : round64 (round64 x) == round64 x.
Proof.
  destruct (Q_sign x) as [Hx|[Hx|Hx]].
  - assert (Hp : 0 < - x) by lra.
    pose proof (round_pos_pos (- x) Hp) as Hr.
    rewrite (round64_neg x) by done.
    rewrite round64_neg by lra.
    assert (E : - - round_pos (- x) == round_pos (- x)) by ring.
    assert (Hpp : 0 < - - round_pos (- x)) by lra.
    rewrite (round_pos_eq _ _ Hpp E).
    by rewrite round_pos_idem.
  - rewrite (round64_zero x) by done. by rewrite round64_zero.
  - pose proof (round_pos_pos x Hx) as Hr.
    rewrite (round64_pos x) by done. rewrite round64_pos by done.
    by apply round_pos_idem.
Qed.

Lemma round64_half (x : Q) : round64 (x / 2) == round64 x / 2.
Proof.
  destruct (Q_sign x) as [Hx|[Hx|Hx]].
  - assert (Hp : 0 < - x) by lra.
    rewrite (round64_neg x) by done.
    rewrite round64_neg by q_arith.
    assert (E : - (x / 2) == - x / 2) by field.
    assert (Hpp : 0 < - (x / 2)) by q_arith.
    rewrite (round_pos_eq _ _ Hpp E).
    rewrite round_pos_half by done. field.
  - rewrite (round64_zero x) by done. rewrite round64_zero by q_arith.
    by vm_compute.
  - rewrite (round64_pos x) by done. rewrite round64_pos by q_arith.
    by apply round_pos_half.
Qed.

(** The rounding of binary64 meets the laws. *)
Lemma round64_laws : RoundingLaws round64 unit_roundoff.
Proof.
  split.
  - by vm_compute.
  - exact round64_eq.
  - exact round64_close.
  - exact round64_mono.
  - exact round64_idem.
  - exact round64_half.
Qed.

(** ** One pass of the loop *)

Section rounded_search.
Context `{FloatArith}.

(** One pass of the loop body: the trial at the middle of the bounds,
    and what the pass leaves behind. *)
Lemma rounded_step_cases (trial : Q → M analysis) (T : Q) (k1 k2 : string)
    (st : search_state) (log : list sim_call) :
  let t := Rounded.midpoint (t_max st) (t_min st) in
  match Rounded.search_step trial T k1 k2 st log with
  | (Raised e, log') => trial t log = (Raised e, log') ∧ is_NameError e = false
  | (Ok (st', stop), log') =>
      t_found st' = Some t
      ∧ iterations st' = S (iterations st)
      ∧ stop = negb (Qltb T (Qabs (rnd (t - Rounded.midpoint (t_max st')
                                                (t_min st')))))
      ∧ ∃ r, trial t log = (r, log')
             ∧ match r with
               | Raised e => is_NameError e = true
               | Ok _ => True
               end
             ∧ let p := {| tried := t; measured := outcome r;
                           min_after := t_min st'; max_after := t_max st' |} in
               let stored := lookup_result (harness_now st) k1 k2 in
               lookup_result (harness_now st') k1 k2 = slot_after stored p
               ∧ same_but_slot k1 k2 (harness_now st) (harness_now st')
               ∧ (if match outcome r with
                     | None => true
                     | Some a => Qltb (prev_t_prop st) (prop_in_out a)
                     end
                  then t_min st' = t ∧ t_max st' = t_max st
                  else t_min st' = t_min st ∧ t_max st' = t)
               ∧ (stop = false →
                  prev_t_prop st' = prev_after (prev_t_prop st) stored p)
  end.
Proof.
  intros t. unfold Rounded.search_step, try_trial, mbind, M_bind. fold t.
  destruct (trial t log) as [[a|e] log'].
  - rewrite lookup_store_result. unfold mret, M_ret.
    destruct (Qltb (prev_t_prop st) (prop_in_out a)) eqn:Ew;
      match goal with |- context [negb ?b] => destruct b eqn:E end;
      cbn [negb t_min t_max t_found iterations harness_now prev_t_prop];
      rewrite ?E; (split_and!; [done|done|done|]); exists (Ok a);
      (split_and!; [done|done|..]); cbn [outcome]; rewrite ?Ew;
      unfold prev_after, slot_after; cbn [measured];
      rewrite ?lookup_store_result;
      try done; try apply same_but_slot_store.
  - destruct (is_NameError e) eqn:En; [|by auto].
    unfold mret, M_ret.
    match goal with |- context [negb ?b] => destruct b eqn:E end;
      cbn [negb t_min t_max t_found iterations harness_now prev_t_prop];
      rewrite ?E; (split_and!; [done|done|done|]); exists (Raised e);
      (split_and!; [done|done|..]); cbn [outcome];
      unfold prev_after, slot_after; cbn [measured];
      try done; try apply same_but_slot_refl.
Qed.

End rounded_search.

(** ** Rounding and the width of the bracket *)

Lemma Qabs_bound (x y : Q) : Qabs x <= y ↔ - y <= x ∧ x <= y.
Proof. apply Qabs_Qle_condition. Qed.

Lemma Qabs_self_bound (x : Q) : - Qabs x <= x ∧ x <= Qabs x.
Proof. apply Qabs_bound. lra. Qed.

Lemma Qmult_le_nonneg (a b c : Q) : 0 <= a → b <= c → a * b <= a * c.
Proof.
  intros Ha Hbc. rewrite (Qmult_comm a b), (Qmult_comm a c).
  by apply Qmult_le_compat_r.
Qed.

Section rounding.
Context `{FloatArith} (eps : Q) (laws : RoundingLaws rnd eps).

Lemma eps_nonneg : 0 <= eps.
Proof. apply (eps_small _ _ laws). Qed.

Lemma eps_le : eps <= 1 # 1024.
Proof. apply (eps_small _ _ laws). Qed.

Lemma rnd_bounds (x : Q) :
  x - eps * Qabs x <= rnd x ∧ rnd x <= x + eps * Qabs x.
Proof.
  pose proof (rnd_close _ _ laws x) as Hc. apply Qabs_bound in Hc. lra.
Qed.

Lemma rnd_zero : rnd 0 == 0.
Proof.
  pose proof (rnd_bounds 0) as Hb. change (Qabs 0) with 0 in Hb. lra.
Qed.

Lemma rnd_nonneg (x : Q) : 0 <= x → 0 <= rnd x.
Proof.
  intros Hx. rewrite <- rnd_zero. by apply (rnd_mono _ _ laws).
Qed.

Lemma rnd_nonpos (x : Q) : x <= 0 → rnd x <= 0.
Proof.
  intros Hx. rewrite <- rnd_zero. by apply (rnd_mono _ _ laws).
Qed.

Lemma rnd_abs_le (x : Q) : Qabs (rnd x) <= (1 + eps) * Qabs x.
Proof.
  pose proof (rnd_bounds x) as Hb. pose proof (Qabs_self_bound x) as Hx.
  pose proof eps_nonneg as He.
  assert (0 <= eps * Qabs x) by (apply Qmult_le_0_compat; [done|apply Qabs_nonneg]).
  apply Qabs_bound. lra.
Qed.

(** A number left unchanged by the rounding can be doubled exactly. *)
Lemma rnd_double (x : Q) : rnd x == x → rnd (x + x) == x + x.
Proof.
  intros Hx. pose proof (rnd_half _ _ laws (x + x)) as Hh.
  assert (E : (x + x) / 2 == x) by field.
  rewrite (rnd_eq _ _ laws _ _ E), Hx in Hh. q_arith.
Qed.

Lemma midpoint_half (a b : Q) : Rounded.midpoint b a == rnd (b + a) / 2.
Proof.
  unfold Rounded.midpoint.
  rewrite (rnd_half _ _ laws), (rnd_idem _ _ laws). reflexivity.
Qed.

Lemma midpoint_fixed (a b : Q) :
  rnd (Rounded.midpoint b a) == Rounded.midpoint b a.
Proof. apply (rnd_idem _ _ laws). Qed.

(** The midpoint of a bracket of floats lies in the bracket ... *)
Lemma midpoint_between (a b : Q) :
  rnd a == a → rnd b == b → a <= b →
  a <= Rounded.midpoint b a ∧ Rounded.midpoint b a <= b.
Proof.
  intros Ha Hb Hab. rewrite midpoint_half.
  pose proof (rnd_mono _ _ laws (a + a) (b + a) ltac:(lra)) as H1.
  pose proof (rnd_mono _ _ laws (b + a) (b + b) ltac:(lra)) as H2.
  rewrite (rnd_double a Ha) in H1. rewrite (rnd_double b Hb) in H2.
  split; q_arith.
Qed.

(** ... within [eps * m] of the exact middle, for a bound [m] on the
    magnitude of its ends. *)
Lemma midpoint_close (a b m : Q) :
  Qabs a <= m → Qabs b <= m →
  Qabs (Rounded.midpoint b a - (b + a) / 2) <= eps * m.
Proof.
  intros Ha Hb. rewrite midpoint_half.
  pose proof (rnd_bounds (b + a)) as Hr.
  pose proof eps_nonneg as He.
  assert (Hs : Qabs (b + a) <= 2 * m).
  { eapply Qle_trans; [apply Qabs_triangle|]. lra. }
  pose proof (Qmult_le_nonneg eps _ _ He Hs) as Hm.
  apply Qabs_bound. q_arith.
Qed.

End rounding.

(** ** Termination *)

Section rounded_termination.
Context `{FloatArith} (eps : Q) (laws : RoundingLaws rnd eps).
Variables (lo hi m tau T : Q).
Hypothesis lo_bound : - m <= lo.
Hypothesis hi_bound : hi <= m.
Hypothesis tau_bound : (1 + eps) * (tau + 2 * (eps * m)) <= T.

(** One pass on a bracket of floats [a <= b] within [lo, hi]: the
    bracket left is again one of floats in order, its width is at most
    half the width before and one rounding error, and the computed
    distance between the time tried and the next one is at most a
    quarter of the width before, up to rounding errors. *)
Lemma pass_narrows (a b a' b' : Q) :
  let t := Rounded.midpoint b a in
  rnd a == a → rnd b == b → lo <= a → a <= b → b <= hi →
  (a' = t ∧ b' = b) ∨ (a' = a ∧ b' = t) →
  (a <= t ∧ t <= b)
  ∧ (rnd a' == a' ∧ rnd b' == b' ∧ a <= a' ∧ a' <= b' ∧ b' <= b)
  ∧ b' - a' <= (b - a) / 2 + eps * m
  ∧ Qabs (rnd (t - Rounded.midpoint b' a'))
    <= (1 + eps) * ((b - a) / 4 + 3 * (eps * m) / 2).
Proof.
  intros t Ha Hb Hlo Hab Hhi Hmove.
  pose proof (midpoint_between eps laws a b Ha Hb Hab) as [Ht1 Ht2].
  fold t in Ht1, Ht2.
  pose proof (midpoint_fixed eps laws a b) as Ht. fold t in Ht.
  assert (Hma : Qabs a <= m) by (apply Qabs_bound; lra).
  assert (Hmb : Qabs b <= m) by (apply Qabs_bound; lra).
  assert (Hmt : Qabs t <= m) by (apply Qabs_bound; lra).
  pose proof (midpoint_close eps laws a b m Hma Hmb) as Hc.
  fold t in Hc. apply Qabs_bound in Hc.
  pose proof (eps_nonneg eps laws) as He.
  split; [done|].
  assert (Hnew : rnd a' == a' ∧ rnd b' == b' ∧ a <= a' ∧ a' <= b' ∧ b' <= b
                 ∧ Qabs a' <= m ∧ Qabs b' <= m
                 ∧ b' - a' <= (b - a) / 2 + eps * m
                 ∧ - ((b - a) / 4 + (eps * m) / 2) <= t - (b' + a') / 2
                 ∧ t - (b' + a') / 2 <= (b - a) / 4 + (eps * m) / 2).
  { destruct Hmove as [[-> ->]|[-> ->]]; split_and!; try done; q_arith. }
  destruct Hnew as (F1 & F2 & F3 & F4 & F5 & F6 & F7 & F8 & F9 & F10).
  split; [done|]. split; [done|].
  eapply Qle_trans; [apply (rnd_abs_le eps laws)|].
  apply Qmult_le_nonneg; [lra|].
  pose proof (midpoint_close eps laws a' b' m F6 F7) as Hc'.
  apply Qabs_bound in Hc'. apply Qabs_bound. q_arith.
Qed.

(** The loop on floats ends within [n + 1] passes once the width of
    the bracket, less two rounding errors, is at most [4 * 2^n * tau]. *)
Lemma rounded_loop_terminates (trial : Q → M analysis) (k1 k2 : string) (n : nat) :
  ∀ fuel st log,
    rnd (t_min st) == t_min st → rnd (t_max st) == t_max st →
    lo <= t_min st → t_min st <= t_max st → t_max st <= hi →
    t_max st - t_min st - 2 * (eps * m) <= 4 * pow2 n * tau →
    (n < fuel)%nat →
    match Rounded.search_loop fuel trial T k1 k2 st log with
    | (Ok None, _) => False
    | (Ok (Some st'), _) =>
        (iterations st < iterations st')%nat
        ∧ (iterations st' <= iterations st + S n)%nat
        ∧ ∃ t, t_found st' = Some t ∧ t_min st <= t ∧ t <= t_max st
    | (Raised e, _) => is_NameError e = false
    end.
Proof.
  induction n as [|n IH]; intros fuel st log Ha Hb Hlo Hab Hhi Hw Hfuel;
    (destruct fuel as [|fuel]; [lia|]); cbn [Rounded.search_loop];
    (assert (Hle : Qle_bool (t_min st) (t_max st) = true)
       by (by apply Qle_bool_iff)); rewrite Hle;
    unfold mbind at 1; unfold M_bind;
    pose proof (rounded_step_cases trial T k1 k2 st log) as Hstep;
    cbv zeta in Hstep;
    destruct (Rounded.search_step trial T k1 k2 st log)
      as [[[st' stop]|e] log']; try (by destruct Hstep);
    destruct Hstep as (Hf & Hit & Hstop & r & _ & _ & _ & _ & Hmove & _);
    (assert (Hmove' : (t_min st' = Rounded.midpoint (t_max st) (t_min st)
                       ∧ t_max st' = t_max st)
                      ∨ (t_min st' = t_min st
                         ∧ t_max st' = Rounded.midpoint (t_max st) (t_min st)))
       by (destruct (match outcome r with
                     | Some a => Qltb (prev_t_prop st) (prop_in_out a)
                     | None => true
                     end); [by left|by right]));
    pose proof (pass_narrows (t_min st) (t_max st) (t_min st') (t_max st')
                  Ha Hb Hlo Hab Hhi Hmove')
      as ((Ht1 & Ht2) & (N1 & N2 & N3 & N4 & N5) & Hw' & Hgap);
    (destruct stop;
      [unfold mret, M_ret; rewrite Hit; split_and!; try lia;
       eexists; split; [exact Hf|]; by split|]).
  - exfalso. symmetry in Hstop. apply negb_false_iff, Qltb_lt in Hstop.
    unfold pow2 in Hw. change (inject_Z (2 ^ Z.of_nat 0)) with 1 in Hw.
    pose proof (eps_nonneg eps laws) as He.
    assert (Hx : (1 + eps) * ((t_max st - t_min st) / 4 + 3 * (eps * m) / 2)
                 <= (1 + eps) * (tau + 2 * (eps * m))).
    { apply Qmult_le_nonneg; [lra|]. q_arith. }
    lra.
  - rewrite pow2_S in Hw.
    assert (Hw2 : t_max st' - t_min st' - 2 * (eps * m) <= 4 * pow2 n * tau)
      by q_arith.
    specialize (IH fuel st' log' N1 N2 ltac:(lra) N4 ltac:(lra) Hw2 ltac:(lia)).
    destruct (Rounded.search_loop fuel trial T k1 k2 st' log')
      as [[[st''|]|e] log'']; try done.
    rewrite Hit in IH. destruct IH as (I1 & I2 & t & I3 & I4 & I5).
    split_and!; try lia. exists t. split; [done|]. split; lra.
Qed.

End rounded_termination.

Section rounded_bounds.
Context `{FloatArith} (eps : Q) (laws : RoundingLaws rnd eps).

(** [(x op y) * units], computed with two roundings, is within three
    roundoff units of the exact product. *)
Lemma rnd_scaled (x u : Q) :
  0 < u →
  Qabs (rnd (rnd x * u) - x * u) <= 3 * (eps * (Qabs x * u)).
Proof.
  intros Hu.
  destruct (eps_small _ _ laws) as [He0 He1].
  pose proof (rnd_bounds eps laws x) as [B1 B2].
  pose proof (Qabs_self_bound x) as [X1 X2].
  set (p := Qabs x * u).
  assert (Hp : 0 <= p).
  { apply Qmult_le_0_compat; [apply Qabs_nonneg|lra]. }
  assert (Hep : 0 <= eps * p) by (by apply Qmult_le_0_compat).
  assert (L1 : x * u - eps * p <= rnd x * u).
  { assert (E : x * u - eps * p == (x - eps * Qabs x) * u)
      by (unfold p; ring).
    rewrite E. apply Qmult_le_compat_r; lra. }
  assert (L2 : rnd x * u <= x * u + eps * p).
  { assert (E : x * u + eps * p == (x + eps * Qabs x) * u)
      by (unfold p; ring).
    rewrite E. apply Qmult_le_compat_r; lra. }
  assert (L3 : - p <= x * u).
  { assert (E : - p == (- Qabs x) * u) by (unfold p; ring).
    rewrite E. apply Qmult_le_compat_r; lra. }
  assert (L4 : x * u <= p) by (apply Qmult_le_compat_r; lra).
  assert (L5 : Qabs (rnd x * u) <= p + eps * p) by (apply Qabs_bound; lra).
  pose proof (rnd_bounds eps laws (rnd x * u)) as [B3 B4].
  pose proof (Qmult_le_nonneg eps _ _ He0 L5) as L6.
  assert (L7 : eps * (eps * p) <= eps * p).
  { rewrite <- (Qmult_1_l (eps * p)) at 2.
    apply Qmult_le_compat_r; lra. }
  assert (E : eps * (p + eps * p) == eps * p + eps * (eps * p)) by ring.
  rewrite E in L6. apply Qabs_bound. lra.
Qed.

(** The state before the loop, for bounds in order, a positive
    timestep that the rounding resolves and a positive time unit: the
    bracket is one of floats in order, and it is narrow enough for the
    loop to end within [max 1 (iteration_bound ..) + 1] passes. *)
Lemma rounded_initial_width (highest lowest timestep units : Q) (h : Harness) :
  lowest < highest → 0 < timestep → 0 < units →
  timestep_resolved eps highest lowest timestep →
  let st := Rounded.initial_state highest lowest timestep units h in
  let T := rnd (timestep * units) in
  let m := 2 * ((Qabs (highest + timestep) + Qabs (lowest - timestep)) * units) in
  let tau := (1 - eps) * T - 2 * (eps * m) in
  let n := Nat.max 1 (iteration_bound highest lowest timestep) in
  (rnd (t_min st) == t_min st ∧ rnd (t_max st) == t_max st)
  ∧ t_min st <= t_max st
  ∧ (- m <= t_min st ∧ t_max st <= m)
  ∧ (1 + eps) * (tau + 2 * (eps * m)) <= T
  ∧ t_max st - t_min st - 2 * (eps * m) <= 4 * pow2 n * tau.
Proof.
  intros Hlh Hts Hu Hres st T m tau n.
  destruct (eps_small _ _ laws) as [He0 He1].
  cbn [st Rounded.initial_state t_min t_max].
  set (X := highest + timestep) in *. set (Y := lowest - timestep) in *.
  set (px := Qabs X * units). set (py := Qabs Y * units).
  assert (Hpx : 0 <= px).
  { apply Qmult_le_0_compat; [apply Qabs_nonneg|lra]. }
  assert (Hpy : 0 <= py).
  { apply Qmult_le_0_compat; [apply Qabs_nonneg|lra]. }
  assert (Em : m == 2 * (px + py)) by (unfold m, px, py; ring).
  pose proof (rnd_scaled X units Hu) as HX. fold px in HX.
  pose proof (rnd_scaled Y units Hu) as HY. fold py in HY.
  apply Qabs_bound in HX, HY.
  assert (Hepx : 0 <= eps * px ∧ eps * px <= (1 # 1024) * px).
  { split; [by apply Qmult_le_0_compat|]. apply Qmult_le_compat_r; lra. }
  assert (Hepy : 0 <= eps * py ∧ eps * py <= (1 # 1024) * py).
  { split; [by apply Qmult_le_0_compat|]. apply Qmult_le_compat_r; lra. }
  assert (Eem : eps * m == 2 * (eps * px) + 2 * (eps * py))
    by (rewrite Em; ring).
  pose proof (Qabs_self_bound X) as [X1 X2].
  pose proof (Qabs_self_bound Y) as [Y1 Y2].
  assert (HXu : - px <= X * units ∧ X * units <= px).
  { split; [|apply Qmult_le_compat_r; lra].
    assert (E : - px == (- Qabs X) * units) by (unfold px; ring).
    rewrite E. apply Qmult_le_compat_r; lra. }
  assert (HYu : - py <= Y * units ∧ Y * units <= py).
  { split; [|apply Qmult_le_compat_r; lra].
    assert (E : - py == (- Qabs Y) * units) by (unfold py; ring).
    rewrite E. apply Qmult_le_compat_r; lra. }
  (* the threshold *)
  set (tsu := timestep * units).
  assert (Htsu : 0 < tsu).
  { unfold tsu. rewrite <- (Qmult_0_l units). apply Qmult_lt_compat_r; lra. }
  assert (HT : tsu - eps * tsu <= T ∧ 0 <= T).
  { pose proof (rnd_bounds eps laws tsu) as [B1 _].
    rewrite (Qabs_pos tsu) in B1 by lra.
    split; [exact B1|]. apply (rnd_nonneg eps laws).
    exact (Qlt_le_weak _ _ Htsu). }
  destruct HT as [HT1 HT2].
  assert (HeT : 0 <= eps * T ∧ eps * T <= (1 # 1024) * T).
  { split; [by apply Qmult_le_0_compat|]. apply Qmult_le_compat_r; lra. }
  assert (Hetsu : eps * tsu <= (1 # 1024) * tsu).
  { apply Qmult_le_compat_r; lra. }
  assert (Hres' : 32 * (eps * px) + 32 * (eps * py) <= tsu).
  { unfold timestep_resolved in Hres. fold X Y in Hres.
    assert (E : 32 * (eps * px) + 32 * (eps * py)
                == 32 * eps * (Qabs X + Qabs Y) * units)
      by (unfold px, py; ring).
    rewrite E. by apply Qmult_le_compat_r; [|lra]. }
  assert (Etau : tau == T - eps * T - 2 * (eps * m)) by (unfold tau; ring).
  split_and!.
  - apply (rnd_idem _ _ laws).
  - apply (rnd_idem _ _ laws).
  - apply (rnd_mono _ _ laws). apply Qmult_le_compat_r; [|lra].
    apply (rnd_mono _ _ laws). unfold X, Y. lra.
  - lra.
  - lra.
  - assert (E : (1 + eps) * (tau + 2 * (eps * m)) == T - eps * (eps * T))
      by (unfold tau; ring).
    rewrite E.
    assert (0 <= eps * (eps * T)) by (apply Qmult_le_0_compat; lra).
    lra.
  - pose proof (initial_width highest lowest timestep units Hlh Hts Hu) as Hw.
    cbv zeta in Hw. fold n X Y tsu in Hw.
    assert (Hn : pow2 n == 2 * pow2 (Nat.pred n)).
    { rewrite <- pow2_S. replace (S (Nat.pred n)) with n by (unfold n; lia).
      reflexivity. }
    pose proof (pow2_pos (Nat.pred n)) as Hp.
    assert (Htau : tsu / 2 <= tau) by q_arith.
    assert (Hmul : 4 * pow2 n * (tsu / 2) <= 4 * pow2 n * tau).
    { apply Qmult_le_nonneg; [lra|done]. }
    assert (E : 4 * pow2 n * (tsu / 2) == 4 * pow2 (Nat.pred n) * tsu)
      by (rewrite Hn; field).
    rewrite E in Hmul. lra.
Qed.

(** The search on floats ends within one pass more than
    [max 1 (iteration_bound ..)], on a time between the two bounds as
    computed. *)
Lemma rounded_binary_search_bounded (fuel : nat) (trial : Q → M analysis)
    (highest lowest timestep units : Q) (k1 k2 : string) (h : Harness)
    (log : list sim_call) :
  lowest < highest → 0 < timestep → 0 < units →
  timestep_resolved eps highest lowest timestep →
  (S (Nat.max 1 (iteration_bound highest lowest timestep)) <= fuel)%nat →
  ends_within (S (Nat.max 1 (iteration_bound highest lowest timestep)))
    (t_min (Rounded.initial_state highest lowest timestep units h))
    (t_max (Rounded.initial_state highest lowest timestep units h))
    (Rounded.binary_search fuel trial highest lowest timestep units k1 k2 h log).
Proof.
  intros Hlh Hts Hu Hres Hfuel.
  pose proof (rounded_initial_width highest lowest timestep units h
                Hlh Hts Hu Hres) as Hinit.
  cbv zeta in Hinit.
  destruct Hinit as ((F1 & F2) & F3 & (F4 & F5) & F6 & F7).
  set (N := Nat.max 1 (iteration_bound highest lowest timestep)) in *.
  set (st := Rounded.initial_state highest lowest timestep units h) in *.
  pose proof (rounded_loop_terminates eps laws (t_min st) (t_max st) _ _ _
                F4 F5 F6 trial k1 k2 N fuel st log F1 F2
                ltac:(lra) F3 ltac:(lra) F7 ltac:(lia)) as Hloop.
  unfold ends_within, Rounded.binary_search, mbind, M_bind. fold st.
  destruct (Rounded.search_loop fuel trial (rnd (timestep * units)) k1 k2 st log)
    as [[[st'|]|e] log']; try done.
  destruct Hloop as (I1 & I2 & t & I3 & I4 & I5).
  rewrite I3. unfold mret, M_ret. cbn [trials found].
  change (iterations st) with 0%nat in *.
  split_and!; try lia; done.
Qed.

End rounded_bounds.

(** ** The passes of a search *)

Section rounded_trace.
Context `{FloatArith} (eps : Q) (laws : RoundingLaws rnd eps).






End rounded_trace.

(** ** The searches end *)

(** Python's arithmetic obeys the laws, with the unit roundoff 2^-53. *)
Lemma binary64_laws : RoundingLaws (@rnd binary64) unit_roundoff.
Proof.
  pose proof round64_laws as L. split; cbn [rnd binary64].
  - apply (eps_small _ _ L).
  - intros x y E. rewrite !Qred_correct. by apply (rnd_eq _ _ L).
  - intros x. rewrite Qred_correct. apply (rnd_close _ _ L).
  - intros x y E. rewrite !Qred_correct. by apply (rnd_mono _ _ L).
  - intros x.
    rewrite (Qred_correct (round64 (Qred (round64 x)))).
    rewrite (rnd_eq _ _ L _ _ (Qred_correct (round64 x))).
    rewrite (Qred_correct (round64 x)). apply (rnd_idem _ _ L).
  - intros x. rewrite !Qred_correct. apply (rnd_half _ _ L).
Qed.

(** C1, as the code has it on floats.  With highest above lowest, a
    positive timestep that the rounding resolves and a positive time
    unit, the setup search and the hold search each end within
    max(1, ceil(log2((highest - lowest) / timestep))) + 1 iterations:
    that much fuel is enough, and no more iterations are made.  The
    time returned lies between the two bounds as the code computes
    them, [(lowest - timestep) * units] and [(highest + timestep) *
    units] with each operation rounded, and each computed bound is
    within three roundoff units of the exact one.  A search ends early
    only by a hard error of a trial.  The hypotheses on the magnitudes
    keep the numbers where binary64 neither overflows nor underflows;
    the rounding laws are those of [binary64]. *)
Theorem binary_search_on_floats_terminates `{FloatArith} `{Simulator} `{PyFormat}
    (eps : Q) (fuel : nat) (settings : LibrarySettings)
    (tm : SequentialTestManager) (harness : Harness)
    (slew load t_setup t_hold : Q) (log : list sim_call) :
  RoundingLaws rnd eps →
  0 < units_time settings →
  _sim_setup_lowest tm < _sim_setup_highest tm → 0 < _sim_setup_timestep tm →
  timestep_resolved eps (_sim_setup_highest tm) (_sim_setup_lowest tm)
    (_sim_setup_timestep tm) →
  plain_magnitudes (_sim_setup_highest tm) (_sim_setup_lowest tm)
    (_sim_setup_timestep tm) (units_time settings) →
  _sim_hold_lowest tm < _sim_hold_highest tm → 0 < _sim_hold_timestep tm →
  timestep_resolved eps (_sim_hold_highest tm) (_sim_hold_lowest tm)
    (_sim_hold_timestep tm) →
  plain_magnitudes (_sim_hold_highest tm) (_sim_hold_lowest tm)
    (_sim_hold_timestep tm) (units_time settings) →
  (S (Nat.max 1 (iteration_bound (_sim_setup_highest tm) (_sim_setup_lowest tm)
                   (_sim_setup_timestep tm))) <= fuel)%nat →
  (S (Nat.max 1 (iteration_bound (_sim_hold_highest tm) (_sim_hold_lowest tm)
                   (_sim_hold_timestep tm))) <= fuel)%nat →
  search_bounded eps (_sim_setup_highest tm) (_sim_setup_lowest tm)
    (_sim_setup_timestep tm) (units_time settings)
    (Rounded._find_setup_time fuel settings tm harness slew load t_hold log)
  ∧ search_bounded eps (_sim_hold_highest tm) (_sim_hold_lowest tm)
      (_sim_hold_timestep tm) (units_time settings)
      (Rounded._find_hold_time fuel settings tm harness slew load t_setup log).
Proof.
  intros laws Hu Hs1 Hs2 Hs3 _ Hh1 Hh2 Hh3 _ Hf1 Hf2.
  unfold search_bounded. cbv zeta. split; (split; [|split]).
  - exact (rounded_binary_search_bounded eps laws fuel _ _ _ _ _ _ _ harness log
             Hs1 Hs2 Hu Hs3 Hf1).
  - by apply (rnd_scaled eps laws).
  - by apply (rnd_scaled eps laws).
  - exact (rounded_binary_search_bounded eps laws fuel _ _ _ _ _ _ _ harness log
             Hh1 Hh2 Hu Hh3 Hf2).
  - by apply (rnd_scaled eps laws).
  - by apply (rnd_scaled eps laws).
Qed.

Lemma binary_search_on_floats_terminates_witness :
  0 < units_time ex_settings
  ∧ _sim_setup_lowest ex_seq_tenths < _sim_setup_highest ex_seq_tenths
  ∧ 0 < _sim_setup_timestep ex_seq_tenths
  ∧ timestep_resolved unit_roundoff (_sim_setup_highest ex_seq_tenths)
      (_sim_setup_lowest ex_seq_tenths) (_sim_setup_timestep ex_seq_tenths)
  ∧ plain_magnitudes (_sim_setup_highest ex_seq_tenths)
      (_sim_setup_lowest ex_seq_tenths) (_sim_setup_timestep ex_seq_tenths)
      (units_time ex_settings)
  ∧ iteration_bound (_sim_setup_highest ex_seq_tenths)
      (_sim_setup_lowest ex_seq_tenths) (_sim_setup_timestep ex_seq_tenths)
    = 1%nat
  ∧ @search_bounded binary64 unit_roundoff (_sim_setup_highest ex_seq_tenths)
      (_sim_setup_lowest ex_seq_tenths) (_sim_setup_timestep ex_seq_tenths) 1
      (@Rounded._find_setup_time binary64 ex_simulator ex_format 2 ex_settings
         ex_seq_tenths ex_seq_rise 1 1 2 [])
  ∧ @search_bounded binary64 unit_roundoff (_sim_hold_highest ex_seq_tenths)
      (_sim_hold_lowest ex_seq_tenths) (_sim_hold_timestep ex_seq_tenths) 1
      (@Rounded._find_hold_time binary64 ex_simulator ex_format 2 ex_settings
         ex_seq_tenths ex_seq_rise 1 1 1 []).
Proof.
  split; [by vm_compute|]. split; [by vm_compute|]. split; [by vm_compute|].
  split; [by vm_compute|]. split; [by vm_compute|]. split; [by vm_compute|].
  apply (@binary_search_on_floats_terminates binary64 ex_simulator ex_format
           unit_roundoff 2 ex_settings ex_seq_tenths ex_seq_rise 1 1 1 2 []
           binary64_laws); by vm_compute.
Defined.

(** C1 fails as stated.  With bounds 2 and 1 and timestep 1,
    ceil(log2((2 - 1) / 1)) is 0, and the setup search makes one
    iteration.  With the floats 1.2, 1.0 and 0.1,
    ceil(log2((1.2 - 1.0) / 0.1)) is 1, and the setup search makes two
    iterations and returns 1.0: the computed distance of its first two
    times, 1.1 - 1.0, is 0.10000000000000009, above the float 0.1. *)
Lemma find_setup_time_exceeds_log2_bound :
  (_sim_setup_lowest ex_seq < _sim_setup_highest ex_seq
   ∧ 0 < _sim_setup_timestep ex_seq
   ∧ iteration_bound (_sim_setup_highest ex_seq) (_sim_setup_lowest ex_seq)
       (_sim_setup_timestep ex_seq) = 0%nat
   ∧ ∃ res log,
       @Rounded._find_setup_time binary64 ex_simulator ex_format 1 ex_settings
         ex_seq ex_seq_rise 1 1 2 [] = (Ok (Some res), log)
       ∧ trials res = 1%nat ∧ found res = 3 # 2)
  ∧ (_sim_setup_lowest ex_seq_tenths < _sim_setup_highest ex_seq_tenths
     ∧ 0 < _sim_setup_timestep ex_seq_tenths
     ∧ iteration_bound (_sim_setup_highest ex_seq_tenths)
         (_sim_setup_lowest ex_seq_tenths) (_sim_setup_timestep ex_seq_tenths)
       = 1%nat
     ∧ ∃ res log,
         @Rounded._find_setup_time binary64 ex_simulator ex_format 2
           ex_settings ex_seq_tenths ex_seq_rise 1 1 2 [] = (Ok (Some res), log)
         ∧ trials res = 2%nat ∧ found res = 1 ∧ length log = 2%nat).
Proof.
  split.
  - split; [by vm_compute|]. split; [by vm_compute|]. split; [reflexivity|].
    eexists. eexists. split; [vm_compute; reflexivity|]. by vm_compute.
  - split; [by vm_compute|]. split; [by vm_compute|]. split; [by vm_compute|].
    eexists. eexists. split; [vm_compute; reflexivity|]. by vm_compute.
Qed.

(** The two times and their distance, as floats. *)
Example find_setup_time_tenths_distance :
  @Rounded.midpoint binary64
    (@rnd binary64 (float_of (12 # 10) + float_of (1 # 10)))
    (@rnd binary64 (1 - float_of (1 # 10)))
  = float_of (11 # 10)
  ∧ @rnd binary64 (float_of (11 # 10) - 1)
    = 225179981368525 # 2251799813685248
  ∧ float_of (1 # 10) < @rnd binary64 (float_of (11 # 10) - 1).
Proof. by vm_compute. Qed.

(** ** The searches follow the rule *)




(** A setup search with bounds 9 and 1 and timestep 1 on a simulator
    that converges only for an early enough data edge.  The trial at 5
    measures 1/6, below the sentinel: the upper bound moves down.  The
    trial at 5/2 does not converge: the lower bound moves up and the
    search goes on.  The trial at 15/4 measures 4/19, above the 1/6 of
    the result in the slot: the lower bound moves up, and 15/4 is
    returned. *)
Example find_setup_time_marginal_passes :
  let trial := fun t => @seq_run_delay_trial ex_marginal_simulator ex_settings
                          ex_seq_wide ex_seq_rise 1 1 t 9 in
  let passes :=
    [{| tried := 5;
        measured := Some {| prop_in_out := 1 # 6; trans_out := 1 # 100 |};
        min_after := 0; max_after := 5 |};
     {| tried := 5 # 2; measured := None;
        min_after := 5 # 2; max_after := 5 |};
     {| tried := 15 # 4;
        measured := Some {| prop_in_out := 4 # 19; trans_out := 1 # 100 |};
        min_after := 15 # 4; max_after := 5 |}] in
  ∃ res log,
    @Rounded._find_setup_time binary64 ex_marginal_simulator ex_format 4
      ex_settings ex_seq_wide ex_seq_rise 1 1 9 [] = (Ok (Some res), log)
    ∧ found res = 15 # 4 ∧ trials res = 3%nat
    ∧ lookup_result (harness_after res) (ex_str 1) (ex_str 1)
      = Some {| prop_in_out := 4 # 19; trans_out := 1 # 100 |}
    ∧ @passes_follow_rule binary64 1 0 10 None passes
    ∧ Forall (pass_of_trial trial) passes
    ∧ @breaks_at_last binary64 1 passes
    ∧ log = calls_of trial passes.
Proof.
  intros trial passes.
  eexists. eexists. split; [vm_compute; reflexivity|].
  split; [reflexivity|]. split; [reflexivity|]. split; [by vm_compute|].
  split; [by vm_compute|]. split.
  - repeat apply Forall_cons_2; try apply Forall_nil_2; by vm_compute.
  - split; by vm_compute.
Qed.

(** ** The searches without rounding *)

(** With [exact_arith] the search on floats is the search in exact
    arithmetic. *)
Lemma rounded_exact_search_loop (trial : Q → M analysis) (T : Q)
    (k1 k2 : string) (fuel : nat) : ∀ st log,
  @Rounded.search_loop exact_arith fuel trial T k1 k2 st log
  = search_loop fuel trial T k1 k2 st log.
Proof.
  induction fuel as [|fuel IH]; intros st log;
    cbn [Rounded.search_loop search_loop]; [done|].
  destruct (Qle_bool (t_min st) (t_max st)); [|done].
  change (@Rounded.search_step exact_arith trial T k1 k2 st)
    with (search_step trial T k1 k2 st).
  unfold mbind, M_bind.
  destruct (search_step trial T k1 k2 st log) as [[[st' stop]|e] log'];
    [|done].
  destruct stop; [done|]. apply IH.
Qed.

Lemma rounded_exact_searches `{Simulator} `{PyFormat} (fuel : nat)
    (settings : LibrarySettings) (tm : SequentialTestManager)
    (harness : Harness) (slew load t_setup t_hold : Q) (log : list sim_call) :
  @Rounded._find_setup_time exact_arith _ _ fuel settings tm harness slew load
    t_hold log
  = _find_setup_time fuel settings tm harness slew load t_hold log
  ∧ @Rounded._find_hold_time exact_arith _ _ fuel settings tm harness slew load
      t_setup log
    = _find_hold_time fuel settings tm harness slew load t_setup log.
Proof.
  unfold Rounded._find_setup_time, Rounded._find_hold_time, _find_setup_time,
    _find_hold_time, Rounded.binary_search, binary_search.
  unfold mbind, MF_bind, mbind, M_bind.
  change (@rnd exact_arith) with (fun q : Q => q). cbv beta.
  split; by rewrite rounded_exact_search_loop.
Qed.
